(** * asami: the image-to-glyph pipeline of [src/components/Generator.tsx]

    A shallow embedding of the functions of the [Generator] component that turn
    a decoded RGBA pixel buffer into a grid of glyphs, and the properties of the
    specification checked against them.

    JavaScript's [Number] is IEEE 754 binary64; it is modelled by Rocq's
    primitive [float], whose [+], [-], [*], [/], [sqrt] and comparisons are the
    same operations bit for bit.  The library functions the source calls
    ([Math.floor], [Math.round], [%], typed-array stores, ...) are defined
    below from their ECMAScript definitions.  [Math.exp] and [Math.atan2] are
    implementation-approximated in ECMAScript, and whether a typed array of a
    given length can be allocated is left to the engine: they are fields of a
    [Host] record and every theorem holds for every host.  A string cannot
    grow without bound either: a loop that appends to a string for ever ends
    with the [RangeError] of the engine.

    Array contents and counters that the source keeps as integers (bytes of a
    [Uint8Array], histogram counts, the pixel count of a block, coordinates) are
    [Z]; they stay far below 2^53, where [Number] arithmetic on integers is
    exact. *)

From Stdlib Require Import ZArith List String Ascii Bool Lia Floats.
Import ListNotations.

Local Open Scope Z_scope.
Set Warnings "-inexact-float".

(** ** Numbers of the host language *)

Module JS.

(** The [Number] value of an integer (exact below 2^53, rounded to nearest
    even above). *)
Definition ofZ (z : Z) : float :=
  SF2Prim (binary_normalize prec emax z 0 false).

(** [Math.floor]. *)
Definition Math_floor (x : float) : float :=
  match Prim2SF x with
  | S754_finite s m e =>
      if 0 <=? e then x
      else ofZ (Z.shiftr (cond_Zopp s (Zpos m)) (- e))
  | _ => x
  end.

(** [Math.ceil]; ECMAScript notes that it is [-Math.floor(-x)]. *)
Definition Math_ceil (x : float) : float :=
  (- Math_floor (- x))%float.

(** [Math.round]: the nearest integer, ties towards +infinity; a result of
    zero keeps the sign of a negative argument. *)
Definition Math_round (x : float) : float :=
  match Prim2SF x with
  | S754_finite s m e =>
      if 0 <=? e then x
      else
        let n := Z.shiftr (2 * cond_Zopp s (Zpos m) + 2 ^ (- e)) (- e + 1) in
        if (n =? 0) && s then neg_zero else ofZ n
  | _ => x
  end.

(** [Math.max] and [Math.min] on two arguments: NaN if either is NaN, and
    -0 is smaller than +0. *)
Definition Math_max (a b : float) : float :=
  if is_nan a || is_nan b then nan
  else if (a <? b)%float then b
  else if (b <? a)%float then a
  else if get_sign a then b else a.

Definition Math_min (a b : float) : float :=
  if is_nan a || is_nan b then nan
  else if (a <? b)%float then a
  else if (b <? a)%float then b
  else if get_sign a then a else b.

(** The integer part of a finite number (truncation towards zero); [None] for
    NaN and the infinities. *)
Definition truncate (x : float) : option Z :=
  match Prim2SF x with
  | S754_zero _ => Some 0
  | S754_finite s m e =>
      Some (cond_Zopp s (if 0 <=? e then Z.shiftl (Zpos m) e
                         else Z.shiftr (Zpos m) (- e)))
  | _ => None
  end.

(** [ToUint8]: the conversion of a store into a [Uint8Array]. *)
Definition ToUint8 (x : float) : Z :=
  match truncate x with
  | Some n => n mod 256
  | None => 0
  end.

(** [ToUint8Clamp]: the conversion of a store into a [Uint8ClampedArray]:
    NaN is 0, the value is clamped to [0, 255] and rounded to the nearest
    integer, ties to even. *)
Definition ToUint8Clamp (x : float) : Z :=
  match Prim2SF x with
  | S754_infinity false => 255
  | S754_finite false m e =>
      if 0 <=? e then Z.min 255 (Z.shiftl (Zpos m) e)
      else
        let k := - e in
        let f := Z.shiftr (Zpos m) k in
        let r := Zpos m - Z.shiftl f k in
        Z.min 255
          (match 2 * r ?= 2 ^ k with
           | Lt => f
           | Gt => f + 1
           | Eq => if Z.even f then f else f + 1
           end)
  | _ => 0
  end.

(** [Math.fround]: rounding to binary32, the conversion of a store into a
    [Float32Array]. *)
Definition fround (x : float) : float :=
  match Prim2SF x with
  | S754_finite s m e => SF2Prim (binary_round 24 128 s m e)
  | _ => x
  end.

(** The remainder operator [%] of ECMAScript ([Number::remainder]): the sign
    of the dividend, an exact result. *)
Definition fmod (n d : float) : float :=
  match Prim2SF n with
  | S754_nan | S754_infinity _ => nan
  | S754_zero _ =>
      match Prim2SF d with
      | S754_nan | S754_zero _ => nan
      | _ => n
      end
  | S754_finite sn mn en =>
      match Prim2SF d with
      | S754_nan | S754_zero _ => nan
      | S754_infinity _ => n
      | S754_finite _ md ed =>
          let e0 := Z.min en ed in
          let r := (Z.shiftl (Zpos mn) (en - e0)) mod (Z.shiftl (Zpos md) (ed - e0)) in
          match r with
          | Zpos p => SF2Prim (binary_round prec emax sn p e0)
          | _ => if sn then neg_zero else zero
          end
      end
  end.

(** [ToIndex], as [new Float32Array(n)] applies it to its length before it
    allocates the array: NaN is 0, the value is truncated, and a negative
    length or one above 2^53 - 1 is a [RangeError] ([None]). *)
Definition ToIndex (x : float) : option Z :=
  match Prim2SF x with
  | S754_nan => Some 0
  | S754_infinity _ => None
  | _ =>
      match truncate x with
      | Some n => if (0 <=? n) && (n <=? 2 ^ 53 - 1) then Some n else None
      | None => None
      end
  end.

(** The integer a number denotes when it is used as an array index
    ([a[x]]): only a non-negative integral number names an element. *)
Definition arrayIndex (x : float) : option Z :=
  match Prim2SF x with
  | S754_zero _ => Some 0
  | S754_finite false m e =>
      if 0 <=? e then Some (Z.shiftl (Zpos m) e)
      else if Z.shiftl (Z.shiftr (Zpos m) (- e)) (- e) =? Zpos m
           then Some (Z.shiftr (Zpos m) (- e))
           else None
  | _ => None
  end.

Definition Math_PI : float := 0x1.921fb54442d18p+1%float.

End JS.

Import JS.

(** ** Data of the component *)

(** A value that is a string, [null] or [undefined]: what [getEdgeChar] and an
    indexed read of a string or of an array of strings return. *)
Inductive jsval :=
| JNull
| JUndefined
| JString (s : string).

(** [if (v)]: [null], [undefined] and the empty string are falsy. *)
Definition truthy (v : jsval) : bool :=
  match v with
  | JString s => negb (String.eqb s "")
  | _ => false
  end.

(** The string a value contributes to a string concatenation. *)
Definition toString (v : jsval) : string :=
  match v with
  | JNull => "null"
  | JUndefined => "undefined"
  | JString s => s
  end.

Definition newline : string := String (ascii_of_nat 10) EmptyString.

(** [interface Settings]. *)
Record Settings := {
  blockSize : Z;
  brightness : float;
  autoAdjust : bool;
  detectEdges : bool;
  color : bool;
  invertColor : bool;
  asciiChars : string;
  sigma1 : float;
  sigma2 : float
}.

(** The initial value of the [settings] state. *)
Definition defaultSettings : Settings := {|
  blockSize := 8;
  brightness := 1.0;
  autoAdjust := true;
  detectEdges := false;
  color := true;
  invertColor := false;
  asciiChars := " .:-=+*#%@";
  sigma1 := 0.5;
  sigma2 := 1.0
|}.

(** The DOM's [ImageData]: [data] is a [Uint8ClampedArray] of RGBA bytes. *)
Record ImageData := {
  width : Z;
  height : Z;
  data : list Z
}.

(** An [ImageData] as the DOM builds it: four bytes per pixel. *)
Definition wellFormed (imageData : ImageData) : bool :=
  (0 <=? width imageData) && (0 <=? height imageData)
  && (Z.of_nat (List.length (data imageData)) =? width imageData * height imageData * 4)
  && forallb (fun v => (0 <=? v) && (v <=? 255)) (data imageData).

(** The accumulator [calculateBlockInfo] returns. *)
Record BlockInfo := {
  sumBrightness : float;
  sumColor : float * float * float;
  pixelCount : Z;
  sumMag : float;
  sumDir : float
}.

(** The result of [applySobelFilter]: two [Float32Array]s. *)
Record EdgeData := {
  magnitude : list float;
  direction : list float
}.

(** One [fillText] call on the output canvas, with the fill style and the
    font size set before it. *)
Record GlyphDraw := {
  glyphText : jsval;
  glyphX : Z;
  glyphY : Z;
  glyphColor : float * float * float;
  glyphFont : Z
}.

(** What a canvas shows. *)
Inductive Bitmap :=
| Blank
| DrawImage (image : ImageData) (under : Bitmap)
| Rendering (whiteBackground : bool) (glyphs : list GlyphDraw).

Record Canvas := {
  canvasWidth : Z;
  canvasHeight : Z;
  bitmap : Bitmap
}.

(** The state [generate] reads and writes: the [asciiText] state of the
    component and the canvas behind [canvasRef]. *)
Record State := {
  asciiText : string;
  canvas : Canvas
}.

(** What the host provides: the two implementation-approximated functions of
    [Math] the source calls, the pixels [getImageData] reads from a canvas
    for a rectangle of a given width and height, and whether the engine can
    allocate a [Float32Array] of a given number of elements (ECMAScript leaves
    it to the implementation: a length it cannot allocate is a
    [RangeError]). *)
Record Host := {
  Math_exp : float -> float;
  Math_atan2 : float -> float -> float;
  readPixels : Bitmap -> Z -> Z -> list Z;
  allocates : Z -> bool
}.

(** How a run of [generate] ends: with a result, or with the [RangeError] the
    engine throws for an array it cannot create or a string it cannot
    hold. *)
Inductive outcome (A : Type) :=
| Done (a : A)
| RangeError.
Arguments Done {A} a.
Arguments RangeError {A}.

(** The text and the glyphs of one pass over the blocks. *)
Record Output := {
  outText : string;
  outGlyphs : list GlyphDraw
}.

(** ** Arrays and loops *)

(** The indices of [for (let i = 0; i < n; i++)]. *)
Definition range (n : Z) : list Z := map Z.of_nat (seq 0 (Z.to_nat n)).

(** A read [a[i]] used as a number: [undefined] out of range, which
    arithmetic turns into NaN. *)
Definition readZ (a : list Z) (i : Z) : float :=
  if i <? 0 then nan
  else match nth_error a (Z.to_nat i) with
       | Some v => ofZ v
       | None => nan
       end.

Definition readF (a : list float) (i : Z) : float :=
  if i <? 0 then nan
  else match nth_error a (Z.to_nat i) with
       | Some v => v
       | None => nan
       end.

(** [h[v]++] on an array of counters. *)
Definition increment (h : list Z) (v : Z) : list Z :=
  match nth_error h (Z.to_nat v) with
  | Some c => firstn (Z.to_nat v) h ++ (c + 1) :: skipn (S (Z.to_nat v)) h
  | None => h
  end.

(** [s[x]] on a string. *)
Definition charAt (s : string) (x : float) : jsval :=
  match arrayIndex x with
  | Some n =>
      match String.get (Z.to_nat n) s with
      | Some c => JString (String c EmptyString)
      | None => JUndefined
      end
  | None => JUndefined
  end.

(** [t[x]] on an array of strings. *)
Definition elementAt (t : list string) (x : float) : jsval :=
  match arrayIndex x with
  | Some n =>
      match nth_error t (Z.to_nat n) with
      | Some c => JString c
      | None => JUndefined
      end
  | None => JUndefined
  end.

(** The values of [v] in [for (let v = start; v < limit; v += step)]; [None]
    when the loop is still running after [fuel] iterations. *)
Fixpoint loopValues (fuel : nat) (start limit step : Z) : option (list Z) :=
  if start <? limit then
    match fuel with
    | O => None
    | S fuel' => option_map (cons start) (loopValues fuel' (start + step) limit step)
    end
  else Some [].

(** ** The functions of the component

    [settings] is the state variable every function of the component closes
    over; [host] stands for the engine the component runs on. *)

Section Generator.

Variable host : Host.
Variable settings : Settings.

Local Open Scope float_scope.

(** The luminance formula, written twice in the source ([rgbToGrayscale] and
    [calculateBlockInfo]). *)
Definition luminance (r g b : float) : float :=
  Math_round (0.299 * r + 0.587 * g + 0.114 * b).

(** [rgbToGrayscale]: a zero-filled [Uint8Array] of [width * height] bytes;
    the loop over [i = 0, 4, 8, ... < data.length] stores the luminance of
    pixel [i / 4], and a store past the end of the array is ignored. *)
Definition rgbToGrayscale (imageData : ImageData) : list Z :=
  let d := data imageData in
  map (fun k =>
         if (4 * k <? Z.of_nat (List.length d))%Z
         then ToUint8 (luminance (readZ d (4 * k)) (readZ d (4 * k + 1))
                                 (readZ d (4 * k + 2)))
         else 0%Z)
      (range (width imageData * height imageData)).

(** The entries of [gaussianKernel] before normalisation, as read back from
    the [Float32Array]. *)
Definition kernelEntry (sigma size : float) (i : Z) : float :=
  let half := size / 2 in
  let x := ofZ i - half in
  fround (Math_exp host (- (x * x) / (2 * sigma * sigma))).

(** [new Float32Array(size)]: the length [ToIndex] gives, when the engine
    can allocate an array of that length; [None] is the [RangeError] of a
    length that is not valid or of an allocation that fails. *)
Definition newFloat32Array (size : float) : option Z :=
  match ToIndex size with
  | Some n => if allocates host n then Some n else None
  | None => None
  end.

(** [gaussianKernel]; [None] when [new Float32Array(size)] throws. *)
Definition gaussianKernel (sigma : float) : option (list float) :=
  let size := Math_ceil (6 * sigma) in
  match newFloat32Array size with
  | None => None
  | Some n =>
      let kernel := map (kernelEntry sigma size) (range n) in
      let sum := fold_left add kernel 0 in
      Some (map (fun k => fround (k / sum)) kernel)
  end.

(** The inner loop of both passes of [applyGaussianBlur]: the taps whose
    coordinate [c + i - floor(kernel.length / 2)] falls inside are summed. *)
Definition blurAt (kernel : list float) (sample : Z -> float) (bound c : Z) : float :=
  let n := Z.of_nat (List.length kernel) in
  fold_left
    (fun sum i =>
       let ic := (c + i - n / 2)%Z in
       if (0 <=? ic)%Z && (ic <? bound)%Z
       then sum + sample ic * readF kernel i
       else sum)
    (range n) 0.

(** [applyGaussianBlur]: the horizontal pass into [temp], then the vertical
    pass into [result], both [Uint8Array]s. *)
Definition applyGaussianBlur (imageData : ImageData) (sigma : float) : option (list Z) :=
  let w := width imageData in
  let h := height imageData in
  match gaussianKernel sigma with
  | None => None
  | Some kernel =>
      let gray := rgbToGrayscale imageData in
      let temp :=
        flat_map (fun y => map (fun x =>
           ToUint8 (blurAt kernel (fun ix => readZ gray (y * w + ix)%Z) w x))
           (range w)) (range h) in
      let result :=
        flat_map (fun y => map (fun x =>
           ToUint8 (blurAt kernel (fun iy => readZ temp (iy * w + x)%Z) h y))
           (range w)) (range h) in
      Some result
  end.

(** One sample of [differenceOfGaussians]; the store into the [Uint8Array]
    reduces the value modulo 256. *)
Definition dogSample (blur1 blur2 : list Z) (i : Z) : Z :=
  match nth_error blur1 (Z.to_nat i), nth_error blur2 (Z.to_nat i) with
  | Some b1, Some b2 =>
      let diff := (b1 - b2)%Z in
      (Z.max 0 (Z.min 255 (diff + 128)) mod 256)%Z
  | _, _ => 0%Z
  end.

(** [differenceOfGaussians]. *)
Definition differenceOfGaussians (imageData : ImageData) : option (list Z) :=
  match applyGaussianBlur imageData (sigma1 settings) with
  | None => None
  | Some blur1 =>
      match applyGaussianBlur imageData (sigma2 settings) with
      | None => None
      | Some blur2 =>
          Some (map (dogSample blur1 blur2)
                    (range (width imageData * height imageData)))
      end
  end.

Definition Gx : list (list Z) := [[-1; 0; 1]; [-2; 0; 2]; [-1; 0; 1]]%Z.
Definition Gy : list (list Z) := [[-1; -2; -1]; [0; 0; 0]; [1; 2; 1]]%Z.

Definition coefficient (k : list (list Z)) (i j : Z) : float :=
  ofZ (nth (Z.to_nat j) (nth (Z.to_nat i) k []) 0%Z).

(** The two sums of the 3x3 loops of [applySobelFilter] at pixel [(x, y)]. *)
Definition sobelAt (grayData : list Z) (w x y : Z) : float * float :=
  fold_left
    (fun '(gx, gy) i =>
       fold_left
         (fun '(gx, gy) j =>
            let pixel := readZ grayData ((y + i - 1) * w + (x + j - 1))%Z in
            (gx + coefficient Gx i j * pixel, gy + coefficient Gy i j * pixel))
         (range 3) (gx, gy))
    (range 3) (0, 0).

(** [applySobelFilter]: the border rows and columns keep the zeros the two
    [Float32Array]s are created with. *)
Definition applySobelFilter (grayData : list Z) (w h : Z) : EdgeData :=
  let inner x y := ((1 <=? y) && (y <? h - 1) && (1 <=? x) && (x <? w - 1))%Z in
  let at_ f := flat_map (fun y => map (fun x =>
                  if inner x y then f (sobelAt grayData w x y) else 0)
                  (range w)) (range h) in
  {| magnitude := at_ (fun '(gx, gy) => fround (sqrt (gx * gx + gy * gy)));
     direction := at_ (fun '(gx, gy) => fround (Math_atan2 host gy gx)) |}.

Definition edgeTable : list string := ["-"; "\"; "|"; "/"; "-"; "\"; "|"; "/"]%string.

(** The index [getEdgeChar] computes from a direction. *)
Definition edgeIndex (direction : float) : float :=
  let angle := (direction + Math_PI) * (180 / Math_PI) in
  Math_floor (fmod (angle + 22.5) 180 / 45).

(** [getEdgeChar]. *)
Definition getEdgeChar (magnitude direction : float) : jsval :=
  let threshold := 50 in
  if magnitude <? threshold then JNull
  else elementAt edgeTable (edgeIndex direction).

(** *** autoBrightnessContrast *)

(** The histogram loop: [histogram[gray[i]]++] over 256 zeroed counters. *)
Definition histogramOf (gray : list Z) : list Z :=
  fold_left increment gray (repeat 0%Z 256).

(** The running sums [accumulator[i] = accumulator[i - 1] + histogram[i]]. *)
Fixpoint runningSums (before : Z) (histogram : list Z) : list Z :=
  match histogram with
  | [] => []
  | c :: rest => (before + c)%Z :: runningSums (before + c)%Z rest
  end.

(** [while (accumulator[minGray] < clipHistCount) minGray++], on the part of
    the accumulator from [minGray] on: past the end the read is [undefined],
    the comparison is false and the loop stops. *)
Fixpoint scanUp (clipHistCount : float) (rest : list Z) (minGray : Z) : Z :=
  match rest with
  | [] => minGray
  | a :: rest' =>
      if ofZ a <? clipHistCount then scanUp clipHistCount rest' (minGray + 1)%Z
      else minGray
  end.

(** [while (accumulator[maxGray] >= bound) maxGray--], on the part of the
    accumulator from [maxGray] down: the read at -1 is [undefined] and stops
    the loop. *)
Fixpoint scanDown (bound : float) (rest : list Z) (maxGray : Z) : Z :=
  match rest with
  | [] => maxGray
  | a :: rest' =>
      if bound <=? ofZ a then scanDown bound rest' (maxGray - 1)%Z
      else maxGray
  end.

(** [minGray] and [maxGray]. *)
Definition grayBounds (imageData : ImageData) : Z * Z :=
  let gray := rgbToGrayscale imageData in
  let histogram := histogramOf gray in
  let accumulator := runningSums 0 histogram in
  let max := nth 255 accumulator 0%Z in
  let clipPercent := 1 in
  let clipHistCount := Math_floor (ofZ max * clipPercent / 100 / 2) in
  let minGray := scanUp clipHistCount accumulator 0 in
  let maxGray := scanDown (ofZ max - clipHistCount) (rev accumulator) 255 in
  (minGray, maxGray).

(** [alpha] and [beta]. *)
Definition stretch (imageData : ImageData) : float * float :=
  let '(minGray, maxGray) := grayBounds imageData in
  let alpha := 255 / ofZ (maxGray - minGray) in
  let beta := (- ofZ minGray) * alpha in
  (alpha, beta).

(** [autoBrightnessContrast]: every element of [data] is stored, transformed,
    into a [Uint8ClampedArray]. *)
Definition autoBrightnessContrast (imageData : ImageData) : ImageData :=
  let '(alpha, beta) := stretch imageData in
  {| width := width imageData;
     height := height imageData;
     data := map (fun v => ToUint8Clamp (ofZ v * alpha + beta)) (data imageData) |}.

(** *** calculateBlockInfo *)

(** The body of the two loops over [dy] and [dx]. *)
Definition blockStep (imageData : ImageData) (x y : Z) (edgeData : option EdgeData)
    (dy dx : Z) (info : BlockInfo) : BlockInfo :=
  let w := width imageData in
  let h := height imageData in
  let ix := (x + dx)%Z in
  let iy := (y + dy)%Z in
  let i := ((iy * w + ix) * 4)%Z in
  if ((w <=? ix) || (h <=? iy)
      || (Z.of_nat (List.length (data imageData)) <=? i + 2))%Z
  then info
  else
    let r := readZ (data imageData) i in
    let g := readZ (data imageData) (i + 1) in
    let b := readZ (data imageData) (i + 2) in
    let gray := luminance r g b in
    let '(sr, sg, sb) := sumColor info in
    let edge :=
      match edgeData with
      | Some e => if detectEdges settings then Some e else None
      | None => None
      end in
    let edgeIndex := (iy * w + ix)%Z in
    {| sumBrightness := sumBrightness info + gray;
       sumColor := if color settings then (sr + r, sg + g, sb + b) else (sr, sg, sb);
       pixelCount := (pixelCount info + 1)%Z;
       sumMag := match edge with
                 | Some e => sumMag info + readF (magnitude e) edgeIndex
                 | None => sumMag info
                 end;
       sumDir := match edge with
                 | Some e => sumDir info + readF (direction e) edgeIndex
                 | None => sumDir info
                 end |}.

(** [calculateBlockInfo]. *)
Definition calculateBlockInfo (imageData : ImageData) (x y : Z)
    (edgeData : option EdgeData) : BlockInfo :=
  let blockW := Z.min (blockSize settings) (width imageData - x) in
  let blockH := Z.min (blockSize settings) (height imageData - y) in
  fold_left
    (fun info dy =>
       fold_left (fun info dx => blockStep imageData x y edgeData dy dx info)
                 (range blockW) info)
    (range blockH)
    {| sumBrightness := 0; sumColor := (0, 0, 0); pixelCount := 0;
       sumMag := 0; sumDir := 0 |}.

(** *** selectAsciiChar *)

Definition avgBrightness (blockInfo : BlockInfo) : float :=
  Math_floor (sumBrightness blockInfo / ofZ (pixelCount blockInfo)).

Definition clampedBrightness (blockInfo : BlockInfo) : float :=
  let boostedBrightness := Math_floor (avgBrightness blockInfo * brightness settings) in
  Math_max 0 (Math_min 255 boostedBrightness).

(** The last three lines of [selectAsciiChar]: the glyph of the ramp. *)
Definition rampChar (clamped : float) : jsval :=
  if clamped =? 0 then JString " "
  else
    let n := ofZ (Z.of_nat (String.length (asciiChars settings))) in
    let charIndex := Math_floor (clamped * n / 256) in
    charAt (asciiChars settings) (Math_min charIndex (n - 1)).

Definition avgMag (blockInfo : BlockInfo) : float :=
  sumMag blockInfo / ofZ (pixelCount blockInfo).

Definition avgDir (blockInfo : BlockInfo) : float :=
  sumDir blockInfo / ofZ (pixelCount blockInfo).

(** [selectAsciiChar]. *)
Definition selectAsciiChar (blockInfo : BlockInfo) : jsval :=
  let clamped := clampedBrightness blockInfo in
  if detectEdges settings then
    let edgeChar := getEdgeChar (avgMag blockInfo) (avgDir blockInfo) in
    if truthy edgeChar then edgeChar else rampChar clamped
  else rampChar clamped.

(** [calculateAverageColor]. *)
Definition calculateAverageColor (blockInfo : BlockInfo) : float * float * float :=
  if negb (color settings) then (255, 255, 255)
  else
    let n := ofZ (pixelCount blockInfo) in
    let '(sr, sg, sb) := sumColor blockInfo in
    let c := (Math_floor (sr / n), Math_floor (sg / n), Math_floor (sb / n)) in
    if invertColor settings then
      let '(r, g, b) := c in (255 - r, 255 - g, 255 - b)
    else c.

(** *** generate *)

(** The loop over [x] of [generate] for the row of blocks at [y]. *)
Definition generateRow (imageData : ImageData) (edgeData : option EdgeData)
    (y : Z) (xs : list Z) : string * list GlyphDraw :=
  fold_left
    (fun '(rowText, drawn) x =>
       let blockInfo := calculateBlockInfo imageData x y edgeData in
       let char := selectAsciiChar blockInfo in
       let color := calculateAverageColor blockInfo in
       (String.append rowText (toString char),
        drawn ++ [{| glyphText := char; glyphX := x;
                     glyphY := (y + blockSize settings)%Z;
                     glyphColor := color; glyphFont := blockSize settings |}]))
    xs (EmptyString, []).

(** The part of [generate] between [getImageData] and [setAsciiText]: the
    pass that turns the pixel buffer into text and glyphs.  A loop that is
    still running after as many iterations as the image has rows or columns
    has a step that is not positive and never reaches its limit; every
    iteration appends to the text (the glyph of a block to the row, a newline
    to the text), and the engine throws a [RangeError] when a string outgrows
    the length it can hold. *)
Definition generatePass (imageData : ImageData) : outcome Output :=
  let w := width imageData in
  let h := height imageData in
  let imageData :=
    if autoAdjust settings then autoBrightnessContrast imageData else imageData in
  let edges :=
    if detectEdges settings then
      match differenceOfGaussians imageData with
      | Some dogResult => Some (Some (applySobelFilter dogResult w h))
      | None => None
      end
    else Some None in
  match edges with
  | None => RangeError
  | Some edgeData =>
      match loopValues (Z.to_nat h) 0 h (blockSize settings) with
      | None => RangeError
      | Some [] => Done {| outText := EmptyString; outGlyphs := [] |}
      | Some ys =>
          match loopValues (Z.to_nat w) 0 w (blockSize settings) with
          | None => RangeError
          | Some xs =>
              Done (fold_left
                      (fun out y =>
                         let '(rowText, drawn) := generateRow imageData edgeData y xs in
                         {| outText := String.append (outText out)
                                         (String.append rowText newline);
                            outGlyphs := outGlyphs out ++ drawn |})
                      ys {| outText := EmptyString; outGlyphs := [] |})
          end
      end
  end.

(** The canvas operations [generate] performs.  Assigning the width or the
    height of a canvas clears it; [drawImage] paints over what the canvas
    shows; [getImageData] reads what it shows; the last four statements of
    [generate] clear the canvas, fill it with the background and draw the
    output canvas with its glyphs. *)
Definition setSize (w h : Z) (c : Canvas) : Canvas :=
  {| canvasWidth := w; canvasHeight := h; bitmap := Blank |}.

Definition drawImage (image : ImageData) (c : Canvas) : Canvas :=
  {| canvasWidth := canvasWidth c; canvasHeight := canvasHeight c;
     bitmap := DrawImage image (bitmap c) |}.

Definition getImageData (c : Canvas) (w h : Z) : ImageData :=
  {| width := w; height := h; data := readPixels host (bitmap c) w h |}.

Definition repaint (glyphs : list GlyphDraw) (c : Canvas) : Canvas :=
  {| canvasWidth := canvasWidth c; canvasHeight := canvasHeight c;
     bitmap := Rendering (invertColor settings) glyphs |}.

(** [generate] for a loaded image and a mounted canvas. *)
Definition generate (originalImage : ImageData) (st : State) : outcome State :=
  let w := width originalImage in
  let h := height originalImage in
  let c := setSize w h (canvas st) in
  let c := drawImage originalImage c in
  let imageData := getImageData c w h in
  match generatePass imageData with
  | Done out =>
      Done {| asciiText := outText out; canvas := repaint (outGlyphs out) c |}
  | RangeError => RangeError
  end.

End Generator.

(** ** A host to run examples on

    Executable stand-ins for the engine: a series for the exponential, an
    arctangent by argument halving, a canvas on which a drawn image hides
    what is under it, and typed arrays of at most 2^32 - 1 elements.  They
    are used to evaluate the pipeline on concrete
    inputs only; the theorems are stated for every host. *)

Module Reference.

Local Open Scope float_scope.

Definition ln2 : float := 0x1.62e42fefa39efp-1.

Definition expSeries (r : float) : float :=
  fold_right (fun k acc => 1 + r / ofZ k * acc) 1 (map (Z.add 1) (range 24)).

Definition exp (x : float) : float :=
  if is_nan x then nan
  else if 709.78 <? x then infinity
  else if x <? -745.2 then 0
  else
    let k := Math_round (x / ln2) in
    match truncate k with
    | Some n => Z.ldexp (expSeries (x - k * ln2)) n
    | None => nan
    end.

Definition atanSeries (z : float) : float :=
  let z2 := z * z in
  z * fold_right (fun k acc => 1 / ofZ (2 * k + 1) - z2 * acc) 0 (range 16).

Definition halve (z : float) : float := z / (1 + sqrt (1 + z * z)).

(** The arctangent of a number that is not negative. *)
Definition atanPos (z : float) : float :=
  if 1 <? z then Math_PI / 2 - 4 * atanSeries (halve (halve (1 / z)))
  else 4 * atanSeries (halve (halve z)).

Definition atan (z : float) : float :=
  if get_sign z then - atanPos (- z) else atanPos z.

Definition atan2 (y x : float) : float :=
  if is_nan x || is_nan y then nan
  else if 0 <? x then atan (y / x)
  else if x <? 0 then
    if get_sign y then atan (y / x) - Math_PI else atan (y / x) + Math_PI
  else if 0 <? y then Math_PI / 2
  else if y <? 0 then - (Math_PI / 2)
  else if get_sign x then (if get_sign y then - Math_PI else Math_PI)
  else y.

Definition shownPixels (shown : Bitmap) (w h : Z) : list Z :=
  match shown with
  | DrawImage image _ => data image
  | _ => repeat 0%Z (Z.to_nat (w * h * 4))
  end.

Definition host : Host :=
  {| Math_exp := exp; Math_atan2 := atan2; readPixels := shownPixels;
     allocates := fun n => (n <=? 2 ^ 32 - 1)%Z |}.

End Reference.

(** ** Inputs of the scenarios *)

(** An image of [w] by [h] pixels, all of one colour. *)
Definition uniformImage (w h : Z) (r g b a : Z) : ImageData :=
  {| width := w; height := h;
     data := flat_map (fun _ => [r; g; b; a]) (range (w * h)) |}.

(** The settings of the end-to-end scenarios: block size 8, the default ramp,
    no auto adjustment, no colour, no edge detection. *)
Definition scenarioSettings : Settings := {|
  blockSize := 8;
  brightness := 1.0;
  autoAdjust := false;
  detectEdges := false;
  color := false;
  invertColor := false;
  asciiChars := " .:-=+*#%@";
  sigma1 := 0.5;
  sigma2 := 1.0
|}.

Definition black16 : ImageData := uniformImage 16 16 0 0 0 255.

(** The text of a run, when it ends normally. *)
Definition textOf (o : outcome Output) : option string :=
  match o with
  | Done out => Some (outText out)
  | _ => None
  end.

(** ** Predicates and inputs used in the statements *)

(** The edge glyph overrides the ramp glyph of a block. *)
Definition edgeOverride (settings : Settings) (blockInfo : BlockInfo) : bool :=
  detectEdges settings
  && truthy (getEdgeChar (avgMag blockInfo) (avgDir blockInfo)).

(** The last character of a string, as a value. *)
Definition lastChar (s : string) : jsval :=
  match String.get (String.length s - 1) s with
  | Some c => JString (String c EmptyString)
  | None => JUndefined
  end.

(** A block of 64 pixels of luminance 255. *)
Definition whiteBlock : BlockInfo :=
  {| sumBrightness := 16320; sumColor := (0, 0, 0)%float; pixelCount := 64;
     sumMag := 0; sumDir := 0 |}.

(** A block of 64 pixels of luminance 0. *)
Definition blackBlock : BlockInfo :=
  {| sumBrightness := 0; sumColor := (0, 0, 0)%float; pixelCount := 64;
     sumMag := 0; sumDir := 0 |}.

(** A ramp of 257 characters: 256 times [a], then [b]. *)
Definition longRamp : string :=
  string_of_list_ascii (repeat "a"%char 256 ++ ["b"%char]).

Definition longRampSettings : Settings := {|
  blockSize := 8;
  brightness := 1.0;
  autoAdjust := false;
  detectEdges := false;
  color := false;
  invertColor := false;
  asciiChars := longRamp;
  sigma1 := 0.5;
  sigma2 := 1.0
|}.

(** Two pixels whose alpha channel is 128, one black and one white. *)
Definition translucentPair : ImageData :=
  {| width := 2; height := 1; data := [0; 0; 0; 128; 255; 255; 255; 128] |}.

(** Two opaque pixels of luminance 0 and 1: the clipping bounds coincide. *)
Definition nearBlackPair : ImageData :=
  {| width := 2; height := 1; data := [0; 0; 0; 255; 1; 1; 1; 255] |}.

(** The default settings with the colour off. *)
Definition autoAdjustSettings : Settings := {|
  blockSize := 8;
  brightness := 1.0;
  autoAdjust := true;
  detectEdges := false;
  color := false;
  invertColor := false;
  asciiChars := " .:-=+*#%@";
  sigma1 := 0.5;
  sigma2 := 1.0
|}.

(** The scenario settings with edge detection on. *)
Definition edgeSettings : Settings := {|
  blockSize := 8;
  brightness := 1.0;
  autoAdjust := false;
  detectEdges := true;
  color := false;
  invertColor := false;
  asciiChars := " .:-=+*#%@";
  sigma1 := 0.5;
  sigma2 := 1.0
|}.

(** A bright block of 64 pixels on a strong edge: average magnitude 60,
    average direction 1.5 radians. *)
Definition edgeBlock : BlockInfo :=
  {| sumBrightness := 16320; sumColor := (0, 0, 0)%float; pixelCount := 64;
     sumMag := 3840; sumDir := 96 |}.

(** The same block on a weak edge: average magnitude 40. *)
Definition faintEdgeBlock : BlockInfo :=
  {| sumBrightness := 16320; sumColor := (0, 0, 0)%float; pixelCount := 64;
     sumMag := 2560; sumDir := 96 |}.

(** ** Bounds on binary64 numbers

    The predicates below describe a number by its sign, mantissa and exponent
    ([Prim2SF]); they are used to follow a bound through the roundings of
    [+], [*] and [/]. *)

Abbreviation fexp64 := (fexp prec emax).

(** What [binary_round_aux] builds from the rounded mantissa and its
    exponent. *)
Definition finish (sx : bool) (m e : Z) : spec_float :=
  match m with
  | 0 => S754_zero sx
  | Z.pos p => if e <=? emax - prec then S754_finite sx p e else S754_infinity sx
  | Z.neg _ => S754_nan
  end.

(** [0 <= x < 2 ^ K]: +0, or a positive finite number of at most [K] binary
    digits before the point. *)
Definition below (K : Z) (x : spec_float) : Prop :=
  x = S754_zero false
  \/ exists m e, x = S754_finite false m e /\ Z.pos (digits2_pos m) + e <= K.

(** The zero of sign [s], or a finite number of sign [s] and of absolute value
    below [2 ^ K]: [below K] is [sized false K]. *)
Definition sized (s : bool) (K : Z) (x : spec_float) : Prop :=
  x = S754_zero s
  \/ exists m e, x = S754_finite s m e /\ Z.pos (digits2_pos m) + e <= K.

(** [0 <= x < 180], for a number in canonical form (180 is
    [6333186975989760 * 2 ^ -45]). *)
Definition below180 (x : spec_float) : Prop :=
  x = S754_zero false
  \/ exists m e, x = S754_finite false m e
       /\ e = fexp64 (Z.pos (digits2_pos m) + e)
       /\ e <= -45
       /\ Z.pos m < 6333186975989760 * 2 ^ (-45 - e).

(** [0 <= x < 4]. *)
Definition below4 (x : spec_float) : Prop :=
  x = S754_zero false
  \/ exists m e e', x = S754_finite false m e
       /\ e' <= e /\ e' <= 0
       /\ Z.pos m * 2 ^ (e - e') < 4 * 2 ^ (- e').

(** ** Quantities used in the statements *)

(** The number of blocks along a side of [limit] pixels. *)
Definition blockCount (limit step : Z) : Z := (limit + step - 1) / step.

(** The glyph [generate] draws for the block of column [c] and row [r]. *)
Definition glyphAt (settings : Settings) (imageData : ImageData)
    (edgeData : option EdgeData) (r c : Z) : GlyphDraw :=
  let x := c * blockSize settings in
  let y := r * blockSize settings in
  let blockInfo := calculateBlockInfo settings imageData x y edgeData in
  {| glyphText := selectAsciiChar settings blockInfo;
     glyphX := x;
     glyphY := y + blockSize settings;
     glyphColor := calculateAverageColor settings blockInfo;
     glyphFont := blockSize settings |}.

(** The sum of an array of counters. *)
Definition total (l : list Z) : Z := fold_right Z.add 0 l.

(** A pixel of the outermost rows and columns. *)
Definition onBorder (w h x y : Z) : bool :=
  (x =? 0) || (x =? w - 1) || (y =? 0) || (y =? h - 1).

(** [0 <= x <= N / 2 ^ 1074]: +0, or a positive finite number whose value,
    counted in units of [2 ^ -1074], is at most [N]. *)
Definition atMost (N : Z) (x : spec_float) : Prop :=
  (x = S754_zero false /\ 0 <= N)
  \/ exists m e, x = S754_finite false m e
       /\ -1074 <= e /\ Z.pos m * 2 ^ (e + 1074) <= N.

(** [atMost], decided. *)
Definition atMostb (N : Z) (x : spec_float) : bool :=
  match x with
  | S754_zero false => 0 <=? N
  | S754_finite false m e => (-1074 <=? e) && (Z.pos m * 2 ^ (e + 1074) <=? N)
  | _ => false
  end.

(** The byte of channel [c] (0, 1, 2 or 3) of pixel [p]. *)
Definition channel (imageData : ImageData) (c p : Z) : Z :=
  nth (Z.to_nat (4 * p + c)) (data imageData) 0.

(** The pixels of the block at [(x, y)], in the order [calculateBlockInfo]
    visits them. *)
Definition blockPixels (settings : Settings) (imageData : ImageData) (x y : Z) : list Z :=
  let blockW := Z.min (blockSize settings) (width imageData - x) in
  let blockH := Z.min (blockSize settings) (height imageData - y) in
  flat_map (fun dy => map (fun dx => (y + dy) * width imageData + (x + dx)) (range blockW))
           (range blockH).

(** The sum of [f] over a list of pixels. *)
Definition sumOver (f : Z -> Z) (pixels : list Z) : Z :=
  fold_right Z.add 0 (map f pixels).

(** The sums of a block so far: the brightness sum and, with the colour on,
    the three colour sums are the integers [sb], [sr], [sg] and [sl]. *)
Definition blockSums (settings : Settings) (sb sr sg sl : Z) (info : BlockInfo) : Prop :=
  sumBrightness info = ofZ sb
  /\ sumColor info = (if color settings then (ofZ sr, ofZ sg, ofZ sl)
                      else (0, 0, 0)%float).

(** The gray level [rgbToGrayscale] gives to pixel [p]. *)
Definition grayLevel (imageData : ImageData) (p : Z) : Z :=
  nth (Z.to_nat p) (rgbToGrayscale imageData) 0.

(** The integer mean of [f] over the block. *)
Definition blockMean (settings : Settings) (imageData : ImageData) (x y : Z)
    (f : Z -> Z) : Z :=
  let pixels := blockPixels settings imageData x y in
  sumOver f pixels / Z.of_nat (List.length pixels).

(** [handleSettingChange('detectEdges', value)]: the settings with that one
    field replaced. *)
Definition setDetectEdges (value : bool) (settings : Settings) : Settings :=
  {| blockSize := blockSize settings;
     brightness := brightness settings;
     autoAdjust := autoAdjust settings;
     detectEdges := value;
     color := color settings;
     invertColor := invertColor settings;
     asciiChars := asciiChars settings;
     sigma1 := sigma1 settings;
     sigma2 := sigma2 settings |}.

(** Two accumulators with the same sums of brightness and colour and the
    same count, the first with no gradient magnitude summed. *)
Definition sameSums (a b : BlockInfo) : Prop :=
  sumBrightness a = sumBrightness b
  /\ sumColor a = sumColor b
  /\ pixelCount a = pixelCount b
  /\ sumMag a = 0%float.

(** The number of elements of [l] equal to [v]. *)
Definition occurrences (v : Z) (l : list Z) : Z :=
  Z.of_nat (List.length (filter (Z.eqb v) l)).

(** The number of elements of [l] that are at most [g]. *)
Definition countUpTo (g : Z) (l : list Z) : Z :=
  Z.of_nat (List.length (filter (fun v => v <=? g) l)).

(** The stretch computed from the bounds [lo] and [hi] stores 0 for the byte
    [lo] and 255 for the byte [hi]. *)
Definition endpointsOk (lo hi : Z) : bool :=
  let alpha := (255 / ofZ (hi - lo))%float in
  let beta := (- ofZ lo * alpha)%float in
  (ToUint8Clamp (ofZ lo * alpha + beta) =? 0)
  && (ToUint8Clamp (ofZ hi * alpha + beta) =? 255).


(** The scenario settings with an empty ramp. *)
Definition emptyRampSettings : Settings := {|
  blockSize := 8;
  brightness := 1.0;
  autoAdjust := false;
  detectEdges := false;
  color := false;
  invertColor := false;
  asciiChars := EmptyString;
  sigma1 := 0.5;
  sigma2 := 1.0
|}.

(** The scenario settings with edge detection on and both sigmas 0.5. *)
Definition equalSigmaSettings : Settings := {|
  blockSize := 8;
  brightness := 1.0;
  autoAdjust := false;
  detectEdges := true;
  color := false;
  invertColor := false;
  asciiChars := " .:-=+*#%@";
  sigma1 := 0.5;
  sigma2 := 0.5
|}.

(** * Properties *)

(** ** Loops and arrays *)

Lemma range_length (n : Z) : List.length (range n) = Z.to_nat n.
Proof. unfold range. now rewrite length_map, length_seq. Qed.

Lemma range_In (n i : Z) : In i (range n) <-> 0 <= i < n.
Proof.
  unfold range. rewrite in_map_iff. split.
  - intros (k & <- & Hk). apply in_seq in Hk. lia.
  - intros H. exists (Z.to_nat i). split; [lia|]. apply in_seq. lia.
Qed.

Lemma range_nth_error (n : Z) (k : nat) :
  (k < Z.to_nat n)%nat -> nth_error (range n) k = Some (Z.of_nat k).
Proof.
  intros H. unfold range.
  rewrite nth_error_map, nth_error_seq.
  destruct (Nat.ltb_spec k (Z.to_nat n)); [reflexivity | lia].
Qed.

Lemma flat_map_rows_length {A B C : Type} (f : A -> B -> C) (rows : list A) (cols : list B) :
  List.length (flat_map (fun y => map (f y) cols) rows)
  = (List.length rows * List.length cols)%nat.
Proof.
  induction rows as [|y rows IH]; simpl; [reflexivity|].
  now rewrite length_app, length_map, IH.
Qed.

(** With a positive step the loop of [generate] over block origins ends
    within [limit] iterations. *)
Lemma loopValues_terminates (step limit : Z) :
  0 < step ->
  forall (fuel : nat) (start : Z),
    0 <= start -> (Z.to_nat (limit - start) <= fuel)%nat ->
    exists vs, loopValues fuel start limit step = Some vs.
Proof.
  intros Hstep. induction fuel as [|fuel IH]; intros start Hs Hf; simpl.
  - destruct (Z.ltb_spec start limit); [lia | now exists []].
  - destruct (Z.ltb_spec start limit); [| now exists []].
    destruct (IH (start + step)) as [vs Hvs]; [lia | lia |].
    rewrite Hvs. now exists (start :: vs).
Qed.


(** With a positive block size the two loops over the blocks end; without
    edge detection nothing throws and the pass returns its text and
    glyphs. *)
Lemma generatePass_terminates (host : Host) (settings : Settings) (imageData : ImageData) :
  0 < blockSize settings ->
  detectEdges settings = false ->
  exists out, generatePass host settings imageData = Done out.
Proof.
  intros Hb Hde. unfold generatePass. cbv zeta.
  destruct (loopValues_terminates (blockSize settings) (height imageData) Hb
              (Z.to_nat (height imageData)) 0) as [ys Hys]; [lia | lia |].
  destruct (loopValues_terminates (blockSize settings) (width imageData) Hb
              (Z.to_nat (width imageData)) 0) as [xs Hxs]; [lia | lia |].
  rewrite Hys, Hxs, Hde. destruct ys; eauto.
Qed.


(** ** Rounding of binary64 numbers

    [Prim2SF] maps a primitive float to its sign, mantissa and exponent, and
    the axioms of the standard library state that [+], [*] and [/] are
    [SFadd], [SFmul] and [SFdiv] on them: an exact operation on integers
    followed by [binary_round_aux].  The lemmas of this part bound what the
    rounding returns. *)

Lemma digits2_pos_size (p : positive) : digits2_pos p = Pos.size p.
Proof. induction p; simpl; congruence. Qed.

(** A mantissa of [d] binary digits lies between [2 ^ (d - 1)] and [2 ^ d]. *)
Lemma digits2_pos_bounds (p : positive) :
  2 ^ (Z.pos (digits2_pos p) - 1) <= Z.pos p < 2 ^ Z.pos (digits2_pos p).
Proof.
  rewrite digits2_pos_size. split.
  - pose proof (Pos.size_le p) as H.
    apply Pos2Z.pos_le_pos in H. rewrite Pos2Z.inj_pow in H.
    replace (Z.pos (Pos.size p)) with (Z.pos (Pos.size p) - 1 + 1) in H by lia.
    rewrite Z.pow_add_r in H by lia. change (Z.pos p~0) with (2 * Z.pos p) in H. lia.
  - pose proof (Pos.size_gt p) as H.
    apply Pos2Z.pos_lt_pos in H. now rewrite Pos2Z.inj_pow in H.
Qed.

Lemma Zdigits2_nonneg (m : Z) : 0 <= Zdigits2 m.
Proof. destruct m; simpl; lia. Qed.

Lemma Zdigits2_bounds (m : Z) :
  0 < m -> 2 ^ (Zdigits2 m - 1) <= m < 2 ^ Zdigits2 m.
Proof. destruct m; try lia. intros _. apply digits2_pos_bounds. Qed.

Lemma Zdigits2_le (m k : Z) : 0 <= m -> 0 <= k -> m < 2 ^ k -> Zdigits2 m <= k.
Proof.
  intros Hm Hk H. destruct (Z.eq_dec m 0) as [->|Hz]; [simpl; lia|].
  destruct (Zdigits2_bounds m ltac:(lia)) as [Hlo _].
  pose proof (Zdigits2_nonneg m).
  destruct (Z_le_gt_dec (Zdigits2 m) k) as [|Hgt]; [assumption|].
  assert (2 ^ k <= 2 ^ (Zdigits2 m - 1)) by (apply Z.pow_le_mono_r; lia). lia.
Qed.

Lemma Zdigits2_lt_pow (m k : Z) : 0 <= m -> Zdigits2 m <= k -> m < 2 ^ k.
Proof.
  intros Hm H. destruct (Z.eq_dec m 0) as [->|Hz].
  - pose proof (Zdigits2_nonneg 0). apply Z.pow_pos_nonneg; simpl in *; lia.
  - destruct (Zdigits2_bounds m ltac:(lia)) as [_ Hhi].
    pose proof (Zdigits2_nonneg m).
    assert (2 ^ Zdigits2 m <= 2 ^ k) by (apply Z.pow_le_mono_r; lia). lia.
Qed.

Lemma pow2_pos (k : Z) : 0 <= k -> 0 < 2 ^ k.
Proof. intros. apply Z.pow_pos_nonneg; lia. Qed.

(** A right shift by one bit halves the mantissa. *)
Lemma shr_1_m (mrs : shr_record) :
  0 <= shr_m mrs -> shr_m (shr_1 mrs) = shr_m mrs / 2.
Proof.
  destruct mrs as [m r s]. simpl. intros Hm.
  destruct m as [|p|p]; try lia; [reflexivity|].
  destruct p as [p|p|]; simpl shr_m.
  - rewrite Pos2Z.inj_xI. apply Z.div_unique with 1; lia.
  - rewrite Pos2Z.inj_xO. apply Z.div_unique with 0; lia.
  - reflexivity.
Qed.

Lemma iter_shr_1_m (n : positive) : forall mrs,
  0 <= shr_m mrs ->
  shr_m (iter_pos shr_1 n mrs) = shr_m mrs / 2 ^ Z.pos n.
Proof.
  assert (Hnn : forall mrs, 0 <= shr_m mrs -> 0 <= shr_m (shr_1 mrs)).
  { intros mrs H. rewrite shr_1_m by assumption. apply Z.div_pos; lia. }
  induction n as [n IH|n IH|]; intros mrs Hm; simpl iter_pos.
  - rewrite IH, IH, shr_1_m; try assumption.
    + rewrite !Z.div_div by lia. f_equal.
      rewrite Pos2Z.inj_xI. rewrite <- !Z.pow_add_r by lia.
      replace (2 * Z.pos n + 1) with (1 + Z.pos n + Z.pos n) by lia.
      rewrite !Z.pow_add_r by lia. lia.
    + now apply Hnn.
    + rewrite IH by now apply Hnn. apply Z.div_pos; [now apply Hnn | lia].
  - rewrite IH, IH; try assumption.
    + rewrite !Z.div_div by lia. f_equal.
      rewrite Pos2Z.inj_xO. rewrite <- Z.pow_add_r by lia. f_equal. lia.
    + rewrite IH by assumption. apply Z.div_pos; [assumption | lia].
  - now rewrite shr_1_m.
Qed.

Lemma fexp64_eq (x : Z) : fexp64 x = Z.max (x - 53) (-1074).
Proof. reflexivity. Qed.

Lemma shr_record_of_loc_m (m : Z) (l : location) : shr_m (shr_record_of_loc m l) = m.
Proof. destruct l as [|[| |]]; reflexivity. Qed.

(** The shift that brings a mantissa to the exponent of the format divides
    it by a power of two. *)
Lemma shr_fexp_spec (m e : Z) (l : location) :
  0 <= m ->
  exists mrs,
    shr_fexp prec emax m e l = (mrs, Z.max e (fexp64 (Zdigits2 m + e)))
    /\ shr_m mrs = m / 2 ^ (Z.max e (fexp64 (Zdigits2 m + e)) - e)
    /\ (fexp64 (Zdigits2 m + e) <= e -> mrs = shr_record_of_loc m l).
Proof.
  intros Hm. unfold shr_fexp, shr.
  destruct (fexp64 (Zdigits2 m + e) - e) as [|p|p] eqn:Hn.
  - exists (shr_record_of_loc m l). rewrite Z.max_l by lia.
    rewrite Z.sub_diag, Z.div_1_r, shr_record_of_loc_m. auto.
  - exists (iter_pos shr_1 p (shr_record_of_loc m l)). rewrite Z.max_r by lia.
    repeat split.
    + f_equal. lia.
    + rewrite iter_shr_1_m by (rewrite shr_record_of_loc_m; lia).
      rewrite shr_record_of_loc_m, Hn. reflexivity.
    + lia.
  - exists (shr_record_of_loc m l). rewrite Z.max_l by lia.
    rewrite Z.sub_diag, Z.div_1_r, shr_record_of_loc_m. auto.
Qed.

(** Rounding adds at most one unit to the mantissa. *)
Lemma round_nearest_even_bounds (m : Z) (l : location) :
  m <= round_nearest_even m l <= m + 1.
Proof. destruct l as [|[| |]]; simpl; try lia. destruct (Z.even m); lia. Qed.

Lemma div_pow2_digits (m d k : Z) :
  0 <= m -> 0 <= k -> m < 2 ^ d -> 0 <= d -> m / 2 ^ k + 1 <= 2 ^ Z.max (d - k) 0.
Proof.
  intros Hm Hk Hd Hd0.
  destruct (Z_le_gt_dec k d) as [Hle|Hgt].
  - rewrite Z.max_l by lia.
    assert (m / 2 ^ k < 2 ^ (d - k)); [|lia].
    apply Z.div_lt_upper_bound; [lia|].
    rewrite <- Z.pow_add_r by lia. now replace (k + (d - k)) with d by lia.
  - rewrite Z.max_r by lia. rewrite Z.div_small; [simpl; lia|].
    split; [lia|]. assert (2 ^ d <= 2 ^ k) by (apply Z.pow_le_mono_r; lia). lia.
Qed.

(** The result of a rounding: a mantissa and an exponent whose value exceeds
    the value that is rounded by at most one unit of the exponent [E] it is
    rounded at. *)
Lemma binary_round_aux_spec (sx : bool) (mx ex : Z) (lx : location) :
  0 <= mx ->
  let E := Z.max ex (fexp64 (Zdigits2 mx + ex)) in
  exists m3 e3,
    binary_round_aux prec emax sx mx ex lx = finish sx m3 e3
    /\ 0 <= m3
    /\ E <= e3
    /\ m3 * 2 ^ (e3 - ex) <= mx + 2 ^ (E - ex)
    /\ e3 <= Z.max E (fexp64 (Z.max (Zdigits2 mx + ex) E + 1)).
Proof.
  intros Hm E. unfold binary_round_aux.
  destruct (shr_fexp_spec mx ex lx Hm) as (mrs1 & -> & Hm1 & _).
  fold E in Hm1 |- *.
  set (m2 := round_nearest_even (shr_m mrs1) (loc_of_shr_record mrs1)).
  pose proof (round_nearest_even_bounds (shr_m mrs1) (loc_of_shr_record mrs1)) as Hm2.
  fold m2 in Hm2.
  assert (HE : ex <= E) by (unfold E; lia).
  assert (Hm1' : 0 <= shr_m mrs1) by (rewrite Hm1; apply Z.div_pos; lia).
  assert (Hm2' : 0 <= m2) by lia.
  destruct (shr_fexp_spec m2 E loc_Exact Hm2') as (mrs2 & -> & Hm3 & _).
  set (e3 := Z.max E (fexp64 (Zdigits2 m2 + E))) in *.
  exists (shr_m mrs2), e3.
  assert (He3 : E <= e3) by (unfold e3; lia).
  assert (Hm3' : 0 <= shr_m mrs2) by (rewrite Hm3; apply Z.div_pos; lia).
  assert (Hp1 : 0 < 2 ^ (E - ex)) by (apply Z.pow_pos_nonneg; lia).
  assert (Hp2 : 0 < 2 ^ (e3 - E)) by (apply Z.pow_pos_nonneg; lia).
  repeat split; try assumption.
  - replace (e3 - ex) with ((e3 - E) + (E - ex)) by lia.
    rewrite Z.pow_add_r by lia.
    assert (shr_m mrs2 * 2 ^ (e3 - E) <= m2).
    { rewrite Hm3, Z.mul_comm. apply Z.mul_div_le. lia. }
    assert (shr_m mrs1 * 2 ^ (E - ex) <= mx).
    { rewrite Hm1, Z.mul_comm. apply Z.mul_div_le. lia. }
    nia.
  - unfold e3. apply Z.max_le_compat_l.
    rewrite !fexp64_eq.
    assert (Zdigits2 m2 + E <= Z.max (Zdigits2 mx + ex) E + 1); [|lia].
    pose proof (Zdigits2_nonneg mx) as Hd.
    assert (Hmx : mx < 2 ^ Zdigits2 mx) by (apply Zdigits2_lt_pow; lia).
    pose proof (div_pow2_digits mx (Zdigits2 mx) (E - ex) Hm ltac:(lia) Hmx Hd) as Hdiv.
    rewrite <- Hm1 in Hdiv.
    assert (Zdigits2 m2 <= Z.max (Zdigits2 mx - (E - ex)) 0 + 1); [|lia].
    apply Zdigits2_le; [lia | lia |].
    rewrite Z.pow_add_r by lia. change (2 ^ 1) with 2.
    assert (0 < 2 ^ Z.max (Zdigits2 mx - (E - ex)) 0) by (apply Z.pow_pos_nonneg; lia).
    lia.
Qed.

(** A value below [2 ^ K] that is not negative is rounded to a finite number
    below [2 ^ (K + 1)] that is not negative. *)
Lemma binary_round_aux_sized (sx : bool) (mx ex : Z) (lx : location) (K : Z) :
  0 <= mx -> Zdigits2 mx + ex <= K -> ex <= K -> -1074 <= K <= 971 ->
  sized sx (K + 1) (binary_round_aux prec emax sx mx ex lx).
Proof.
  intros Hm HD Hex HK.
  destruct (binary_round_aux_spec sx mx ex lx Hm) as (m3 & e3 & -> & Hm3 & HE & Hval & He3).
  cbv zeta in *.
  set (D := Zdigits2 mx + ex) in *.
  set (E := Z.max ex (fexp64 D)) in *.
  rewrite !fexp64_eq in He3.
  assert (HEK : E <= K) by (unfold E; rewrite fexp64_eq; lia).
  unfold finish. destruct m3 as [|p|p]; [now left | | lia].
  replace (e3 <=? emax - prec) with true
    by (symmetry; apply Z.leb_le; change (emax - prec) with 971; lia).
  right. exists p, e3. split; [reflexivity|].
  change (Z.pos (digits2_pos p)) with (Zdigits2 (Z.pos p)).
  assert (Hex3 : ex <= e3) by (unfold E in HE; lia).
  assert (Zdigits2 (Z.pos p) <= K + 1 - e3); [|lia].
  pose proof (Zdigits2_nonneg mx) as Hd.
  assert (Hmx : mx < 2 ^ Zdigits2 mx) by (apply Zdigits2_lt_pow; lia).
  destruct (Z_le_gt_dec (K + 1) e3) as [Hbig|Hsmall].
  - (* the value would be below one unit of the last place *)
    exfalso.
    assert (H1 : 2 ^ (e3 - ex) <= Z.pos p * 2 ^ (e3 - ex)).
    { pose proof (pow2_pos (e3 - ex) ltac:(lia)). nia. }
    assert (H2 : mx + 2 ^ (E - ex) < 2 ^ (e3 - ex)).
    { assert (2 ^ Zdigits2 mx <= 2 ^ (K - ex)) by (apply Z.pow_le_mono_r; lia).
      assert (2 ^ (E - ex) <= 2 ^ (K - ex)) by (apply Z.pow_le_mono_r; lia).
      assert (2 ^ (K + 1 - ex) <= 2 ^ (e3 - ex)) by (apply Z.pow_le_mono_r; lia).
      replace (K + 1 - ex) with (1 + (K - ex)) in * by lia.
      rewrite Z.pow_add_r in * by lia. change (2 ^ 1) with 2 in *. lia. }
    lia.
  - apply Zdigits2_le; [lia | lia |].
    assert (Hp : 0 < 2 ^ (e3 - ex)) by (apply pow2_pos; lia).
    apply Z.mul_lt_mono_pos_r with (2 ^ (e3 - ex)); [exact Hp|].
    rewrite <- Z.pow_add_r by lia.
    replace (K + 1 - e3 + (e3 - ex)) with (1 + (K - ex)) by lia.
    rewrite Z.pow_add_r by lia. change (2 ^ 1) with 2.
    assert (2 ^ Zdigits2 mx <= 2 ^ (K - ex)) by (apply Z.pow_le_mono_r; lia).
    assert (2 ^ (E - ex) <= 2 ^ (K - ex)) by (apply Z.pow_le_mono_r; lia).
    lia.
Qed.

Lemma binary_round_aux_below (mx ex : Z) (lx : location) (K : Z) :
  0 <= mx -> Zdigits2 mx + ex <= K -> ex <= K -> -1074 <= K <= 971 ->
  below (K + 1) (binary_round_aux prec emax false mx ex lx).
Proof. exact (binary_round_aux_sized false mx ex lx K). Qed.


Lemma pos_iter_xO (m d : positive) :
  Z.pos (Pos.iter xO m d) = Z.pos m * 2 ^ Z.pos d
  /\ Z.pos (digits2_pos (Pos.iter xO m d)) = Z.pos (digits2_pos m) + Z.pos d.
Proof.
  induction d as [|d IH] using Pos.peano_ind.
  - simpl. split; lia.
  - rewrite Pos.iter_succ. destruct IH as [IH1 IH2]. split.
    + rewrite Pos2Z.inj_xO, IH1, Pos2Z.inj_succ, Z.pow_succ_r by lia. lia.
    + simpl digits2_pos. rewrite Pos2Z.inj_succ, IH2. lia.
Qed.

(** Aligning a mantissa to a smaller exponent multiplies it by a power of
    two. *)
Lemma shl_align_spec (mx : positive) (ex ex' : Z) :
  exists mz,
    shl_align mx ex ex' = (mz, Z.min ex ex')
    /\ Z.pos mz = Z.pos mx * 2 ^ (ex - Z.min ex ex')
    /\ Z.pos (digits2_pos mz) + Z.min ex ex' = Z.pos (digits2_pos mx) + ex.
Proof.
  unfold shl_align. destruct (ex' - ex) as [|d|d] eqn:Hd.
  - exists mx. rewrite Z.min_l by lia. rewrite Z.sub_diag. repeat split; lia.
  - exists mx. rewrite Z.min_l by lia. rewrite Z.sub_diag. repeat split; lia.
  - exists (Pos.iter xO mx d). rewrite Z.min_r by lia.
    destruct (pos_iter_xO mx d) as [H1 H2].
    replace (ex - ex') with (Z.pos d) by lia. repeat split; [exact H1 | lia].
Qed.

Lemma binary_round_sized (sx : bool) (mx : positive) (ex K : Z) :
  Z.pos (digits2_pos mx) + ex <= K -> -1074 <= K <= 971 ->
  sized sx (K + 1) (binary_round prec emax sx mx ex).
Proof.
  intros HD HK. unfold binary_round.
  destruct (shl_align_spec mx ex (fexp64 (Z.pos (digits2_pos mx) + ex)))
    as (mz & -> & Hmz & Hdz).
  pose proof (Pos2Z.is_pos (digits2_pos mx)).
  apply binary_round_aux_sized; simpl Zdigits2; lia.
Qed.

Lemma binary_round_below (mx : positive) (ex K : Z) :
  Z.pos (digits2_pos mx) + ex <= K -> -1074 <= K <= 971 ->
  below (K + 1) (binary_round prec emax false mx ex).
Proof. exact (binary_round_sized false mx ex K). Qed.

(** A number of the binary64 format that needs no rounding. *)
Lemma binary_round_exact (sx : bool) (mx : positive) (ex : Z) :
  let ez := fexp64 (Z.pos (digits2_pos mx) + ex) in
  ez <= ex -> ez <= 971 ->
  exists mz,
    binary_round prec emax sx mx ex = S754_finite sx mz ez
    /\ Z.pos mz = Z.pos mx * 2 ^ (ex - ez)
    /\ Z.pos (digits2_pos mz) + ez = Z.pos (digits2_pos mx) + ex.
Proof.
  intros ez Hez Hmax. unfold binary_round. fold ez.
  destruct (shl_align_spec mx ex ez) as (mz & -> & Hmz & Hdz).
  rewrite Z.min_r in * by lia.
  exists mz. repeat split; try assumption.
  unfold binary_round_aux.
  destruct (shr_fexp_spec (Z.pos mz) ez loc_Exact ltac:(lia)) as (mrs1 & -> & _ & Hsame).
  simpl Zdigits2 in *. rewrite Hdz in *. fold ez in Hsame |- *.
  rewrite Hsame by lia. simpl loc_of_shr_record. simpl shr_m. simpl round_nearest_even.
  rewrite Z.max_l by lia.
  destruct (shr_fexp_spec (Z.pos mz) ez loc_Exact ltac:(lia)) as (mrs2 & -> & _ & Hsame2).
  simpl Zdigits2 in *. rewrite Hdz in *. fold ez in Hsame2 |- *.
  rewrite Hsame2 by lia. simpl shr_m. rewrite Z.max_l by lia.
  replace (ez <=? emax - prec) with true; [reflexivity|].
  symmetry. apply Z.leb_le. change (emax - prec) with 971. lia.
Qed.

Lemma digits_pos_lt (m : positive) (e K : Z) :
  Z.pos (digits2_pos m) + e <= K -> Z.pos m < 2 ^ (K - e).
Proof.
  intros H. apply (Zdigits2_lt_pow (Z.pos m)); simpl; lia.
Qed.

(** The sum of two numbers below [2 ^ K1] and [2 ^ K2]. *)
Lemma SF64add_below (K1 K2 : Z) (x y : spec_float) :
  below K1 x -> below K2 y ->
  -1074 <= Z.max K1 K2 + 1 <= 971 ->
  below (Z.max K1 K2 + 2) (SF64add x y).
Proof.
  intros [->|(mx & ex & -> & Hx)] [->|(my & ey & -> & Hy)] HK.
  - now left.
  - right. exists my, ey. split; [reflexivity | lia].
  - right. exists mx, ex. split; [reflexivity | lia].
  - unfold SF64add, SFadd. cbv zeta.
    set (ez := Z.min ex ey).
    destruct (shl_align_spec mx ex ez) as (ax & -> & Hax & _).
    destruct (shl_align_spec my ey ez) as (ay & -> & Hay & _).
    rewrite !Z.min_r in * by (unfold ez; lia).
    simpl fst. simpl cond_Zopp.
    pose proof (digits_pos_lt _ _ _ Hx) as Bx.
    pose proof (digits_pos_lt _ _ _ Hy) as By.
    pose proof (Pos2Z.is_pos (digits2_pos mx)).
    pose proof (Pos2Z.is_pos (digits2_pos my)).
    assert (Hex : ez <= ex) by (unfold ez; lia).
    assert (Hey : ez <= ey) by (unfold ez; lia).
    assert (Bax : Z.pos ax < 2 ^ (Z.max K1 K2 - ez)).
    { rewrite Hax.
      assert (2 ^ (K1 - ex) * 2 ^ (ex - ez) <= 2 ^ (Z.max K1 K2 - ez)).
      { rewrite <- Z.pow_add_r by lia. apply Z.pow_le_mono_r; lia. }
      pose proof (pow2_pos (ex - ez) ltac:(lia)). nia. }
    assert (Bay : Z.pos ay < 2 ^ (Z.max K1 K2 - ez)).
    { rewrite Hay.
      assert (2 ^ (K2 - ey) * 2 ^ (ey - ez) <= 2 ^ (Z.max K1 K2 - ez)).
      { rewrite <- Z.pow_add_r by lia. apply Z.pow_le_mono_r; lia. }
      pose proof (pow2_pos (ey - ez) ltac:(lia)). nia. }
    replace (Z.max K1 K2 + 2) with (Z.max K1 K2 + 1 + 1) by lia.
    change (Z.pos ax + Z.pos ay) with (Z.pos (ax + ay)). simpl binary_normalize.
    apply binary_round_below; [|lia].
    change (Z.pos (digits2_pos (ax + ay))) with (Zdigits2 (Z.pos (ax + ay))).
    assert (Zdigits2 (Z.pos (ax + ay)) <= Z.max K1 K2 + 1 - ez); [|lia].
    apply Zdigits2_le; [lia | lia |].
    replace (Z.max K1 K2 + 1 - ez) with (1 + (Z.max K1 K2 - ez)) by lia.
    rewrite Z.pow_add_r by lia. change (2 ^ 1) with 2. lia.
Qed.

(** The product of two numbers of absolute values below [2 ^ K1] and
    [2 ^ K2] has the product of their signs. *)
Lemma SF64mul_sized (s1 s2 : bool) (K1 K2 : Z) (x y : spec_float) :
  sized s1 K1 x -> sized s2 K2 y ->
  -1074 <= K1 + K2 <= 971 ->
  sized (xorb s1 s2) (K1 + K2 + 1) (SF64mul x y).
Proof.
  intros [->|(mx & ex & -> & Hx)] [->|(my & ey & -> & Hy)] HK;
    try (now left).
  unfold SF64mul, SFmul.
  pose proof (digits_pos_lt _ _ _ Hx) as Bx.
  pose proof (digits_pos_lt _ _ _ Hy) as By.
  pose proof (Pos2Z.is_pos (digits2_pos mx)).
  pose proof (Pos2Z.is_pos (digits2_pos my)).
  apply binary_round_aux_sized; try lia.
  assert (Zdigits2 (Z.pos (mx * my)) <= K1 + K2 - (ex + ey)); [|lia].
  apply Zdigits2_le; [lia | lia |].
  replace (K1 + K2 - (ex + ey)) with ((K1 - ex) + (K2 - ey)) by lia.
  rewrite Z.pow_add_r by lia. rewrite Pos2Z.inj_mul. nia.
Qed.

(** The product of two numbers below [2 ^ K1] and [2 ^ K2]. *)
Lemma SF64mul_below (K1 K2 : Z) (x y : spec_float) :
  below K1 x -> below K2 y ->
  -1074 <= K1 + K2 <= 971 ->
  below (K1 + K2 + 1) (SF64mul x y).
Proof. exact (SF64mul_sized false false K1 K2 x y). Qed.

(** A negative number added to a positive number of a larger magnitude gives
    a positive number. *)
Lemma SF64add_negligible (K1 K2 : Z) (x : spec_float) (my : positive) (ey : Z) :
  sized true K1 x ->
  K1 < Z.pos (digits2_pos my) + ey <= K2 -> -1074 <= K2 <= 971 ->
  below (K2 + 1) (SF64add x (S754_finite false my ey)).
Proof.
  intros [->|(mx & ex & -> & Hx)] HD HK.
  - right. exists my, ey. split; [reflexivity | lia].
  - unfold SF64add, SFadd. cbv zeta.
    set (ez := Z.min ex ey).
    destruct (shl_align_spec mx ex ez) as (ax & -> & Hax & _).
    destruct (shl_align_spec my ey ez) as (ay & -> & Hay & _).
    rewrite !Z.min_r in * by (unfold ez; lia).
    simpl fst. cbv [cond_Zopp].
    pose proof (digits_pos_lt _ _ _ Hx) as Bx.
    pose proof (digits_pos_lt my ey K2 ltac:(lia)) as By.
    pose proof (Zdigits2_bounds (Z.pos my) ltac:(lia)) as [Ly _].
    simpl Zdigits2 in Ly.
    pose proof (Pos2Z.is_pos (digits2_pos mx)).
    pose proof (Pos2Z.is_pos (digits2_pos my)).
    assert (Hex : ez <= ex) by (unfold ez; lia).
    assert (Hey : ez <= ey) by (unfold ez; lia).
    assert (Bax : Z.pos ax < 2 ^ (K1 - ez)).
    { rewrite Hax.
      assert (2 ^ (K1 - ex) * 2 ^ (ex - ez) = 2 ^ (K1 - ez)).
      { rewrite <- Z.pow_add_r by lia. f_equal. lia. }
      pose proof (pow2_pos (ex - ez) ltac:(lia)). nia. }
    assert (Lay : 2 ^ (K1 - ez) <= Z.pos ay).
    { rewrite Hay.
      assert (2 ^ (K1 - ez) <= 2 ^ (Z.pos (digits2_pos my) - 1) * 2 ^ (ey - ez)).
      { rewrite <- Z.pow_add_r by lia. apply Z.pow_le_mono_r; lia. }
      pose proof (pow2_pos (ey - ez) ltac:(lia)). nia. }
    assert (Bay : Z.pos ay < 2 ^ (K2 - ez)).
    { rewrite Hay.
      assert (2 ^ (K2 - ey) * 2 ^ (ey - ez) = 2 ^ (K2 - ez)).
      { rewrite <- Z.pow_add_r by lia. f_equal. lia. }
      pose proof (pow2_pos (ey - ez) ltac:(lia)). nia. }
    remember (- Z.pos ax + Z.pos ay) as z eqn:Hz.
    destruct z as [|p|p]; [lia | | lia].
    simpl binary_normalize.
    apply binary_round_below; [|lia].
    change (Z.pos (digits2_pos p)) with (Zdigits2 (Z.pos p)).
    assert (Zdigits2 (Z.pos p) <= K2 - ez); [|lia].
    apply Zdigits2_le; lia.
Qed.

Lemma below_const (x : float) (m : positive) (e K : Z) :
  Prim2SF x = S754_finite false m e -> (Z.pos (digits2_pos m) + e <=? K) = true ->
  below K (Prim2SF x).
Proof.
  intros H HK. right. exists m, e. split; [exact H | apply Z.leb_le, HK].
Qed.

(** A number of the format has a mantissa in canonical form. *)
Lemma valid_finite (s : bool) (m : positive) (e : Z) :
  valid_binary (S754_finite s m e) = true ->
  e = fexp64 (Z.pos (digits2_pos m) + e) /\ e <= 971.
Proof.
  unfold SpecFloat.valid_binary, bounded, canonical_mantissa.
  intros H. apply andb_prop in H. destruct H as [H1 H2].
  apply Z.eqb_eq in H1. apply Z.leb_le in H2.
  change (emax - prec) with 971 in H2. split; [congruence | exact H2].
Qed.

(** [<=] on two finite numbers, read on signs, exponents and mantissas. *)
Lemma SFleb_finite (s1 s2 : bool) (m1 m2 : positive) (e1 e2 : Z) :
  SFleb (S754_finite s1 m1 e1) (S754_finite s2 m2 e2) = true ->
  match s1, s2 with
  | true, false => True
  | false, true => False
  | false, false => e1 < e2 \/ (e1 = e2 /\ Z.pos m1 <= Z.pos m2)
  | true, true => e2 < e1 \/ (e1 = e2 /\ Z.pos m2 <= Z.pos m1)
  end.
Proof.
  unfold SFleb, SFcompare.
  change (Pos.compare_cont Eq m1 m2) with (Pos.compare m1 m2).
  destruct s1, s2; try trivial; try discriminate.
  - destruct (Z.compare_spec e1 e2) as [He|He|He]; simpl; try discriminate.
    + destruct (Pos.compare_spec m1 m2) as [Hm|Hm|Hm]; simpl; try discriminate; intros _.
      * right. split; [exact He | rewrite Hm; apply Z.le_refl].
      * right. split; [exact He|]. apply Pos2Z.pos_lt_pos in Hm. lia.
    + intros _. now left.
  - destruct (Z.compare_spec e1 e2) as [He|He|He]; simpl; try discriminate.
    + destruct (Pos.compare_spec m1 m2) as [Hm|Hm|Hm]; simpl; try discriminate; intros _.
      * right. split; [exact He | rewrite Hm; apply Z.le_refl].
      * right. split; [exact He|]. apply Pos2Z.pos_lt_pos in Hm. lia.
    + intros _. now left.
Qed.

(** [x >= 50] excludes [x < 50]. *)
Lemma SFleb_not_SFltb (x y : spec_float) : SFleb x y = true -> SFltb y x = false.
Proof.
  unfold SFleb, SFltb, SFcompare.
  destruct x as [sx|sx| |sx mx ex], y as [sy|sy| |sy my ey];
    try (destruct sx); try (destruct sy); try reflexivity; try discriminate.
  - rewrite (Z.compare_antisym ex ey). destruct (ex ?= ey); simpl; try reflexivity; try discriminate.
    change (Pos.compare_cont Eq mx my) with (Pos.compare mx my).
    change (Pos.compare_cont Eq my mx) with (Pos.compare my mx).
    rewrite (Pos.compare_antisym mx my). destruct (mx ?= my)%positive; simpl;
      try reflexivity; discriminate.
  - rewrite (Z.compare_antisym ex ey). destruct (ex ?= ey); simpl; try reflexivity; try discriminate.
    change (Pos.compare_cont Eq mx my) with (Pos.compare mx my).
    change (Pos.compare_cont Eq my mx) with (Pos.compare my mx).
    rewrite (Pos.compare_antisym mx my). destruct (mx ?= my)%positive; simpl;
      try reflexivity; discriminate.
Qed.

(** The number of an integer of at most 53 bits is exact. *)
Lemma Prim2SF_ofZ (s : bool) (c : positive) :
  Z.pos c < 2 ^ 53 ->
  exists mz ez,
    Prim2SF (ofZ (cond_Zopp s (Z.pos c))) = S754_finite s mz ez
    /\ ez <= 0
    /\ Z.pos mz = Z.pos c * 2 ^ (- ez).
Proof.
  intros Hc.
  assert (Hd : Z.pos (digits2_pos c) <= 53).
  { change (Z.pos (digits2_pos c)) with (Zdigits2 (Z.pos c)). apply Zdigits2_le; lia. }
  pose proof (Pos2Z.is_pos (digits2_pos c)) as Hd0.
  destruct (binary_round_exact s c 0) as (mz & Hround & Hmz & Hdz);
    try (rewrite fexp64_eq; lia).
  set (ez := fexp64 (Z.pos (digits2_pos c) + 0)) in *.
  assert (Hez : -1074 <= ez <= 0) by (unfold ez; rewrite fexp64_eq; lia).
  exists mz, ez. unfold ofZ.
  replace (binary_normalize prec emax (cond_Zopp s (Z.pos c)) 0 false)
    with (S754_finite s mz ez) by (destruct s; symmetry; exact Hround).
  rewrite Prim2SF_SF2Prim.
  - repeat split; [lia | rewrite Hmz; f_equal; f_equal; lia].
  - unfold SpecFloat.valid_binary, bounded, canonical_mantissa.
    rewrite Hdz. fold ez. rewrite Z.eqb_refl. simpl.
    apply Z.leb_le. change (emax - prec) with 971. lia.
Qed.

(** [ToIndex] of a finite number that is not negative and whose integer part
    has at most 53 bits. *)
Lemma ToIndex_finite (x : float) (m : positive) (e : Z) (n : Z) :
  Prim2SF x = S754_finite false m e ->
  (if 0 <=? e then Z.shiftl (Z.pos m) e else Z.shiftr (Z.pos m) (- e)) = n ->
  0 <= n < 2 ^ 53 ->
  ToIndex x = Some n.
Proof.
  intros Hx Hn Hb. unfold ToIndex, truncate. rewrite Hx. simpl cond_Zopp. rewrite Hn.
  replace ((0 <=? n) && (n <=? 2 ^ 53 - 1)) with true; [reflexivity|].
  symmetry. apply andb_true_intro. split; apply Z.leb_le; lia.
Qed.

(** The ceiling of a number between 0 and 2^45 is a valid array length. *)
Lemma ToIndex_ceil (x : float) :
  below 45 (Prim2SF x) -> exists n, 0 <= n /\ ToIndex (Math_ceil x) = Some n.
Proof.
  intros Hx. unfold Math_ceil, Math_floor. rewrite opp_spec.
  destruct Hx as [Hz|(m & e & Hf & Hmag)].
  - exists 0. split; [lia|]. rewrite Hz. simpl SFopp. cbv iota.
    unfold ToIndex, truncate. rewrite !opp_spec, Hz. reflexivity.
  - rewrite Hf. simpl SFopp. cbv iota.
    pose proof (digits_pos_lt _ _ _ Hmag) as Bm.
    destruct (Z.leb_spec 0 e) as [Hpos|Hneg].
    + exists (Z.pos m * 2 ^ e).
      pose proof (pow2_pos e Hpos) as Hp.
      assert (Hb : Z.pos m * 2 ^ e < 2 ^ 45).
      { replace 45 with ((45 - e) + e) at 1 by lia.
        assert (0 <= 45 - e).
        { destruct (Z_le_gt_dec 0 (45 - e)); [assumption|].
          rewrite Z.pow_neg_r in Bm by lia. lia. }
        rewrite Z.pow_add_r by lia. nia. }
      split; [lia|].
      apply (ToIndex_finite _ m e).
      * rewrite opp_spec, opp_spec, Hf. reflexivity.
      * replace (0 <=? e) with true by (symmetry; apply Z.leb_le; exact Hpos).
        apply Z.shiftl_mul_pow2. exact Hpos.
      * lia.
    + simpl cond_Zopp. rewrite Z.shiftr_div_pow2 by lia.
      pose proof (pow2_pos (- e) ltac:(lia)) as Hp.
      set (c := - (Z.neg m / 2 ^ (- e))).
      assert (Hc : 1 <= c <= 2 ^ 45).
      { unfold c.
        assert (Z.neg m / 2 ^ (- e) < 0) by (apply Z.div_lt_upper_bound; lia).
        assert (- 2 ^ 45 <= Z.neg m / 2 ^ (- e)); [|lia].
        apply Z.div_le_lower_bound; [lia|].
        destruct (Z_le_gt_dec 0 (45 - e)) as [H45|H45];
          [|rewrite Z.pow_neg_r in Bm by lia; lia].
        replace (45 - e) with (45 + - e) in Bm by lia.
        rewrite Z.pow_add_r in Bm by lia. lia. }
      replace (Z.neg m / 2 ^ (- e)) with (cond_Zopp true (Z.pos (Z.to_pos c))).
      2:{ unfold cond_Zopp. rewrite Z2Pos.id by lia. unfold c. lia. }
      destruct (Prim2SF_ofZ true (Z.to_pos c)) as (mz & ez & Hof & Hez & Hmz).
      { rewrite Z2Pos.id by lia. lia. }
      rewrite Z2Pos.id in Hmz by lia.
      exists c. split; [lia|].
      apply (ToIndex_finite _ mz ez).
      * rewrite opp_spec, Hof. reflexivity.
      * pose proof (pow2_pos (- ez) ltac:(lia)).
        destruct (Z.leb_spec 0 ez).
        -- assert (ez = 0) by lia. subst ez. rewrite Z.shiftl_mul_pow2 by lia.
           rewrite Hmz. simpl. lia.
        -- rewrite Z.shiftr_div_pow2 by lia. rewrite Hmz. apply Z.div_mul. lia.
      * lia.
Qed.

Lemma Prim2SF_pow40 : Prim2SF 0x1p+40%float = S754_finite false 4503599627370496 (-12).
Proof. vm_compute. reflexivity. Qed.

(** Every sigma that is positive and at most 2^40 gives a kernel size that is
    a valid array length. *)
Lemma kernel_size_defined (sigma : float) :
  (0 <? sigma)%float = true -> (sigma <=? 0x1p+40)%float = true ->
  exists n, 0 <= n /\ ToIndex (Math_ceil (6 * sigma)) = Some n.
Proof.
  intros Hpos Hmax. apply ToIndex_ceil. rewrite mul_spec.
  apply (SF64mul_below 3 41); [| | lia].
  - apply (below_const _ 6755399441055744 (-50)); vm_compute; reflexivity.
  - rewrite ltb_spec in Hpos. rewrite leb_spec, Prim2SF_pow40 in Hmax.
    replace (Prim2SF 0) with (S754_zero false) in Hpos by (vm_compute; reflexivity).
    pose proof (Prim2SF_valid sigma) as Hv.
    destruct (Prim2SF sigma) as [s|s| |s m e].
    + discriminate Hpos.
    + destruct s; [discriminate Hpos | discriminate Hmax].
    + discriminate Hpos.
    + destruct s; [discriminate Hpos|].
      destruct (valid_finite _ _ _ Hv) as [Hc _]. rewrite fexp64_eq in Hc.
      apply SFleb_finite in Hmax. right. exists m, e. split; [reflexivity|]. lia.
Qed.

(** ** Stores into byte arrays *)

Lemma ToUint8_range (x : float) : 0 <= ToUint8 x <= 255.
Proof.
  unfold ToUint8. destruct (truncate x); [| lia].
  pose proof (Z.mod_pos_bound z 256). lia.
Qed.

(** The grayscale field has one byte per pixel. *)
Lemma rgbToGrayscale_bytes (imageData : ImageData) :
  List.length (rgbToGrayscale imageData)
  = Z.to_nat (width imageData * height imageData)
  /\ Forall (fun v => 0 <= v <= 255) (rgbToGrayscale imageData).
Proof.
  unfold rgbToGrayscale. cbv zeta. split.
  - now rewrite length_map, range_length.
  - apply Forall_map, Forall_forall. intros k _.
    destruct (4 * k <? _); [apply ToUint8_range | lia].
Qed.

Lemma ToUint8Clamp_range (x : float) : 0 <= ToUint8Clamp x <= 255.
Proof.
  unfold ToUint8Clamp.
  destruct (Prim2SF x) as [s|s| |s m e]; try lia.
  - destruct s; lia.
  - destruct s; [lia|].
    destruct (0 <=? e) eqn:He.
    + pose proof (Z.shiftl_nonneg (Z.pos m) e). lia.
    + cbv zeta.
      pose proof (proj2 (Z.shiftr_nonneg (Z.pos m) (- e)) ltac:(lia)).
      destruct (2 * _ ?= 2 ^ (- e)); [destruct (Z.even _) | |]; lia.
Qed.

(** A value that is not above zero is stored as 0. *)
Lemma ToUint8Clamp_low (x : float) : (x <=? 0)%float = true -> ToUint8Clamp x = 0.
Proof.
  rewrite leb_spec. unfold ToUint8Clamp.
  destruct (Prim2SF x) as [s|s| |s m e]; try reflexivity.
  - destruct s; [reflexivity | discriminate].
  - destruct s; [reflexivity | discriminate].
Qed.

Lemma Prim2SF_255 : Prim2SF 255 = S754_finite false 8972014882652160 (-45).
Proof. vm_compute. reflexivity. Qed.

(** A value of 255 or more is stored as 255. *)
Lemma ToUint8Clamp_high (x : float) : (255 <=? x)%float = true -> ToUint8Clamp x = 255.
Proof.
  rewrite leb_spec, Prim2SF_255. unfold ToUint8Clamp.
  pose proof (Prim2SF_valid x) as Hv.
  destruct (Prim2SF x) as [s|s| |s m e]; try discriminate.
  - destruct s; [discriminate | reflexivity].
  - intros H. apply SFleb_finite in H. destruct s; [contradiction|].
    destruct (valid_finite _ _ _ Hv) as [Hc _]. rewrite fexp64_eq in Hc. clear Hv.
    pose proof (Pos2Z.is_pos (digits2_pos m)) as Hd.
    assert (Hm : -45 < e -> 2 ^ 52 <= Z.pos m).
    { intros He. assert (Hd53 : Z.pos (digits2_pos m) = 53) by lia.
      pose proof (digits2_pos_bounds m) as [Hlo _]. rewrite Hd53 in Hlo. exact Hlo. }
    destruct (Z.leb_spec 0 e) as [Hpos|Hneg].
    + rewrite Z.shiftl_mul_pow2 by lia. pose proof (pow2_pos e Hpos).
      specialize (Hm ltac:(lia)). apply Z.min_l. nia.
    + cbv zeta. rewrite Z.shiftr_div_pow2 by lia.
      pose proof (pow2_pos (- e) ltac:(lia)) as Hp.
      assert (Hf : 255 <= Z.pos m / 2 ^ (- e)).
      { apply Z.div_le_lower_bound; [lia|].
        destruct H as [He|[He Hm255]].
        - specialize (Hm He).
          assert (2 ^ (- e) <= 2 ^ 44) by (apply Z.pow_le_mono_r; lia). lia.
        - rewrite <- He. simpl. lia. }
      apply Z.min_l.
      destruct (2 * _ ?= 2 ^ (- e)); [destruct (Z.even _) | |]; lia.
Qed.

(** ** Scenario A: a black image of 16 by 16 pixels *)

(** C1, as the code has it: with a block size of 8 the image has two rows of
    two blocks, so the text is two rows of two spaces, each ended by a
    newline (character 10); on every host, and whatever the alpha channel of
    the black pixels. *)
Theorem scenarioA_two_by_two (host : Host) (a : Z) :
  option_map list_ascii_of_string
    (textOf (generatePass host scenarioSettings (uniformImage 16 16 0 0 0 a)))
  = Some [" "; " "; "010"; " "; " "; "010"]%char.
Proof. vm_compute. reflexivity. Qed.

(** C1, as the specification states it, fails: the text is not two rows of
    eight spaces. *)
Lemma scenarioA_not_eight_columns :
  option_map list_ascii_of_string
    (textOf (generatePass Reference.host scenarioSettings black16))
  <> Some [" "; " "; " "; " "; " "; " "; " "; " "; "010";
           " "; " "; " "; " "; " "; " "; " "; " "; "010"]%char.
Proof. vm_compute. discriminate. Qed.

(** ** Determinism *)

(** C2: a run of [generate] on the same image with the same settings ends
    the same way from any two states of the component: the same text, the same
    glyphs with the same colours, the same canvas; it throws in one exactly
    when it does in the other.  In particular a second run that
    starts from the state the first one left repeats its result. *)
Theorem generate_deterministic (host : Host) (settings : Settings)
    (originalImage : ImageData) (st1 st2 : State) :
  generate host settings originalImage st1 = generate host settings originalImage st2
  /\ match generate host settings originalImage st1 with
     | Done st' => generate host settings originalImage st' = Done st'
     | _ => True
     end.
Proof.
  split; [reflexivity|].
  destruct (generate host settings originalImage st1) as [st'|] eqn:H; [|exact I].
  rewrite <- H. reflexivity.
Qed.

(** ** The histogram equalizer *)

Lemma autoBrightnessContrast_data (imageData : ImageData) :
  data (autoBrightnessContrast imageData)
  = map (fun v => ToUint8Clamp (ofZ v * fst (stretch imageData)
                                + snd (stretch imageData))%float)
        (data imageData).
Proof.
  unfold autoBrightnessContrast. destruct (stretch imageData) as [alpha beta]. reflexivity.
Qed.

Lemma autoBrightnessContrast_size (imageData : ImageData) :
  width (autoBrightnessContrast imageData) = width imageData
  /\ height (autoBrightnessContrast imageData) = height imageData.
Proof.
  unfold autoBrightnessContrast. destruct (stretch imageData) as [alpha beta].
  split; reflexivity.
Qed.

(** C4: the transform [in * alpha + beta], with the one [alpha] and [beta]
    computed from the histogram, is applied to every element of the buffer,
    whatever its channel, and stored into the clamped byte array: the output
    has the dimensions and the length of the input; every output byte is the
    stored transform of the input byte at the same index; the store clamps (a
    value that is not above 0 gives 0, a value of 255 or more gives 255, every
    byte is in [0, 255]); and this holds at the indices [4 k + 3] of the alpha
    channel.  The alpha channel does change: an alpha of 128 becomes 129 in
    [translucentPair]. *)
Theorem autoBrightnessContrast_all_channels (imageData : ImageData) :
  let alpha := fst (stretch imageData) in
  let beta := snd (stretch imageData) in
  let out := autoBrightnessContrast imageData in
  width out = width imageData
  /\ height out = height imageData
  /\ List.length (data out) = List.length (data imageData)
  /\ (forall (i : nat) (v : Z),
        nth_error (data imageData) i = Some v ->
        let x := (ofZ v * alpha + beta)%float in
        nth_error (data out) i = Some (ToUint8Clamp x)
        /\ 0 <= ToUint8Clamp x <= 255
        /\ ((x <=? 0)%float = true -> ToUint8Clamp x = 0)
        /\ ((255 <=? x)%float = true -> ToUint8Clamp x = 255))
  /\ (forall (k : nat) (v : Z),
        nth_error (data imageData) (4 * k + 3) = Some v ->
        nth_error (data out) (4 * k + 3)
        = Some (ToUint8Clamp (ofZ v * alpha + beta)%float))
  /\ nth_error (data translucentPair) 3 = Some 128
  /\ nth_error (data (autoBrightnessContrast translucentPair)) 3 = Some 129.
Proof.
  cbv zeta.
  assert (Hall : forall (i : nat) (v : Z),
             nth_error (data imageData) i = Some v ->
             nth_error (data (autoBrightnessContrast imageData)) i
             = Some (ToUint8Clamp (ofZ v * fst (stretch imageData)
                                   + snd (stretch imageData))%float)).
  { intros i v H. rewrite autoBrightnessContrast_data, nth_error_map, H. reflexivity. }
  destruct (autoBrightnessContrast_size imageData) as [Hw Hh].
  split; [exact Hw|]. split; [exact Hh|].
  split; [now rewrite autoBrightnessContrast_data, length_map|].
  split; [|split; [|split; reflexivity]].
  - intros i v H. split; [now apply Hall|].
    split; [apply ToUint8Clamp_range|].
    split; [apply ToUint8Clamp_low | apply ToUint8Clamp_high].
  - intros k v. apply Hall.
Qed.

(** ** The degenerate histogram *)

Lemma scanUp_lower (clip : float) (rest : list Z) (start : Z) :
  start <= scanUp clip rest start.
Proof.
  revert start. induction rest as [|a rest IH]; intros start; simpl; [lia|].
  destruct (ofZ a <? clip)%float; [|lia].
  specialize (IH (start + 1)). lia.
Qed.

Lemma scanDown_upper (bound : float) (rest : list Z) (start : Z) :
  scanDown bound rest start <= start.
Proof.
  revert start. induction rest as [|a rest IH]; intros start; simpl; [lia|].
  destruct (bound <=? ofZ a)%float; [|lia].
  specialize (IH (start - 1)). lia.
Qed.

Lemma grayBounds_range (imageData : ImageData) :
  0 <= fst (grayBounds imageData) /\ snd (grayBounds imageData) <= 255.
Proof.
  unfold grayBounds. cbv zeta. simpl fst. simpl snd.
  split; [apply scanUp_lower | apply scanDown_upper].
Qed.

(** With a zero difference of the bounds the stretch factor is infinite, and
    every byte is stored as 0, whatever the common bound. *)
Lemma degenerate_stretch (m v : Z) :
  0 <= m <= 255 -> 0 <= v <= 255 ->
  (255 / ofZ (m - m))%float = infinity
  /\ ToUint8Clamp (ofZ v * (255 / ofZ (m - m)) + - ofZ m * (255 / ofZ (m - m)))%float = 0.
Proof.
  intros Hm Hv. rewrite Z.sub_diag.
  split; [vm_compute; reflexivity|].
  assert (H : forallb
                (fun m => forallb
                   (fun v => ToUint8Clamp (ofZ v * (255 / ofZ 0)
                                           + - ofZ m * (255 / ofZ 0))%float =? 0)
                   (range 256))
                (range 256) = true) by (vm_compute; reflexivity).
  rewrite forallb_forall in H.
  specialize (H m (proj2 (range_In 256 m) ltac:(lia))).
  rewrite forallb_forall in H.
  apply Z.eqb_eq, H, range_In. lia.
Qed.

(** C3, as the code has it: the equalizer has no guard for coinciding bounds.
    When [maxGray = minGray] it neither fails nor clamps: [alpha] is
    [255 / 0], that is +infinity, and every byte of the output, the alpha
    channel included, is 0. *)
Theorem autoBrightnessContrast_degenerate (imageData : ImageData) :
  wellFormed imageData = true ->
  fst (grayBounds imageData) = snd (grayBounds imageData) ->
  fst (stretch imageData) = infinity
  /\ data (autoBrightnessContrast imageData)
     = repeat 0 (List.length (data imageData)).
Proof.
  intros Hwf Heq.
  pose proof (grayBounds_range imageData) as [Hlo Hhi].
  assert (Hs : stretch imageData
               = (255 / ofZ (fst (grayBounds imageData) - fst (grayBounds imageData)),
                  - ofZ (fst (grayBounds imageData))
                  * (255 / ofZ (fst (grayBounds imageData) - fst (grayBounds imageData))))%float).
  { unfold stretch. destruct (grayBounds imageData) as [lo hi]. simpl in *. now subst hi. }
  assert (Hm : 0 <= fst (grayBounds imageData) <= 255) by lia.
  split.
  - rewrite Hs. simpl fst. apply (degenerate_stretch _ 0 Hm). lia.
  - rewrite autoBrightnessContrast_data, Hs. simpl fst. simpl snd.
    unfold wellFormed in Hwf. apply andb_prop in Hwf. destruct Hwf as [_ Hbytes].
    rewrite forallb_forall in Hbytes.
    induction (data imageData) as [|v l IH]; [reflexivity|].
    simpl. f_equal.
    + apply degenerate_stretch; [exact Hm|].
      specialize (Hbytes v (or_introl eq_refl)). lia.
    + apply IH. intros x Hx. apply Hbytes. now right.
Qed.

Lemma autoBrightnessContrast_degenerate_witness :
  fst (stretch nearBlackPair) = infinity
  /\ data (autoBrightnessContrast nearBlackPair) = [0; 0; 0; 0; 0; 0; 0; 0].
Proof.
  apply (autoBrightnessContrast_degenerate nearBlackPair).
  - vm_compute. reflexivity.
  - vm_compute. reflexivity.
Defined.

(** C3, as the specification states it, fails on two pixels of luminance 0
    and 1: the bounds coincide, the run with auto adjustment ends normally,
    [alpha] is infinite and [beta] is NaN. *)
Lemma autoBrightnessContrast_unguarded :
  grayBounds nearBlackPair = (0, 0)
  /\ fst (stretch nearBlackPair) = infinity
  /\ is_nan (snd (stretch nearBlackPair)) = true
  /\ option_map list_ascii_of_string
       (textOf (generatePass Reference.host autoAdjustSettings nearBlackPair))
     = Some [" "; "010"]%char.
Proof. vm_compute. repeat split; reflexivity. Qed.

(** ** Difference of Gaussians *)

Lemma applyGaussianBlur_length (host : Host) (imageData : ImageData) (sigma : float)
    (blur : list Z) :
  applyGaussianBlur host imageData sigma = Some blur ->
  List.length blur = (Z.to_nat (height imageData) * Z.to_nat (width imageData))%nat.
Proof.
  unfold applyGaussianBlur. destruct (gaussianKernel host sigma); [|discriminate].
  intros [= <-]. now rewrite flat_map_rows_length, !range_length.
Qed.

(** The blur produces a field exactly when the kernel array can be
    created. *)
Lemma applyGaussianBlur_defined (host : Host) (imageData : ImageData) (sigma : float) :
  match newFloat32Array host (Math_ceil (6 * sigma)) with
  | Some _ => exists blur, applyGaussianBlur host imageData sigma = Some blur
  | None => applyGaussianBlur host imageData sigma = None
  end.
Proof.
  unfold applyGaussianBlur, gaussianKernel.
  destruct (newFloat32Array host (Math_ceil (6 * sigma))); eauto.
Qed.

Lemma dogSample_clamped (blur1 blur2 : list Z) (i b1 b2 : Z) :
  nth_error blur1 (Z.to_nat i) = Some b1 ->
  nth_error blur2 (Z.to_nat i) = Some b2 ->
  dogSample blur1 blur2 i = Z.max 0 (Z.min 255 (b1 - b2 + 128)).
Proof.
  intros H1 H2. unfold dogSample. rewrite H1, H2. cbv zeta.
  apply Z.mod_small. lia.
Qed.

(** The samples of a field that [differenceOfGaussians] returns. *)
Lemma differenceOfGaussians_field (host : Host) (settings : Settings)
    (imageData : ImageData) (dog : list Z) :
  0 <= width imageData -> 0 <= height imageData ->
  differenceOfGaussians host settings imageData = Some dog ->
  exists blur1 blur2,
    applyGaussianBlur host imageData (sigma1 settings) = Some blur1
    /\ applyGaussianBlur host imageData (sigma2 settings) = Some blur2
    /\ Z.of_nat (List.length dog) = width imageData * height imageData
    /\ forall i, 0 <= i < width imageData * height imageData ->
         exists b1 b2 d,
           nth_error blur1 (Z.to_nat i) = Some b1
           /\ nth_error blur2 (Z.to_nat i) = Some b2
           /\ nth_error dog (Z.to_nat i) = Some d
           /\ d = Z.max 0 (Z.min 255 (b1 - b2 + 128))
           /\ 0 <= d <= 255.
Proof.
  intros Hw Hh. unfold differenceOfGaussians.
  destruct (applyGaussianBlur host imageData (sigma1 settings)) as [blur1|] eqn:Hb1;
    [|discriminate].
  destruct (applyGaussianBlur host imageData (sigma2 settings)) as [blur2|] eqn:Hb2;
    [|discriminate].
  intros [= <-]. exists blur1, blur2.
  split; [reflexivity|]. split; [reflexivity|]. split.
  - rewrite length_map, range_length. lia.
  - intros i Hi.
    pose proof (applyGaussianBlur_length _ _ _ _ Hb1) as L1.
    pose proof (applyGaussianBlur_length _ _ _ _ Hb2) as L2.
    destruct (nth_error blur1 (Z.to_nat i)) as [b1|] eqn:E1.
    2:{ apply nth_error_None in E1. nia. }
    destruct (nth_error blur2 (Z.to_nat i)) as [b2|] eqn:E2.
    2:{ apply nth_error_None in E2. nia. }
    exists b1, b2, (Z.max 0 (Z.min 255 (b1 - b2 + 128))).
    repeat split; try lia.
    rewrite nth_error_map, range_nth_error by lia. simpl.
    rewrite Z2Nat.id by lia.
    f_equal. now apply dogSample_clamped.
Qed.

(** The field exists exactly when both kernel arrays can be created: two
    lengths that are valid and that the engine can allocate. *)
Lemma differenceOfGaussians_defined (host : Host) (settings : Settings)
    (imageData : ImageData) (n1 n2 : Z) :
  ToIndex (Math_ceil (6 * sigma1 settings)) = Some n1 ->
  ToIndex (Math_ceil (6 * sigma2 settings)) = Some n2 ->
  if allocates host n1 && allocates host n2
  then exists dog, differenceOfGaussians host settings imageData = Some dog
  else differenceOfGaussians host settings imageData = None.
Proof.
  intros H1 H2.
  pose proof (applyGaussianBlur_defined host imageData (sigma1 settings)) as D1.
  pose proof (applyGaussianBlur_defined host imageData (sigma2 settings)) as D2.
  unfold newFloat32Array in D1, D2. rewrite H1 in D1. rewrite H2 in D2.
  unfold differenceOfGaussians.
  destruct (allocates host n1).
  - destruct D1 as [blur1 ->]. destruct (allocates host n2).
    + destruct D2 as [blur2 ->]. simpl. eauto.
    + rewrite D2. reflexivity.
  - rewrite D1. reflexivity.
Qed.

(** C6: every sample of a difference-of-Gaussians field is the value blurred
    with [sigma1] minus the value blurred with [sigma2], plus 128, clamped to
    [0, 255], so it lies in [0, 255]; the field has one sample per pixel.  For
    every pair of positive sigmas up to 2^40 the two kernel lengths are valid,
    and the field exists exactly when the engine can allocate the two kernel
    arrays; when it cannot, [differenceOfGaussians] throws. *)
Theorem differenceOfGaussians_samples (host : Host) (settings : Settings)
    (imageData : ImageData) :
  0 <= width imageData -> 0 <= height imageData ->
  (forall dog,
     differenceOfGaussians host settings imageData = Some dog ->
     exists blur1 blur2,
       applyGaussianBlur host imageData (sigma1 settings) = Some blur1
       /\ applyGaussianBlur host imageData (sigma2 settings) = Some blur2
       /\ Z.of_nat (List.length dog) = width imageData * height imageData
       /\ forall i, 0 <= i < width imageData * height imageData ->
            exists b1 b2 d,
              nth_error blur1 (Z.to_nat i) = Some b1
              /\ nth_error blur2 (Z.to_nat i) = Some b2
              /\ nth_error dog (Z.to_nat i) = Some d
              /\ d = Z.max 0 (Z.min 255 (b1 - b2 + 128))
              /\ 0 <= d <= 255)
  /\ ((0 <? sigma1 settings)%float = true ->
      (sigma1 settings <=? 0x1p+40)%float = true ->
      (0 <? sigma2 settings)%float = true ->
      (sigma2 settings <=? 0x1p+40)%float = true ->
      exists n1 n2,
        ToIndex (Math_ceil (6 * sigma1 settings)) = Some n1
        /\ ToIndex (Math_ceil (6 * sigma2 settings)) = Some n2
        /\ if allocates host n1 && allocates host n2
           then exists dog, differenceOfGaussians host settings imageData = Some dog
           else differenceOfGaussians host settings imageData = None).
Proof.
  intros Hw Hh. split.
  - intros dog. now apply differenceOfGaussians_field.
  - intros P1 M1 P2 M2.
    destruct (kernel_size_defined _ P1 M1) as (n1 & _ & H1).
    destruct (kernel_size_defined _ P2 M2) as (n2 & _ & H2).
    exists n1, n2. split; [exact H1|]. split; [exact H2|].
    exact (differenceOfGaussians_defined host settings imageData n1 n2 H1 H2).
Qed.

Lemma differenceOfGaussians_samples_witness :
  exists dog,
    differenceOfGaussians Reference.host defaultSettings (uniformImage 4 3 200 100 50 255)
    = Some dog
    /\ Z.of_nat (List.length dog) = 4 * 3.
Proof.
  destruct (differenceOfGaussians_samples Reference.host defaultSettings
              (uniformImage 4 3 200 100 50 255)) as [Hfield Hdef].
  - simpl. lia.
  - simpl. lia.
  - destruct Hdef as (n1 & n2 & H1 & H2 & Hdog); try reflexivity.
    vm_compute in H1. injection H1 as <-.
    vm_compute in H2. injection H2 as <-.
    change (allocates Reference.host 3 && allocates Reference.host 6) with true in Hdog.
    destruct Hdog as [dog Hdog].
    exists dog. split; [exact Hdog|].
    destruct (Hfield dog Hdog) as (_ & _ & _ & _ & Hlen & _). exact Hlen.
Defined.

(** ** The pixel count of a block *)

Section BlockCount.

Variable settings : Settings.
Variable imageData : ImageData.
Variable edgeData : option EdgeData.
Hypothesis imageData_wf : wellFormed imageData = true.

Lemma wellFormed_length :
  0 <= width imageData /\ 0 <= height imageData /\
  Z.of_nat (List.length (data imageData)) = width imageData * height imageData * 4.
Proof.
  unfold wellFormed in imageData_wf.
  repeat (apply andb_prop in imageData_wf; destruct imageData_wf as [imageData_wf ?]).
  lia.
Qed.

(** A pixel inside the image is not skipped: it is counted. *)
Lemma blockStep_counts (x y dy dx : Z) (info : BlockInfo) :
  0 <= x + dx < width imageData -> 0 <= y + dy < height imageData ->
  pixelCount (blockStep settings imageData x y edgeData dy dx info)
  = pixelCount info + 1.
Proof.
  intros Hx Hy. destruct wellFormed_length as (Hw & Hh & Hlen).
  unfold blockStep. cbv zeta.
  replace (_ || _ || _) with false.
  - destruct (sumColor info) as [[sr sg] sb]. reflexivity.
  - symmetry. rewrite !orb_false_iff. repeat split.
    + lia.
    + lia.
    + apply Z.leb_gt. rewrite Hlen. nia.
Qed.

(** A loop whose every iteration adds [c] to the count adds [c] times the
    number of iterations. *)
Lemma fold_count (f : BlockInfo -> Z -> BlockInfo) (c : Z) (l : list Z) :
  (forall info d, In d l -> pixelCount (f info d) = pixelCount info + c) ->
  forall info,
    pixelCount (fold_left f l info) = pixelCount info + c * Z.of_nat (List.length l).
Proof.
  induction l as [|d l IH]; intros Hf info; simpl fold_left.
  - simpl. lia.
  - rewrite IH by (intros; apply Hf; now right).
    rewrite Hf by now left. simpl List.length. lia.
Qed.

Lemma calculateBlockInfo_count (x y : Z) :
  0 < blockSize settings ->
  0 <= x < width imageData -> 0 <= y < height imageData ->
  pixelCount (calculateBlockInfo settings imageData x y edgeData)
  = Z.min (blockSize settings) (width imageData - x)
    * Z.min (blockSize settings) (height imageData - y).
Proof.
  intros Hb Hx Hy. unfold calculateBlockInfo.
  rewrite fold_count with (c := Z.min (blockSize settings) (width imageData - x)).
  - rewrite range_length. simpl pixelCount. lia.
  - intros info dy Hdy. apply range_In in Hdy.
    rewrite fold_count with (c := 1).
    + rewrite range_length. lia.
    + intros info' dx Hdx. apply range_In in Hdx.
      apply blockStep_counts; lia.
Qed.

End BlockCount.

(** C7: for a well-formed buffer, a positive block size and a block origin
    inside the image, the pixel count of the block is
    [min(blockSize, W - x) * min(blockSize, H - y)]; a block that lies fully
    inside the image counts [blockSize * blockSize] pixels. *)
Theorem blockInfo_pixelCount (settings : Settings) (imageData : ImageData)
    (edgeData : option EdgeData) (x y : Z) :
  wellFormed imageData = true ->
  0 < blockSize settings ->
  0 <= x < width imageData -> 0 <= y < height imageData ->
  let count := pixelCount (calculateBlockInfo settings imageData x y edgeData) in
  count = Z.min (blockSize settings) (width imageData - x)
          * Z.min (blockSize settings) (height imageData - y)
  /\ (x + blockSize settings <= width imageData ->
      y + blockSize settings <= height imageData ->
      count = blockSize settings * blockSize settings).
Proof.
  intros Hwf Hb Hx Hy count. subst count.
  rewrite calculateBlockInfo_count by assumption.
  split; [reflexivity|]. intros Hx' Hy'.
  rewrite !Z.min_l by lia. reflexivity.
Qed.

(** A truncated block of a 20 by 12 image: the block at (16, 8) of size 8
    has 4 * 4 pixels. *)
Lemma blockInfo_pixelCount_witness :
  pixelCount (calculateBlockInfo scenarioSettings (uniformImage 20 12 9 9 9 255) 16 8 None)
  = 4 * 4.
Proof.
  destruct (blockInfo_pixelCount scenarioSettings (uniformImage 20 12 9 9 9 255)
              None 16 8) as [H _].
  - vm_compute. reflexivity.
  - reflexivity.
  - simpl. lia.
  - simpl. lia.
  - exact H.
Defined.

(** ** The glyph selector *)

(** The index of the last glyph, for every ramp of at most 256 glyphs. *)
Lemma ramp_index_255 (n : Z) :
  1 <= n <= 256 ->
  arrayIndex (Math_min (Math_floor (255 * ofZ n / 256)) (ofZ n - 1))%float = Some (n - 1).
Proof.
  intros Hn.
  assert (H : forallb
                (fun n => match arrayIndex (Math_min (Math_floor (255 * ofZ n / 256))
                                              (ofZ n - 1))%float with
                          | Some k => k =? n - 1
                          | None => false
                          end)
                (map (Z.add 1) (range 256)) = true) by (vm_compute; reflexivity).
  rewrite forallb_forall in H. specialize (H n).
  destruct (arrayIndex _) as [k|].
  - f_equal. apply Z.eqb_eq, H. apply in_map_iff. exists (n - 1). split; [lia|].
    apply range_In. lia.
  - discriminate H. apply in_map_iff. exists (n - 1). split; [lia|].
    apply range_In. lia.
Qed.

Lemma selectAsciiChar_no_override (settings : Settings) (blockInfo : BlockInfo) :
  edgeOverride settings blockInfo = false ->
  selectAsciiChar settings blockInfo
  = rampChar settings (clampedBrightness settings blockInfo).
Proof.
  unfold edgeOverride, selectAsciiChar. cbv zeta.
  destruct (detectEdges settings); simpl; [|reflexivity].
  intros ->. reflexivity.
Qed.

Lemma string_get_last (s : string) :
  s <> EmptyString ->
  exists c, String.get (String.length s - 1) s = Some c.
Proof.
  induction s as [|a s IH]; intros Hs; [congruence|].
  destruct s as [|b s].
  - exists a. reflexivity.
  - destruct IH as [c Hc]; [discriminate|]. exists c.
    simpl String.length in *. simpl Nat.sub in *.
    rewrite Nat.sub_0_r in Hc. exact Hc.
Qed.

(** C8, as the code has it: without an edge override, a clamped brightness
    of 0 gives the space; an average brightness of 255 with multiplier 1.0
    gives the last glyph of the ramp when the ramp has between 1 and 256
    glyphs. *)
Theorem selectAsciiChar_extremes (settings : Settings) (blockInfo : BlockInfo) :
  edgeOverride settings blockInfo = false ->
  ((clampedBrightness settings blockInfo =? 0)%float = true ->
   selectAsciiChar settings blockInfo = JString " ")
  /\ (avgBrightness blockInfo = 255%float ->
      brightness settings = 1%float ->
      (1 <= String.length (asciiChars settings) <= 256)%nat ->
      selectAsciiChar settings blockInfo = lastChar (asciiChars settings)
      /\ exists c, lastChar (asciiChars settings) = JString (String c EmptyString)).
Proof.
  intros Hno. rewrite (selectAsciiChar_no_override _ _ Hno). split.
  - intros H0. unfold rampChar. rewrite H0. reflexivity.
  - intros Havg Hb Hlen.
    assert (Hc : clampedBrightness settings blockInfo = 255%float).
    { unfold clampedBrightness. rewrite Havg, Hb. vm_compute. reflexivity. }
    rewrite Hc. unfold rampChar, lastChar.
    replace (255 =? 0)%float with false by (vm_compute; reflexivity).
    cbv zeta. unfold charAt.
    rewrite ramp_index_255 by lia.
    replace (Z.to_nat (Z.of_nat (String.length (asciiChars settings)) - 1))
      with (String.length (asciiChars settings) - 1)%nat by lia.
    split; [reflexivity|].
    destruct (string_get_last (asciiChars settings)) as [c Hget].
    + destruct (asciiChars settings); [simpl in Hlen; lia | discriminate].
    + rewrite Hget. eauto.
Qed.

Lemma selectAsciiChar_extremes_witness :
  selectAsciiChar scenarioSettings blackBlock = JString " "
  /\ selectAsciiChar scenarioSettings whiteBlock = JString "@".
Proof.
  split.
  - apply (selectAsciiChar_extremes scenarioSettings blackBlock); reflexivity.
  - destruct (selectAsciiChar_extremes scenarioSettings whiteBlock) as [_ H].
    + reflexivity.
    + destruct H as [H _].
      * vm_compute. reflexivity.
      * reflexivity.
      * simpl. lia.
      * exact H.
Defined.

(** C8, as the specification states it, fails for a ramp of 257 glyphs: a
    block of average brightness 255, without edge override and with
    multiplier 1.0, gets glyph 255 of the ramp and not the last one. *)
Lemma selectAsciiChar_long_ramp :
  edgeOverride longRampSettings whiteBlock = false
  /\ 0 < pixelCount whiteBlock
  /\ avgBrightness whiteBlock = 255%float
  /\ brightness longRampSettings = 1%float
  /\ String.length (asciiChars longRampSettings) = 257%nat
  /\ selectAsciiChar longRampSettings whiteBlock = JString "a"
  /\ lastChar (asciiChars longRampSettings) = JString "b"
  /\ selectAsciiChar longRampSettings whiteBlock <> lastChar (asciiChars longRampSettings).
Proof. vm_compute. repeat split; try reflexivity. discriminate. Qed.

(** ** The index of the edge glyph

    The index [floor(((angle + 22.5) % 180) / 45)] is followed through the
    five operations of [getEdgeChar]. *)

Lemma Prim2SF_PI : Prim2SF Math_PI = S754_finite false 7074237752028440 (-51).
Proof. vm_compute. reflexivity. Qed.

Lemma Prim2SF_opp_PI : Prim2SF (- Math_PI) = S754_finite true 7074237752028440 (-51).
Proof. vm_compute. reflexivity. Qed.

Lemma Prim2SF_fround_PI :
  Prim2SF (fround Math_PI) = S754_finite false 7074237948887040 (-51).
Proof. vm_compute. reflexivity. Qed.

Lemma Prim2SF_opp_fround_PI :
  Prim2SF (- fround Math_PI)%float = S754_finite true 7074237948887040 (-51).
Proof. vm_compute. reflexivity. Qed.

(** A finite number between two opposite bounds of exponent -51, sign apart. *)
Lemma within_bound (b : positive) (s : bool) (m : positive) (e : Z) :
  SFleb (S754_finite true b (-51)) (S754_finite s m e) = true ->
  SFleb (S754_finite s m e) (S754_finite false b (-51)) = true ->
  e <= -51 /\ (e = -51 -> Z.pos m <= Z.pos b).
Proof.
  intros H1 H2. apply SFleb_finite in H1. apply SFleb_finite in H2.
  destruct s.
  - clear H2. destruct H1 as [H|[H1 H2]]; (split; [lia | intros ?; lia]).
  - clear H1. destruct H2 as [H|[H1 H2]]; (split; [lia | intros ?; lia]).
Qed.

(** [x + PI] for a finite [x] whose absolute value is at most the binary32
    number nearest to pi, which is above [PI]: the sum is not negative and
    below 16, or it is negative and of absolute value below [2 ^ -22]. *)
Lemma add_PI_finite (s : bool) (m : positive) (e : Z) :
  valid_binary (S754_finite s m e) = true ->
  e <= -51 -> (e = -51 -> Z.pos m <= 7074237948887040) ->
  let a := SF64add (S754_finite s m e) (S754_finite false 7074237752028440 (-51)) in
  below 4 a \/ sized true (-22) a.
Proof.
  intros Hv He Hm.
  destruct (valid_finite s m e Hv) as [Hc _]. rewrite fexp64_eq in Hc.
  clear Hv.
  pose proof (Pos2Z.is_pos (digits2_pos m)) as Hd.
  assert (Bm : Z.pos m < 2 ^ 53) by (apply (Zdigits2_lt_pow (Z.pos m)); simpl; lia).
  unfold SF64add, SFadd. cbv zeta.
  replace (Z.min e (-51)) with e by lia.
  destruct (shl_align_spec m e e) as (ax & -> & Hax & _).
  destruct (shl_align_spec 7074237752028440 (-51) e) as (ay & -> & Hay & _).
  rewrite Z.min_l in * by lia. rewrite Z.min_r in * by lia.
  rewrite Z.sub_diag, Z.mul_1_r in Hax. simpl fst.
  assert (Hp : 0 < 2 ^ (-51 - e)) by (apply pow2_pos; lia).
  assert (Hp2 : 2 ^ (3 - e) = 4 * 2 ^ 52 * 2 ^ (-51 - e)).
  { replace (3 - e) with (54 + (-51 - e)) by lia. rewrite Z.pow_add_r by lia. lia. }
  assert (Hfar : e <> -51 -> 2 <= 2 ^ (-51 - e)).
  { intros Hne. change 2 with (2 ^ 1) at 1. apply Z.pow_le_mono_r; lia. }
  assert (Bsum : Z.pos ax + Z.pos ay < 2 ^ (3 - e)).
  { destruct (Z.eq_dec e (-51)) as [->|Hne].
    - simpl in Hay, Hp2 |- *. lia.
    - specialize (Hfar Hne). nia. }
  assert (Hround : forall p, Z.pos p < 2 ^ (3 - e) -> below 4 (binary_round prec emax false p e)).
  { intros p Bp. apply (binary_round_below p e 3); [|lia].
    change (Z.pos (digits2_pos p)) with (Zdigits2 (Z.pos p)).
    assert (Zdigits2 (Z.pos p) <= 3 - e); [|lia].
    apply Zdigits2_le; lia. }
  destruct s; cbv [cond_Zopp].
  - remember (- Z.pos ax + Z.pos ay) as z eqn:Hz.
    destruct z as [|p|p]; simpl binary_normalize.
    + left. left. reflexivity.
    + left. apply Hround. lia.
    + right.
      assert (He51 : e = -51).
      { destruct (Z.eq_dec e (-51)) as [|Hne]; [assumption | exfalso].
        specialize (Hfar Hne). nia. }
      subst e. specialize (Hm eq_refl). simpl in Hay.
      apply (binary_round_sized true p (-51) (-23)); [|lia].
      change (Z.pos (digits2_pos p)) with (Zdigits2 (Z.pos p)).
      assert (Zdigits2 (Z.pos p) <= 28); [|lia].
      apply Zdigits2_le; lia.
  - left. change (Z.pos ax + Z.pos ay) with (Z.pos (ax + ay)) in *. simpl binary_normalize.
    apply Hround. exact Bsum.
Qed.

(** The same for a number between two opposite bounds. *)
Lemma add_PI_sized (b : positive) (d : float) :
  Z.pos b <= 7074237948887040 ->
  SFleb (S754_finite true b (-51)) (Prim2SF d) = true ->
  SFleb (Prim2SF d) (S754_finite false b (-51)) = true ->
  below 4 (Prim2SF (d + Math_PI)) \/ sized true (-22) (Prim2SF (d + Math_PI)).
Proof.
  intros Hb H1 H2. rewrite add_spec, Prim2SF_PI.
  pose proof (Prim2SF_valid d) as Hv.
  destruct (Prim2SF d) as [s|s| |s m e].
  - left. right. do 2 eexists. split; [reflexivity|]. vm_compute. discriminate.
  - destruct s; [discriminate H1 | discriminate H2].
  - discriminate H1.
  - destruct (within_bound b s m e H1 H2) as [He Hm].
    apply add_PI_finite; [exact Hv | exact He | intros E; specialize (Hm E); lia].
Qed.

Lemma Prim2SF_180 : Prim2SF 180 = S754_finite false 6333186975989760 (-45).
Proof. vm_compute. reflexivity. Qed.

Lemma Prim2SF_45 : Prim2SF 45 = S754_finite false 6333186975989760 (-47).
Proof. vm_compute. reflexivity. Qed.

(** The remainder by 180 of a finite number that is not negative is a number
    of the format below 180. *)
Lemma fmod_180 (t : float) (K : Z) :
  below K (Prim2SF t) -> below180 (Prim2SF (fmod t 180)).
Proof.
  intros Ht. pose proof (Prim2SF_valid t) as Hv. unfold fmod.
  destruct Ht as [Ht|(mt & et & Ht & _)]; rewrite Ht in *; rewrite Prim2SF_180.
  - left. exact Ht.
  - destruct (valid_finite _ _ _ Hv) as [Hc _]. rewrite fexp64_eq in Hc. clear Hv.
    pose proof (Pos2Z.is_pos (digits2_pos mt)) as Hd.
    assert (Bm : Z.pos mt < 2 ^ 53) by (apply (Zdigits2_lt_pow (Z.pos mt)); simpl; lia).
    cbv zeta.
    set (e0 := Z.min et (-45)).
    assert (He0 : -1074 <= e0 <= -45) by (unfold e0; lia).
    rewrite !Z.shiftl_mul_pow2 by (unfold e0; lia).
    set (N := Z.pos mt * 2 ^ (et - e0)).
    set (D := 6333186975989760 * 2 ^ (-45 - e0)).
    assert (HD : 0 < D).
    { unfold D. pose proof (pow2_pos (-45 - e0) ltac:(lia)). lia. }
    assert (HN : 0 <= N).
    { unfold N. pose proof (pow2_pos (et - e0) ltac:(unfold e0; lia)). lia. }
    pose proof (Z.mod_pos_bound N D HD) as [Hr0 HrD].
    pose proof (Z.mod_le N D HN HD) as HrN.
    remember (N mod D) as r eqn:Hr. clear Hr.
    destruct r as [|p|p]; [left; vm_compute; reflexivity | | lia].
    assert (Bp : Z.pos p < 2 ^ 53).
    { destruct (Z_le_gt_dec et (-45)).
      - unfold N in HrN. replace (et - e0) with 0 in HrN by (unfold e0; lia).
        rewrite Z.mul_1_r in HrN. lia.
      - unfold D in HrD. replace (-45 - e0) with 0 in HrD by (unfold e0; lia).
        rewrite Z.mul_1_r in HrD. lia. }
    assert (Hdp : Z.pos (digits2_pos p) <= 53).
    { change (Z.pos (digits2_pos p)) with (Zdigits2 (Z.pos p)). apply Zdigits2_le; lia. }
    pose proof (Pos2Z.is_pos (digits2_pos p)) as Hdp0.
    destruct (binary_round_exact false p e0) as (mz & Hround & Hmz & Hdz);
      try (rewrite fexp64_eq; lia).
    rewrite Hround.
    set (ez := fexp64 (Z.pos (digits2_pos p) + e0)) in *.
    assert (Hez : -1074 <= ez <= e0) by (unfold ez; rewrite fexp64_eq; lia).
    rewrite Prim2SF_SF2Prim.
    + right. exists mz, ez. repeat split.
      * rewrite Hdz. reflexivity.
      * lia.
      * rewrite Hmz. unfold D in HrD.
        replace (-45 - ez) with ((-45 - e0) + (e0 - ez)) by lia.
        rewrite Z.pow_add_r by lia.
        pose proof (pow2_pos (e0 - ez) ltac:(lia)). nia.
    + unfold SpecFloat.valid_binary, bounded, canonical_mantissa.
      rewrite Hdz. fold ez. rewrite Z.eqb_refl. simpl.
      apply Z.leb_le. change (emax - prec) with 971. lia.
Qed.

Lemma digits_45 : Zdigits2 6333186975989760 = 53.
Proof. vm_compute. reflexivity. Qed.

Lemma finish_below4 (m3 e3 e' : Z) :
  0 <= m3 -> e' <= e3 -> e' <= 0 -> e3 <= 971 ->
  m3 * 2 ^ (e3 - e') < 4 * 2 ^ (- e') ->
  below4 (finish false m3 e3).
Proof.
  intros Hm He He0 Hfin Hval. unfold finish.
  destruct m3 as [|p|p]; [left; reflexivity | | lia].
  replace (e3 <=? emax - prec) with true
    by (symmetry; apply Z.leb_le; change (emax - prec) with 971; lia).
  right. exists p, e3, e'. auto.
Qed.

(** The quotient by 45 of a number below 180 is rounded to a number below 4:
    the largest number below 180 is [180 - 2 ^ -45], and its quotient is more
    than one unit in the last place below 4. *)
Lemma div_45_below4 (r : float) :
  below180 (Prim2SF r) -> below4 (Prim2SF (r / 45)).
Proof.
  intros Hr. rewrite div_spec, Prim2SF_45.
  destruct Hr as [->|(mr & er & -> & Hc & He & Hval)]; [left; reflexivity|].
  rewrite fexp64_eq in Hc.
  pose proof (Pos2Z.is_pos (digits2_pos mr)) as Hd.
  unfold SF64div, SFdiv, SFdiv_core_binary. simpl xorb.
  rewrite digits_45. simpl (Zdigits2 (Z.pos mr)).
  set (d1 := Z.pos (digits2_pos mr)) in *.
  set (e' := Z.min (fexp64 (d1 + er - (53 + -47))) (er - -47)).
  set (s := er - -47 - e').
  assert (Hs : 0 <= s) by (unfold s, e'; lia).
  assert (Hm' : match s with
                | 0 => Z.pos mr
                | Z.pos _ => Z.shiftl (Z.pos mr) s
                | Z.neg _ => 0
                end = Z.pos mr * 2 ^ s).
  { destruct s as [|p|p] eqn:Es; [lia | | lia].
    rewrite Z.shiftl_mul_pow2 by lia. reflexivity. }
  rewrite Hm'. clear Hm'.
  destruct (Z.div_eucl (Z.pos mr * 2 ^ s) 6333186975989760) as [q rem] eqn:Hdiv.
  assert (Hq : q = (Z.pos mr * 2 ^ s) / 6333186975989760).
  { unfold Z.div. rewrite Hdiv. reflexivity. }
  clear Hdiv.
  pose proof (pow2_pos s Hs) as Hps.
  assert (Hq0 : 0 <= q) by (rewrite Hq; apply Z.div_pos; lia).
  assert (Hqm : q * 6333186975989760 <= Z.pos mr * 2 ^ s).
  { rewrite Hq, Z.mul_comm. apply Z.mul_div_le. lia. }
  (* the magnitude of r *)
  assert (Bmr : Z.pos mr < 2 ^ d1).
  { apply (Zdigits2_lt_pow (Z.pos mr)); [lia | apply Z.le_refl]. }
  assert (Hg : d1 + er <= 8).
  { assert (Zdigits2 (Z.pos mr) <= 8 - er); [|change (Zdigits2 (Z.pos mr)) with d1 in *; lia].
    apply Zdigits2_le; [lia | lia |].
    replace (8 - er) with (53 + (-45 - er)) by lia. rewrite Z.pow_add_r by lia.
    pose proof (pow2_pos (-45 - er) ltac:(lia)). nia. }
  destruct (binary_round_aux_spec false q e' (new_location 6333186975989760 rem) Hq0)
    as (m3 & e3 & -> & Hm3 & HE & Hbound & He3).
  cbv zeta in *. repeat rewrite fexp64_eq in HE. repeat rewrite fexp64_eq in He3.
  repeat rewrite fexp64_eq in Hbound.
  destruct (Z_le_gt_dec (d1 + er) 7) as [Hsmall|Hbig].
  - (* r < 128 *)
    assert (He' : e' <= -52) by (unfold e'; rewrite fexp64_eq; lia).
    set (P := 2 ^ (-51 - e')).
    assert (HP : 1 <= P) by (pose proof (pow2_pos (-51 - e') ltac:(lia)); unfold P; lia).
    assert (H45 : 45 * q < 2 ^ 58 * P).
    { assert (Z.pos mr * 2 ^ s < 2 ^ 47 * (2 ^ 58 * P)).
      { assert (2 ^ d1 <= 2 ^ (7 - er)) by (apply Z.pow_le_mono_r; lia).
        assert (2 ^ (7 - er) * 2 ^ s = 2 ^ 47 * (2 ^ 58 * P)).
        { unfold P. rewrite <- !Z.pow_add_r by lia. f_equal. unfold s. lia. }
        nia. }
      lia. }
    assert (Hq4 : q < 2 ^ (2 - e')).
    { replace (2 - e') with (53 + (-51 - e')) by lia. rewrite Z.pow_add_r by lia.
      fold P. lia. }
    assert (HD : Zdigits2 q + e' <= 2).
    { assert (Zdigits2 q <= 2 - e'); [|lia]. apply Zdigits2_le; lia. }
    assert (HEP : 2 ^ (Z.max e' (Z.max (Zdigits2 q + e' - 53) (-1074)) - e') <= P).
    { unfold P. apply Z.pow_le_mono_r; lia. }
    apply (finish_below4 m3 e3 e'); try lia.
    replace (- e') with (53 + (-51 - e') - 2) by lia.
    replace (4 * 2 ^ (53 + (-51 - e') - 2)) with (2 ^ 53 * P).
    + lia.
    + unfold P. replace (53 + (-51 - e') - 2) with (51 + (-51 - e')) by lia.
      rewrite !Z.pow_add_r by lia. lia.
  - (* 128 <= r < 180 *)
    assert (Her : er = -45) by lia.
    assert (He' : e' = -51) by (unfold e'; rewrite fexp64_eq; lia).
    assert (Hs53 : s = 53) by (unfold s; lia).
    rewrite Hs53 in *. rewrite Her in *. simpl (2 ^ (-45 - -45)) in Hval.
    assert (Hq53 : q <= 2 ^ 53 - 2) by lia.
    assert (HD : Zdigits2 q + e' <= 2).
    { assert (Zdigits2 q <= 53); [|lia]. apply Zdigits2_le; lia. }
    rewrite He' in *.
    replace (Z.max (-51) (Z.max (Zdigits2 q + -51 - 53) (-1074))) with (-51) in * by lia.
    simpl (2 ^ (-51 - -51)) in Hbound.
    apply (finish_below4 m3 e3 (-51)); try lia.
Qed.

Lemma arrayIndex_ofZ_small (n : Z) : 0 <= n <= 3 -> arrayIndex (ofZ n) = Some n.
Proof.
  intros H.
  assert (C : n = 0 \/ n = 1 \/ n = 2 \/ n = 3) by lia.
  destruct C as [->|[->|[->| ->]]]; vm_compute; reflexivity.
Qed.

(** The floor of a number below 4 is the index 0, 1, 2 or 3. *)
Lemma floor_below4 (q : float) :
  below4 (Prim2SF q) -> exists n, 0 <= n <= 3 /\ arrayIndex (Math_floor q) = Some n.
Proof.
  intros Hq. unfold Math_floor.
  destruct Hq as [Hz|(m & e & e' & Hf & He & He0 & Hval)].
  - exists 0. split; [lia|]. rewrite Hz. unfold arrayIndex. rewrite Hz. reflexivity.
  - rewrite Hf. destruct (Z.leb_spec 0 e) as [Hpos|Hneg].
    + exists (Z.pos m * 2 ^ e). unfold arrayIndex. rewrite Hf.
      replace (0 <=? e) with true by (symmetry; apply Z.leb_le; exact Hpos).
      rewrite Z.shiftl_mul_pow2 by lia. split; [|reflexivity].
      pose proof (pow2_pos e Hpos). pose proof (pow2_pos (- e') ltac:(lia)).
      replace (e - e') with (e + - e') in Hval by lia.
      rewrite Z.pow_add_r in Hval by lia.
      split; [lia | nia].
    + simpl cond_Zopp. rewrite Z.shiftr_div_pow2 by lia.
      pose proof (pow2_pos (- e) ltac:(lia)). pose proof (pow2_pos (e - e') ltac:(lia)).
      assert (Hm : Z.pos m < 4 * 2 ^ (- e)).
      { replace (- e') with (- e + (e - e')) in Hval by lia.
        rewrite Z.pow_add_r in Hval by lia. nia. }
      exists (Z.pos m / 2 ^ (- e)).
      assert (Hn : 0 <= Z.pos m / 2 ^ (- e) <= 3).
      { split; [apply Z.div_pos; lia|].
        assert (Z.pos m / 2 ^ (- e) < 4); [|lia].
        apply Z.div_lt_upper_bound; lia. }
      split; [exact Hn|]. apply arrayIndex_ofZ_small, Hn.
Qed.

(** The index is 0, 1, 2 or 3 when [direction + PI] is as in
    [add_PI_sized]. *)
Lemma edgeIndex_sized (direction : float) :
  below 4 (Prim2SF (direction + Math_PI))
  \/ sized true (-22) (Prim2SF (direction + Math_PI)) ->
  exists n, 0 <= n <= 3 /\ arrayIndex (edgeIndex direction) = Some n.
Proof.
  intros Ha. unfold edgeIndex. cbv zeta.
  apply floor_below4, div_45_below4.
  assert (Hk : below 6 (Prim2SF (180 / Math_PI)%float))
    by (apply (below_const _ 8063664102031864 (-47)); vm_compute; reflexivity).
  destruct Ha as [Ha|Ha].
  - apply (fmod_180 _ 13).
    rewrite add_spec.
    apply (SF64add_below 11 5); [| | simpl; lia].
    + rewrite mul_spec. apply (SF64mul_below 4 6); [exact Ha | exact Hk | lia].
    + apply (below_const _ 6333186975989760 (-48)); vm_compute; reflexivity.
  - apply (fmod_180 _ 6).
    rewrite add_spec.
    replace (Prim2SF 22.5%float) with (S754_finite false 6333186975989760 (-48))
      by (vm_compute; reflexivity).
    apply (SF64add_negligible (-15) 5); [| simpl; lia | lia].
    rewrite mul_spec. apply (SF64mul_sized true false (-22) 6); [exact Ha | exact Hk | lia].
Qed.

(** For a direction between -pi and pi, and for a direction between the
    binary32 numbers nearest to -pi and to pi (the range of the samples of a
    direction map, and of their averages), the index is 0, 1, 2 or 3. *)
Lemma edgeIndex_range (direction : float) :
  ((- Math_PI <=? direction)%float = true /\ (direction <=? Math_PI)%float = true)
  \/ ((- fround Math_PI <=? direction)%float = true
      /\ (direction <=? fround Math_PI)%float = true) ->
  exists n, 0 <= n <= 3 /\ arrayIndex (edgeIndex direction) = Some n.
Proof.
  intros [[H1 H2]|[H1 H2]]; rewrite leb_spec in H1, H2; apply edgeIndex_sized.
  - rewrite Prim2SF_opp_PI in H1. rewrite Prim2SF_PI in H2.
    apply (add_PI_sized 7074237752028440); [lia | exact H1 | exact H2].
  - rewrite Prim2SF_opp_fround_PI in H1. rewrite Prim2SF_fround_PI in H2.
    apply (add_PI_sized 7074237948887040); [lia | exact H1 | exact H2].
Qed.

(** At or above the threshold, [getEdgeChar] returns one of the first four
    glyphs of the table. *)
Lemma getEdgeChar_glyph (magnitude direction : float) :
  (magnitude <? 50)%float = false ->
  ((- Math_PI <=? direction)%float = true /\ (direction <=? Math_PI)%float = true)
  \/ ((- fround Math_PI <=? direction)%float = true
      /\ (direction <=? fround Math_PI)%float = true) ->
  exists n glyph,
    0 <= n <= 3
    /\ arrayIndex (edgeIndex direction) = Some n
    /\ nth_error edgeTable (Z.to_nat n) = Some glyph
    /\ getEdgeChar magnitude direction = JString glyph
    /\ In glyph ["-"; "\"; "|"; "/"]%string.
Proof.
  intros Hm Hd. destruct (edgeIndex_range direction Hd) as (n & Hn & Hidx).
  unfold getEdgeChar. cbv zeta. rewrite Hm. unfold elementAt. rewrite Hidx.
  assert (C : n = 0 \/ n = 1 \/ n = 2 \/ n = 3) by lia.
  destruct C as [->|[->|[->| ->]]].
  - exists 0, "-"%string. simpl. intuition lia.
  - exists 1, "\"%string. simpl. intuition lia.
  - exists 2, "|"%string. simpl. intuition lia.
  - exists 3, "/"%string. simpl. intuition lia.
Qed.

(** ** Edge glyphs *)

Lemma elementAt_In (t : list string) (x : float) (c : string) :
  elementAt t x = JString c -> In c t.
Proof.
  unfold elementAt. destruct (arrayIndex x) as [n|]; [|discriminate].
  destruct (nth_error t (Z.to_nat n)) as [c'|] eqn:E; [|discriminate].
  intros [= <-]. eapply nth_error_In, E.
Qed.

(** C9: with edge detection on, the selector divides the two sums of the
    block by its pixel count and gives them to [getEdgeChar].  Below the
    threshold 50 the mapping returns [null] and the glyph of the block is the
    brightness-ramp glyph.  Otherwise the mapping is the lookup in the
    direction table, and the glyph it yields is the glyph of the block,
    whatever the brightness; for an average direction between -pi and pi, or
    between the binary32 numbers nearest to them (the direction map is a
    Float32Array), it does yield one, '-', '\', '|' or '/'. *)
Theorem selectAsciiChar_edge_priority (settings : Settings) (blockInfo : BlockInfo) :
  detectEdges settings = true ->
  let edgeChar :=
    getEdgeChar (sumMag blockInfo / ofZ (pixelCount blockInfo))%float
                (sumDir blockInfo / ofZ (pixelCount blockInfo))%float in
  ((avgMag blockInfo <? 50)%float = true ->
   edgeChar = JNull
   /\ selectAsciiChar settings blockInfo
      = rampChar settings (clampedBrightness settings blockInfo))
  /\ ((avgMag blockInfo <? 50)%float = false ->
      edgeChar = elementAt edgeTable (edgeIndex (avgDir blockInfo))
      /\ (forall c, edgeChar = JString c -> selectAsciiChar settings blockInfo = JString c)
      /\ (((- Math_PI <=? avgDir blockInfo)%float = true
           /\ (avgDir blockInfo <=? Math_PI)%float = true)
          \/ ((- fround Math_PI <=? avgDir blockInfo)%float = true
              /\ (avgDir blockInfo <=? fround Math_PI)%float = true) ->
          exists glyph,
            In glyph ["-"; "\"; "|"; "/"]%string
            /\ selectAsciiChar settings blockInfo = JString glyph)).
Proof.
  intros Hde edgeChar. subst edgeChar.
  fold (avgMag blockInfo) (avgDir blockInfo).
  assert (Hwin : forall c,
             getEdgeChar (avgMag blockInfo) (avgDir blockInfo) = JString c ->
             In c edgeTable ->
             selectAsciiChar settings blockInfo = JString c).
  { intros c Hc Hin. unfold selectAsciiChar. rewrite Hde. cbv zeta. rewrite Hc.
    replace (truthy (JString c)) with true; [reflexivity|].
    simpl in Hin. repeat (destruct Hin as [<- | Hin]; [reflexivity|]). contradiction. }
  split; intros Hm.
  - unfold selectAsciiChar, getEdgeChar. rewrite Hde. cbv zeta. rewrite Hm.
    split; reflexivity.
  - split; [|split].
    + unfold getEdgeChar. cbv zeta. rewrite Hm. reflexivity.
    + intros c Hc. apply Hwin; [exact Hc|].
      unfold getEdgeChar in Hc. cbv zeta in Hc. rewrite Hm in Hc.
      apply elementAt_In in Hc. exact Hc.
    + intros Hd.
      destruct (getEdgeChar_glyph _ _ Hm Hd) as (n & glyph & _ & _ & Hnth & Hg & Hin).
      exists glyph. split; [exact Hin|]. apply Hwin; [exact Hg|].
      eapply nth_error_In, Hnth.
Qed.

Lemma selectAsciiChar_edge_priority_witness :
  selectAsciiChar edgeSettings faintEdgeBlock = JString "@"
  /\ selectAsciiChar edgeSettings edgeBlock = JString "|".
Proof.
  destruct (selectAsciiChar_edge_priority edgeSettings faintEdgeBlock eq_refl) as [Hlow _].
  destruct (selectAsciiChar_edge_priority edgeSettings edgeBlock eq_refl) as [_ Hhigh].
  split.
  - destruct Hlow as [_ ->]; reflexivity.
  - destruct Hhigh as [_ H]; [reflexivity|]. apply H. reflexivity.
Defined.

(** C10: for every magnitude at or above the threshold 50 and every direction
    between -pi and pi (both ends included), [getEdgeChar] computes an index
    that is 0, 1, 2 or 3: the lookup in the table of eight glyphs is in
    bounds, it reads one of the first four entries, and the glyph returned is
    '-', '\', '|' or '/'.  The same holds between the binary32 numbers nearest
    to -pi and to pi, which lie just outside that range and are the extreme
    samples a direction map can hold. *)
Theorem getEdgeChar_in_bounds (magnitude direction : float) :
  (50 <=? magnitude)%float = true ->
  ((- Math_PI <=? direction)%float = true /\ (direction <=? Math_PI)%float = true)
  \/ ((- fround Math_PI <=? direction)%float = true
      /\ (direction <=? fround Math_PI)%float = true) ->
  exists n glyph,
    0 <= n <= 3
    /\ arrayIndex (edgeIndex direction) = Some n
    /\ nth_error edgeTable (Z.to_nat n) = Some glyph
    /\ getEdgeChar magnitude direction = JString glyph
    /\ In glyph ["-"; "\"; "|"; "/"]%string.
Proof.
  intros Hm. apply getEdgeChar_glyph.
  rewrite ltb_spec. apply SFleb_not_SFltb. rewrite <- leb_spec. exact Hm.
Qed.

Lemma getEdgeChar_in_bounds_witness :
  (exists n glyph,
      0 <= n <= 3
      /\ arrayIndex (edgeIndex 1.5) = Some n
      /\ nth_error edgeTable (Z.to_nat n) = Some glyph
      /\ getEdgeChar 60 1.5 = JString glyph
      /\ In glyph ["-"; "\"; "|"; "/"]%string)
  /\ (exists n glyph,
         0 <= n <= 3
         /\ arrayIndex (edgeIndex (- fround Math_PI)) = Some n
         /\ nth_error edgeTable (Z.to_nat n) = Some glyph
         /\ getEdgeChar 60 (- fround Math_PI) = JString glyph
         /\ In glyph ["-"; "\"; "|"; "/"]%string).
Proof.
  split.
  - apply (getEdgeChar_in_bounds 60 1.5); [reflexivity | left; split; reflexivity].
  - apply (getEdgeChar_in_bounds 60 (- fround Math_PI));
      [reflexivity | right; split; reflexivity].
Defined.

(** ** The grid of blocks *)

Lemma range_succ (n : Z) : 0 <= n -> range (n + 1) = 0 :: map (Z.add 1) (range n).
Proof.
  intros Hn. unfold range. replace (Z.to_nat (n + 1)) with (S (Z.to_nat n)) by lia.
  simpl. f_equal. rewrite <- seq_shift, !map_map. apply map_ext. intros k. lia.
Qed.

(** The values of the loop variable: the multiples of the step below the
    limit. *)
Lemma loopValues_from (step limit : Z) :
  0 < step ->
  forall (fuel : nat) (start : Z),
    (Z.to_nat (limit - start) <= fuel)%nat ->
    loopValues fuel start limit step
    = Some (map (fun k => start + k * step) (range (blockCount (limit - start) step))).
Proof.
  intros Hstep. unfold blockCount.
  induction fuel as [|fuel IH]; intros start Hf; simpl.
  - destruct (Z.ltb_spec start limit); [lia|].
    replace (range _) with (@nil Z); [reflexivity|].
    unfold range. replace (Z.to_nat _) with 0%nat; [reflexivity|].
    assert ((limit - start + step - 1) / step <= 0); [|lia].
    assert ((limit - start + step - 1) / step < 1); [|lia].
    apply Z.div_lt_upper_bound; lia.
  - destruct (Z.ltb_spec start limit) as [Hlt|Hge].
    + rewrite IH by lia. simpl. f_equal.
      replace ((limit - start + step - 1) / step)
        with ((limit - (start + step) + step - 1) / step + 1).
      2:{ replace (limit - start + step - 1) with (limit - (start + step) + step - 1 + 1 * step) by lia.
          rewrite Z.div_add by lia. reflexivity. }
      rewrite range_succ.
      2:{ apply Z.div_pos; lia. }
      simpl. f_equal; [lia|]. rewrite map_map. apply map_ext. intros k. lia.
    + replace (range _) with (@nil Z); [reflexivity|].
      unfold range. replace (Z.to_nat _) with 0%nat; [reflexivity|].
      assert ((limit - start + step - 1) / step < 1); [|lia].
      apply Z.div_lt_upper_bound; lia.
Qed.

Lemma loopValues_blocks (step limit : Z) :
  0 < step -> 0 <= limit ->
  loopValues (Z.to_nat limit) 0 limit step
  = Some (map (fun k => k * step) (range (blockCount limit step))).
Proof.
  intros Hs Hl. rewrite (loopValues_from step limit Hs) by lia.
  rewrite Z.sub_0_r. reflexivity.
Qed.

Lemma append_assoc (a b c : string) :
  String.append (String.append a b) c = String.append a (String.append b c).
Proof. induction a as [|x a IH]; simpl; [reflexivity | now rewrite IH]. Qed.

Lemma append_empty_r (a : string) : String.append a EmptyString = a.
Proof. induction a as [|x a IH]; simpl; [reflexivity | now rewrite IH]. Qed.

Lemma concat_empty (l : list string) :
  String.concat "" l = fold_right String.append EmptyString l.
Proof.
  induction l as [|x l IH]; [reflexivity|].
  simpl. destruct l as [|y l]; [now rewrite append_empty_r|].
  rewrite IH. reflexivity.
Qed.

Lemma flat_map_rows_nth {A : Type} (f : Z -> Z -> A) (rows cols r c : Z) :
  0 <= r < rows -> 0 <= c < cols ->
  nth_error (flat_map (fun y => map (f y) (range cols)) (range rows))
            (Z.to_nat (r * cols + c))
  = Some (f r c).
Proof.
  intros Hr Hc. unfold range at 2.
  assert (H : forall (n : nat) (start : nat) (r : Z),
             0 <= r < Z.of_nat n ->
             nth_error (flat_map (fun y => map (f y) (range cols))
                                 (map Z.of_nat (seq start n)))
                       (Z.to_nat (r * cols + c))
             = Some (f (Z.of_nat start + r) c)).
  { clear r Hr. induction n as [|n IH]; intros start r Hr; [lia|].
    simpl. destruct (Z.eq_dec r 0) as [->|Hne].
    - rewrite nth_error_app1 by (rewrite length_map, range_length; lia).
      rewrite nth_error_map.
      replace (Z.to_nat (0 * cols + c)) with (Z.to_nat c) by lia.
      rewrite range_nth_error by lia. simpl. f_equal. f_equal; lia.
    - rewrite nth_error_app2 by (rewrite length_map, range_length; nia).
      rewrite length_map, range_length.
      replace (Z.to_nat (r * cols + c) - Z.to_nat cols)%nat
        with (Z.to_nat ((r - 1) * cols + c)) by nia.
      rewrite IH by lia. f_equal. f_equal. lia. }
  rewrite (H (Z.to_nat rows) 0%nat r) by lia. reflexivity.
Qed.

Section Grid.

Variable host : Host.
Variable settings : Settings.

(** The loop over the blocks of a row appends one glyph per block. *)
Lemma generateRow_map (imageData : ImageData) (edgeData : option EdgeData)
    (r : Z) (cs : list Z) :
  generateRow settings imageData edgeData (r * blockSize settings)
              (map (fun c => c * blockSize settings) cs)
  = (String.concat ""
       (map (fun c => toString (glyphText (glyphAt settings imageData edgeData r c))) cs),
     map (glyphAt settings imageData edgeData r) cs).
Proof.
  unfold generateRow. rewrite concat_empty.
  assert (H : forall cs s l,
    fold_left
      (fun '(rowText, drawn) x =>
         let blockInfo := calculateBlockInfo settings imageData x (r * blockSize settings) edgeData in
         let char := selectAsciiChar settings blockInfo in
         let color := calculateAverageColor settings blockInfo in
         (String.append rowText (toString char),
          drawn ++ [{| glyphText := char; glyphX := x;
                       glyphY := r * blockSize settings + blockSize settings;
                       glyphColor := color; glyphFont := blockSize settings |}]))
      (map (fun c => c * blockSize settings) cs) (s, l)
    = (String.append s (fold_right String.append EmptyString
          (map (fun c => toString (glyphText (glyphAt settings imageData edgeData r c))) cs)),
       l ++ map (glyphAt settings imageData edgeData r) cs)).
  { clear cs. induction cs as [|c cs IH]; intros s l; simpl.
    - now rewrite append_empty_r, app_nil_r.
    - rewrite IH. cbv zeta. rewrite append_assoc, <- app_assoc. reflexivity. }
  rewrite H. reflexivity.
Qed.

(** The loop over the rows appends the text of each row, a newline, and the
    glyphs of the row. *)
Lemma generateRows_map (imageData : ImageData) (edgeData : option EdgeData)
    (cols : Z) (rs : list Z) :
  fold_left
    (fun out y =>
       let '(rowText, drawn) :=
         generateRow settings imageData edgeData y
                     (map (fun c => c * blockSize settings) (range cols)) in
       {| outText := String.append (outText out) (String.append rowText newline);
          outGlyphs := outGlyphs out ++ drawn |})
    (map (fun r => r * blockSize settings) rs)
    {| outText := EmptyString; outGlyphs := [] |}
  = {| outText :=
         String.concat ""
           (map (fun r =>
                   String.append
                     (String.concat ""
                        (map (fun c => toString (glyphText (glyphAt settings imageData edgeData r c)))
                             (range cols)))
                     newline) rs);
       outGlyphs :=
         flat_map (fun r => map (glyphAt settings imageData edgeData r) (range cols)) rs |}.
Proof.
  rewrite concat_empty.
  assert (H : forall rs s l,
    fold_left
      (fun out y =>
         let '(rowText, drawn) :=
           generateRow settings imageData edgeData y
                       (map (fun c => c * blockSize settings) (range cols)) in
         {| outText := String.append (outText out) (String.append rowText newline);
            outGlyphs := outGlyphs out ++ drawn |})
      (map (fun r => r * blockSize settings) rs)
      {| outText := s; outGlyphs := l |}
    = {| outText :=
           String.append s
             (fold_right String.append EmptyString
                (map (fun r =>
                        String.append
                          (String.concat ""
                             (map (fun c => toString (glyphText (glyphAt settings imageData edgeData r c)))
                                  (range cols)))
                          newline) rs));
         outGlyphs :=
           l ++ flat_map (fun r => map (glyphAt settings imageData edgeData r) (range cols)) rs |}).
  { clear rs. induction rs as [|r rs IH]; intros s l; simpl.
    - now rewrite append_empty_r, app_nil_r.
    - rewrite generateRow_map. simpl outText. simpl outGlyphs.
      rewrite IH. rewrite append_assoc, <- app_assoc. reflexivity. }
  rewrite H. reflexivity.
Qed.

End Grid.

(** With a positive block size [generate] visits the blocks row by row: the
    image is cut into [blockCount height] rows of [blockCount width] blocks.
    The pass throws only where a kernel array of the edge detection cannot be
    created; otherwise it ends with one glyph per block, in row order, and
    the text of each row followed by a newline. *)
Lemma generatePass_cells (host : Host) (settings : Settings) (imageData : ImageData) :
  0 < blockSize settings -> 0 <= width imageData -> 0 <= height imageData ->
  let w := width imageData in
  let h := height imageData in
  let cols := blockCount w (blockSize settings) in
  let rows := blockCount h (blockSize settings) in
  let adjusted :=
    if autoAdjust settings then autoBrightnessContrast imageData else imageData in
  let dog := differenceOfGaussians host settings adjusted in
  let edgeData :=
    if detectEdges settings
    then option_map (fun dogResult => applySobelFilter host dogResult w h) dog
    else None in
  let glyph := glyphAt settings adjusted edgeData in
  if detectEdges settings && match dog with None => true | Some _ => false end
  then generatePass host settings imageData = RangeError
  else
    generatePass host settings imageData
    = Done {| outText :=
                String.concat ""
                  (map (fun r =>
                          String.append
                            (String.concat ""
                               (map (fun c => toString (glyphText (glyph r c))) (range cols)))
                            newline)
                       (range rows));
              outGlyphs := flat_map (fun r => map (glyph r) (range cols)) (range rows) |}.
Proof.
  intros Hb Hw Hh. cbv zeta. unfold generatePass. cbv zeta.
  rewrite (loopValues_blocks _ _ Hb Hh), (loopValues_blocks _ _ Hb Hw).
  set (adjusted := if autoAdjust settings then _ else _).
  destruct (detectEdges settings); simpl andb.
  - destruct (differenceOfGaussians host settings adjusted) as [dogResult|]; [|reflexivity].
    simpl option_map.
    destruct (map _ (range (blockCount (height imageData) _))) eqn:E.
    + destruct (range (blockCount (height imageData) _)); [reflexivity | discriminate E].
    + rewrite <- E. rewrite generateRows_map. reflexivity.
  - destruct (map _ (range (blockCount (height imageData) _))) eqn:E.
    + destruct (range (blockCount (height imageData) _)); [reflexivity | discriminate E].
    + rewrite <- E. rewrite generateRows_map. reflexivity.
Qed.

(** X1: with a positive block size [generate] visits the blocks row by row:
    the image is cut into [blockCount height] rows of [blockCount width]
    blocks.  The pass throws only where a kernel array of the edge detection
    cannot be created; otherwise it ends with one glyph per block, in row
    order, each drawn at the bottom left corner of its block, and with the
    text of each row followed by a newline. *)
Theorem generatePass_grid (host : Host) (settings : Settings) (imageData : ImageData) :
  0 < blockSize settings -> 0 <= width imageData -> 0 <= height imageData ->
  let w := width imageData in
  let h := height imageData in
  let cols := blockCount w (blockSize settings) in
  let rows := blockCount h (blockSize settings) in
  let adjusted :=
    if autoAdjust settings then autoBrightnessContrast imageData else imageData in
  let dog := differenceOfGaussians host settings adjusted in
  let edgeData :=
    if detectEdges settings
    then option_map (fun dogResult => applySobelFilter host dogResult w h) dog
    else None in
  let glyph := glyphAt settings adjusted edgeData in
  if detectEdges settings && match dog with None => true | Some _ => false end
  then generatePass host settings imageData = RangeError
  else
    generatePass host settings imageData
    = Done {| outText :=
                String.concat ""
                  (map (fun r =>
                          String.append
                            (String.concat ""
                               (map (fun c => toString (glyphText (glyph r c))) (range cols)))
                            newline)
                       (range rows));
              outGlyphs := flat_map (fun r => map (glyph r) (range cols)) (range rows) |}.
Proof. exact (generatePass_cells host settings imageData). Qed.

Lemma generatePass_grid_witness :
  exists out,
    generatePass Reference.host scenarioSettings black16 = Done out
    /\ List.length (outGlyphs out) = 4%nat.
Proof.
  pose proof (generatePass_grid Reference.host scenarioSettings black16) as G.
  cbv zeta in G. change (detectEdges scenarioSettings) with false in G.
  cbn [andb] in G.
  eexists. split.
  - apply G.
    + reflexivity.
    + simpl. lia.
    + simpl. lia.
  - vm_compute. reflexivity.
Defined.

(** ** The histogram and its running sums *)

Lemma total_app (a b : list Z) : total (a ++ b) = total a + total b.
Proof. induction a as [|x a IH]; simpl; lia. Qed.

(** [h[v]++] for a gray level [v] inside the array adds one to the sum of
    the counters and leaves the size and the signs alone. *)
Lemma increment_total (h : list Z) (v : Z) :
  0 <= v < Z.of_nat (List.length h) ->
  total (increment h v) = total h + 1
  /\ List.length (increment h v) = List.length h
  /\ (Forall (fun c => 0 <= c) h -> Forall (fun c => 0 <= c) (increment h v)).
Proof.
  intros Hv. unfold increment.
  destruct (nth_error h (Z.to_nat v)) as [c|] eqn:E.
  2:{ apply nth_error_None in E. exfalso. lia. }
  pose proof (firstn_skipn_middle _ _ E) as Hsplit.
  repeat split.
  - pose proof (f_equal total Hsplit) as Ht.
    rewrite total_app in Ht |- *. simpl in Ht |- *. lia.
  - pose proof (f_equal (@List.length Z) Hsplit) as Hl.
    rewrite length_app in Hl |- *. simpl in Hl |- *. lia.
  - intros Hpos. rewrite <- Hsplit in Hpos.
    apply Forall_app in Hpos. destruct Hpos as [H1 H2].
    apply Forall_app. split; [exact H1|].
    inversion H2; subst. constructor; [lia | assumption].
Qed.

Lemma histogramOf_total (gray : list Z) :
  Forall (fun v => 0 <= v <= 255) gray ->
  total (histogramOf gray) = Z.of_nat (List.length gray)
  /\ List.length (histogramOf gray) = 256%nat
  /\ Forall (fun c => 0 <= c) (histogramOf gray).
Proof.
  intros Hg. unfold histogramOf.
  assert (H : forall h,
             List.length h = 256%nat -> Forall (fun c => 0 <= c) h ->
             total (fold_left increment gray h) = total h + Z.of_nat (List.length gray)
             /\ List.length (fold_left increment gray h) = 256%nat
             /\ Forall (fun c => 0 <= c) (fold_left increment gray h)).
  { induction Hg as [|v gray Hv Hg IH]; intros h Hl Hp; simpl fold_left.
    - simpl. repeat split; [lia | assumption | assumption].
    - destruct (increment_total h v ltac:(lia)) as (Ht & Hl' & Hp').
      destruct (IH (increment h v) ltac:(lia) (Hp' Hp)) as (IH1 & IH2 & IH3).
      repeat split; [|assumption|assumption].
      rewrite IH1, Ht. simpl List.length. lia. }
  destruct (H (repeat 0 256)) as (H1 & H2 & H3).
  - apply repeat_length.
  - apply Forall_forall. intros c Hc. apply repeat_spec in Hc. lia.
  - repeat split; [|assumption|assumption].
    rewrite H1. replace (total (repeat 0 256)) with 0 by (vm_compute; reflexivity). lia.
Qed.

(** The running sums of counters that are not negative: as many entries,
    never decreasing, the last one the sum of all. *)
Lemma runningSums_spec (h : list Z) :
  Forall (fun c => 0 <= c) h ->
  forall before,
    List.length (runningSums before h) = List.length h
    /\ (forall i a, nth_error (runningSums before h) i = Some a ->
                    before <= a <= before + total h)
    /\ (forall i a b, nth_error (runningSums before h) i = Some a ->
                      nth_error (runningSums before h) (S i) = Some b -> a <= b)
    /\ (h <> [] -> last (runningSums before h) 0 = before + total h).
Proof.
  induction 1 as [|c h Hc Hh IH]; intros before; simpl.
  - split; [reflexivity|]. split; [|split].
    + intros [|j] a Ha; discriminate Ha.
    + intros [|j] a b Ha; discriminate Ha.
    + congruence.
  - destruct (IH (before + c)) as (IH1 & IH2 & IH3 & IH4).
    assert (Ht : 0 <= total h).
    { clear -Hh. induction Hh; simpl; lia. }
    split; [now rewrite IH1|]. split; [|split].
    + intros [|j] a Ha; simpl in Ha.
      * injection Ha as <-. lia.
      * apply IH2 in Ha. lia.
    + intros [|j] a b Ha Hb; simpl in Ha, Hb.
      * injection Ha as <-. apply (IH2 0%nat) in Hb. lia.
      * eapply IH3; eassumption.
    + intros _. destruct h as [|c' h'].
      * simpl. lia.
      * specialize (IH4 ltac:(discriminate)). simpl in IH4 |- *.
        rewrite IH4. simpl. lia.
Qed.

(** ** The Sobel filter *)

(** X8: [applySobelFilter] returns two arrays of [w * h] samples; the samples of
    the outermost rows and columns are the zeros the arrays are created with,
    and every other sample is computed from the two sums of its 3x3
    neighbourhood. *)
Theorem applySobelFilter_border (host : Host) (grayData : list Z) (w h x y : Z) :
  0 <= x < w -> 0 <= y < h ->
  let edgeData := applySobelFilter host grayData w h in
  let i := Z.to_nat (y * w + x) in
  List.length (magnitude edgeData) = Z.to_nat (w * h)
  /\ List.length (direction edgeData) = Z.to_nat (w * h)
  /\ (onBorder w h x y = true ->
      nth_error (magnitude edgeData) i = Some 0%float
      /\ nth_error (direction edgeData) i = Some 0%float)
  /\ (onBorder w h x y = false ->
      let '(gx, gy) := sobelAt grayData w x y in
      nth_error (magnitude edgeData) i = Some (fround (sqrt (gx * gx + gy * gy)))
      /\ nth_error (direction edgeData) i = Some (fround (Math_atan2 host gy gx))).
Proof.
  intros Hx Hy. cbv zeta. unfold applySobelFilter. cbv zeta. simpl magnitude. simpl direction.
  rewrite !flat_map_rows_length, !range_length.
  rewrite !(flat_map_rows_nth _ h w y x Hy Hx).
  assert (Hin : ((1 <=? y) && (y <? h - 1) && (1 <=? x) && (x <? w - 1))
                = negb (onBorder w h x y)).
  { unfold onBorder.
    destruct (Z.leb_spec 1 y), (Z.ltb_spec y (h - 1)), (Z.leb_spec 1 x),
      (Z.ltb_spec x (w - 1)), (Z.eqb_spec x 0), (Z.eqb_spec x (w - 1)),
      (Z.eqb_spec y 0), (Z.eqb_spec y (h - 1)); simpl; try reflexivity; lia. }
  rewrite Hin.
  split; [nia|]. split; [nia|]. split.
  - intros ->. simpl. split; reflexivity.
  - intros ->. simpl. destruct (sobelAt grayData w x y) as [gx gy]. split; reflexivity.
Qed.

Lemma applySobelFilter_border_witness :
  nth_error (magnitude (applySobelFilter Reference.host (repeat 7 9) 3 3)) 0
  = Some 0%float.
Proof.
  destruct (applySobelFilter_border Reference.host (repeat 7 9) 3 3 0 0)
    as (_ & _ & H & _).
  - lia.
  - lia.
  - destruct (H eq_refl) as [Hm _]. exact Hm.
Defined.

(** The two sums depend on the nine samples read only. *)
Lemma sobelAt_ext (g1 g2 : list Z) (w1 w2 x1 x2 y1 y2 : Z) :
  (forall i j, 0 <= i <= 2 -> 0 <= j <= 2 ->
               readZ g1 ((y1 + i - 1) * w1 + (x1 + j - 1))
               = readZ g2 ((y2 + i - 1) * w2 + (x2 + j - 1))) ->
  sobelAt g1 w1 x1 y1 = sobelAt g2 w2 x2 y2.
Proof.
  intros H. unfold sobelAt. change (range 3) with [0; 1; 2]. simpl fold_left.
  rewrite !H by lia. reflexivity.
Qed.

(** On nine equal samples both sums are +0. *)
Lemma sobelAt_flat (v : Z) :
  0 <= v <= 255 -> sobelAt (repeat v 9) 3 1 1 = (0%float, 0%float).
Proof.
  intros Hv.
  assert (H : forallb (fun v => let '(gx, gy) := sobelAt (repeat v 9) 3 1 1 in
                                Leibniz.eqb gx 0 && Leibniz.eqb gy 0)
                      (range 256) = true) by (vm_compute; reflexivity).
  rewrite forallb_forall in H. specialize (H v ltac:(apply range_In; lia)).
  destruct (sobelAt (repeat v 9) 3 1 1) as [gx gy].
  apply andb_prop in H. destruct H as [H1 H2].
  apply Leibniz.eqb_spec in H1, H2. now subst.
Qed.

Lemma flat_map_rows_const {A B C : Type} (f : A -> B -> C) (d : C)
    (rows : list A) (cols : list B) :
  (forall y x, In y rows -> In x cols -> f y x = d) ->
  flat_map (fun y => map (f y) cols) rows
  = repeat d (List.length rows * List.length cols).
Proof.
  intros H. induction rows as [|y rows IH]; [reflexivity|].
  simpl. rewrite repeat_app. f_equal.
  - clear IH. assert (Hy : forall x, In x cols -> f y x = d) by (intros; apply H; simpl; auto).
    clear H. induction cols as [|x cols IH]; [reflexivity|].
    simpl. rewrite Hy by (now left). f_equal. apply IH. intros; apply Hy. now right.
  - apply IH. intros; apply H; simpl; auto.
Qed.

(** On a field of bytes that are all equal the gradient magnitude is zero
    everywhere: a flat image has no edge. *)
Lemma sobel_flat (host : Host) (grayData : list Z) (w h v : Z) :
  0 <= w -> 0 <= h -> 0 <= v <= 255 ->
  (forall k, 0 <= k < w * h -> nth_error grayData (Z.to_nat k) = Some v) ->
  magnitude (applySobelFilter host grayData w h)
  = repeat 0%float (Z.to_nat (w * h)).
Proof.
  intros Hw Hh Hv Hg. unfold applySobelFilter. cbv zeta. cbn [magnitude].
  replace (Z.to_nat (w * h)) with (List.length (range h) * List.length (range w))%nat
    by (rewrite !range_length; nia).
  apply flat_map_rows_const. intros y x Hy Hx. apply range_In in Hy, Hx.
  destruct ((1 <=? y) && (y <? h - 1) && (1 <=? x) && (x <? w - 1)) eqn:E; [|reflexivity].
  apply andb_prop in E. destruct E as [E E4]. apply andb_prop in E. destruct E as [E E3].
  apply andb_prop in E. destruct E as [E1 E2].
  apply Z.leb_le in E1, E3. apply Z.ltb_lt in E2, E4.
  rewrite (sobelAt_ext grayData (repeat v 9) w 3 x 1 y 1).
  - rewrite (sobelAt_flat v Hv). vm_compute. reflexivity.
  - intros i j Hi Hj.
    assert (Hk : 0 <= (y + i - 1) * w + (x + j - 1) < w * h) by nia.
    unfold readZ at 1.
    destruct (Z.ltb_spec ((y + i - 1) * w + (x + j - 1)) 0); [lia|].
    rewrite (Hg _ Hk).
    assert (C : (i = 0 \/ i = 1 \/ i = 2) /\ (j = 0 \/ j = 1 \/ j = 2)) by lia.
    destruct C as [[->|[->| ->]] [->|[->| ->]]]; reflexivity.
Qed.

(** X9: on a field of bytes that are all equal the gradient magnitude is zero
    everywhere: a flat image has no edge. *)
Theorem applySobelFilter_flat (host : Host) (grayData : list Z) (w h v : Z) :
  0 <= w -> 0 <= h -> 0 <= v <= 255 ->
  (forall k, 0 <= k < w * h -> nth_error grayData (Z.to_nat k) = Some v) ->
  magnitude (applySobelFilter host grayData w h)
  = repeat 0%float (Z.to_nat (w * h)).
Proof. exact (sobel_flat host grayData w h v). Qed.

Lemma applySobelFilter_flat_witness :
  magnitude (applySobelFilter Reference.host (repeat 7 9) 3 3)
  = repeat 0%float (Z.to_nat (3 * 3)).
Proof.
  apply (applySobelFilter_flat Reference.host (repeat 7 9) 3 3 7).
  - lia.
  - lia.
  - lia.
  - intros k Hk. apply nth_error_repeat. lia.
Defined.

(** ** Gray levels *)

Lemma last_nth {A : Type} (l : list A) (d : A) :
  last l d = nth (List.length l - 1) l d.
Proof.
  induction l as [|x l IH]; [reflexivity|].
  destruct l as [|y l]; [reflexivity|].
  change (last (x :: y :: l) d) with (last (y :: l) d). rewrite IH.
  simpl List.length. replace (S (S (List.length l)) - 1)%nat with (S (List.length l - 0)) by lia.
  simpl. now rewrite Nat.sub_0_r.
Qed.

(** The accumulator of [autoBrightnessContrast] has 256 entries that are not
    negative and never decrease, and its last entry, the [max] of the source,
    is the number of pixels. *)
Lemma accumulator_total (imageData : ImageData) :
  let accumulator := runningSums 0 (histogramOf (rgbToGrayscale imageData)) in
  List.length accumulator = 256%nat
  /\ (forall i a b, nth_error accumulator i = Some a ->
                    nth_error accumulator (S i) = Some b -> 0 <= a <= b)
  /\ nth 255 accumulator 0 = Z.max 0 (width imageData * height imageData).
Proof.
  cbv zeta.
  destruct (rgbToGrayscale_bytes imageData) as [Hlen Hbytes].
  destruct (histogramOf_total _ Hbytes) as (Htot & Hl & Hpos).
  destruct (runningSums_spec _ Hpos 0) as (H1 & H2 & H3 & H4).
  split; [congruence|]. split.
  - intros i a b Ha Hb. split; [apply (H2 i a Ha) | apply (H3 i a b Ha Hb)].
  - replace 255%nat with (List.length (runningSums 0 (histogramOf (rgbToGrayscale imageData))) - 1)%nat
      by (rewrite H1, Hl; reflexivity).
    rewrite <- last_nth, H4.
    + rewrite Htot, Hlen. lia.
    + intros E. rewrite E in Hl. discriminate Hl.
Qed.

(** The luminance of a gray pixel is its gray level. *)
Lemma luminance_gray (v : Z) :
  0 <= v <= 255 -> ToUint8 (luminance (ofZ v) (ofZ v) (ofZ v)) = v.
Proof.
  intros Hv.
  assert (H : forallb (fun v => ToUint8 (luminance (ofZ v) (ofZ v) (ofZ v)) =? v)
                      (range 256) = true) by (vm_compute; reflexivity).
  rewrite forallb_forall in H. apply Z.eqb_eq, H, range_In. lia.
Qed.

(** [rgbToGrayscale] keeps the level of a pixel whose three colour channels
    are equal. *)
Lemma rgbToGrayscale_gray (imageData : ImageData) (k v : Z) :
  wellFormed imageData = true ->
  0 <= k < width imageData * height imageData ->
  nth_error (data imageData) (Z.to_nat (4 * k)) = Some v ->
  nth_error (data imageData) (Z.to_nat (4 * k + 1)) = Some v ->
  nth_error (data imageData) (Z.to_nat (4 * k + 2)) = Some v ->
  nth_error (rgbToGrayscale imageData) (Z.to_nat k) = Some v.
Proof.
  intros Hwf Hk Hr Hg Hb. unfold rgbToGrayscale. cbv zeta.
  rewrite nth_error_map, range_nth_error by lia. cbn [option_map].
  rewrite Z2Nat.id by lia.
  unfold wellFormed in Hwf. apply andb_prop in Hwf. destruct Hwf as [Hwf Hbytes].
  apply andb_prop in Hwf. destruct Hwf as [_ Hlen]. apply Z.eqb_eq in Hlen.
  destruct (Z.ltb_spec (4 * k) (Z.of_nat (List.length (data imageData)))); [|lia].
  unfold readZ.
  destruct (Z.ltb_spec (4 * k) 0), (Z.ltb_spec (4 * k + 1) 0), (Z.ltb_spec (4 * k + 2) 0);
    try lia.
  rewrite Hr, Hg, Hb. f_equal. apply luminance_gray.
  rewrite forallb_forall in Hbytes.
  specialize (Hbytes v (nth_error_In _ _ Hr)).
  apply andb_prop in Hbytes. destruct Hbytes as [B1 B2].
  apply Z.leb_le in B1, B2. lia.
Qed.

(** X17: with an empty ramp a block that is not black and has no edge glyph gets
    [undefined], which the text of the row shows as the word. *)
Theorem selectAsciiChar_empty_ramp (settings : Settings) (blockInfo : BlockInfo) :
  asciiChars settings = EmptyString ->
  edgeOverride settings blockInfo = false ->
  (clampedBrightness settings blockInfo =? 0)%float = false ->
  selectAsciiChar settings blockInfo = JUndefined
  /\ toString (selectAsciiChar settings blockInfo) = "undefined"%string.
Proof.
  intros Hramp Hedge Hc.
  assert (H : selectAsciiChar settings blockInfo = JUndefined).
  { rewrite (selectAsciiChar_no_override _ _ Hedge). unfold rampChar. rewrite Hc, Hramp.
    cbv zeta. unfold charAt. destruct (arrayIndex _) as [n|]; [|reflexivity].
    destruct (Z.to_nat n); reflexivity. }
  rewrite H. split; reflexivity.
Qed.

Lemma selectAsciiChar_empty_ramp_witness :
  selectAsciiChar emptyRampSettings whiteBlock = JUndefined
  /\ toString (selectAsciiChar emptyRampSettings whiteBlock) = "undefined"%string.
Proof.
  apply (selectAsciiChar_empty_ramp emptyRampSettings whiteBlock).
  - reflexivity.
  - reflexivity.
  - vm_compute. reflexivity.
Defined.

(** ** Integers in binary64

    Integers below 2^53 are binary64 numbers, and sums, products, differences
    and comparisons of such integers are exact. *)

Lemma Zdigits2_shift (m k : Z) : 0 < m -> 0 <= k -> Zdigits2 (m * 2 ^ k) = Zdigits2 m + k.
Proof.
  intros Hm Hk.
  pose proof (pow2_pos k Hk) as Hp.
  destruct (Zdigits2_bounds m Hm) as [Hlo Hhi].
  pose proof (Zdigits2_nonneg m) as Hd.
  assert (Hd1 : 1 <= Zdigits2 m).
  { destruct (Z_le_gt_dec 1 (Zdigits2 m)); [assumption|].
    replace (Zdigits2 m) with 0 in Hhi by lia. simpl in Hhi. lia. }
  destruct (Zdigits2_bounds (m * 2 ^ k) ltac:(nia)) as [Hlo' Hhi'].
  apply Z.le_antisymm.
  - apply Zdigits2_le; [nia | lia |]. rewrite Z.pow_add_r by lia. nia.
  - destruct (Z_le_gt_dec (Zdigits2 m + k) (Zdigits2 (m * 2 ^ k))) as [|Hgt]; [assumption|].
    exfalso.
    assert (2 ^ Zdigits2 (m * 2 ^ k) <= 2 ^ (Zdigits2 m - 1 + k))
      by (apply Z.pow_le_mono_r; lia).
    rewrite Z.pow_add_r in H by lia. nia.
Qed.

Lemma Zdigits2_mono (a b : Z) : 0 <= a <= b -> Zdigits2 a <= Zdigits2 b.
Proof.
  intros H. pose proof (Zdigits2_nonneg b).
  apply Zdigits2_le; [lia | assumption |].
  assert (b < 2 ^ Zdigits2 b) by (apply Zdigits2_lt_pow; lia). lia.
Qed.

Lemma Zdigits2_pos (m : Z) : 0 < m -> 1 <= Zdigits2 m.
Proof. destruct m; simpl; lia. Qed.

(** A shift by one bit of an even mantissa that carries no rounding bit. *)
Lemma shr_1_even (c : Z) :
  0 <= c ->
  shr_1 {| shr_m := 2 * c; shr_r := false; shr_s := false |}
  = {| shr_m := c; shr_r := false; shr_s := false |}.
Proof. intros Hc. destruct c as [|p|p]; [reflexivity | reflexivity | lia]. Qed.

Lemma iter_shr_1_even (n : positive) : forall c,
  0 <= c ->
  iter_pos shr_1 n {| shr_m := c * 2 ^ Z.pos n; shr_r := false; shr_s := false |}
  = {| shr_m := c; shr_r := false; shr_s := false |}.
Proof.
  induction n as [n IH|n IH|]; intros c Hc; cbn [iter_pos].
  - assert (Hp : 2 ^ Z.pos n~1 = 2 * (2 ^ Z.pos n * 2 ^ Z.pos n)).
    { rewrite <- Z.pow_add_r by lia. rewrite <- (Z.pow_succ_r 2) by lia. f_equal. lia. }
    rewrite Hp. pose proof (pow2_pos (Z.pos n) ltac:(lia)).
    replace (c * (2 * (2 ^ Z.pos n * 2 ^ Z.pos n)))
      with (2 * (c * 2 ^ Z.pos n * 2 ^ Z.pos n)) by ring.
    rewrite shr_1_even by nia. rewrite IH by nia. apply IH. exact Hc.
  - assert (Hp : 2 ^ Z.pos n~0 = 2 ^ Z.pos n * 2 ^ Z.pos n).
    { rewrite <- Z.pow_add_r by lia. f_equal. lia. }
    rewrite Hp. pose proof (pow2_pos (Z.pos n) ltac:(lia)).
    rewrite Z.mul_assoc. rewrite IH by nia. apply IH. exact Hc.
  - change (2 ^ 1) with 2. rewrite Z.mul_comm. apply shr_1_even. exact Hc.
Qed.

(** Rounding is exact on a number of the format: the mantissa [c] and the
    exponent [E] of a number in canonical form, given with a longer mantissa
    at a lower exponent [ex], are found again. *)
Lemma binary_round_aux_exact (s : bool) (c : positive) (ex E : Z) :
  E = fexp64 (Z.pos (digits2_pos c) + E) -> ex <= E -> E <= 971 ->
  binary_round_aux prec emax s (Z.pos c * 2 ^ (E - ex)) ex loc_Exact
  = S754_finite s c E.
Proof.
  intros Hcanon Hex Hmax. unfold binary_round_aux, shr_fexp.
  assert (Hd : Zdigits2 (Z.pos c * 2 ^ (E - ex)) + ex = Z.pos (digits2_pos c) + E).
  { rewrite Zdigits2_shift by lia. simpl Zdigits2. lia. }
  rewrite Hd, <- Hcanon.
  assert (Hfirst : shr (shr_record_of_loc (Z.pos c * 2 ^ (E - ex)) loc_Exact) ex (E - ex)
                   = ({| shr_m := Z.pos c; shr_r := false; shr_s := false |}, E)).
  { unfold shr. cbn [shr_record_of_loc].
    destruct (E - ex) as [|p|p] eqn:Hn; [| |lia].
    - rewrite Z.pow_0_r, Z.mul_1_r. f_equal. lia.
    - rewrite iter_shr_1_even by lia. f_equal. lia. }
  rewrite Hfirst. cbn [loc_of_shr_record shr_m round_nearest_even Zdigits2].
  rewrite <- Hcanon, Z.sub_diag. cbn [shr shr_record_of_loc shr_m].
  replace (E <=? emax - prec) with true; [reflexivity|].
  symmetry. apply Z.leb_le. change (emax - prec) with 971. exact Hmax.
Qed.

(** The sign, mantissa and exponent of a positive integer below 2^53. *)
Lemma ofZ_canonical (n : Z) :
  0 < n < 2 ^ 53 ->
  let e := Zdigits2 n - 53 in
  exists m,
    Prim2SF (ofZ n) = S754_finite false m e
    /\ Z.pos m = n * 2 ^ (- e)
    /\ e = fexp64 (Z.pos (digits2_pos m) + e)
    /\ -52 <= e <= 0.
Proof.
  intros Hn e.
  destruct (Prim2SF_ofZ false (Z.to_pos n)) as (mz & ez & Hof & Hez & Hmz).
  { rewrite Z2Pos.id by lia. lia. }
  simpl cond_Zopp in Hof. rewrite Z2Pos.id in Hof, Hmz by lia.
  pose proof (Prim2SF_valid (ofZ n)) as Hv. rewrite Hof in Hv.
  destruct (valid_finite _ _ _ Hv) as [Hc _].
  assert (Hd : Z.pos (digits2_pos mz) = Zdigits2 n - ez).
  { change (Z.pos (digits2_pos mz)) with (Zdigits2 (Z.pos mz)).
    rewrite Hmz, Zdigits2_shift by lia. lia. }
  pose proof (Zdigits2_pos n ltac:(lia)) as Hd1.
  assert (Hd53 : Zdigits2 n <= 53) by (apply Zdigits2_le; lia).
  assert (He : ez = e).
  { rewrite Hd, fexp64_eq in Hc. unfold e. lia. }
  subst ez. exists mz. repeat split; try assumption; unfold e; lia.
Qed.

Lemma ofZ_0 : Prim2SF (ofZ 0) = S754_zero false.
Proof. reflexivity. Qed.

(** Two floats with the same sign, mantissa and exponent are equal. *)
Lemma Prim2SF_inj (x y : float) : Prim2SF x = Prim2SF y -> x = y.
Proof.
  intros H. rewrite <- (SF2Prim_Prim2SF x), <- (SF2Prim_Prim2SF y). now rewrite H.
Qed.

(** A number in canonical form whose value is the integer [n] is [ofZ n]. *)
Lemma ofZ_unique (x : float) (m : positive) (e n : Z) :
  Prim2SF x = S754_finite false m e ->
  0 < n < 2 ^ 53 -> e <= 0 -> Z.pos m = n * 2 ^ (- e) ->
  x = ofZ n.
Proof.
  intros Hx Hn He Hm.
  destruct (ofZ_canonical n Hn) as (m' & Hof & Hm' & Hc' & He').
  apply Prim2SF_inj. rewrite Hx, Hof.
  pose proof (Prim2SF_valid x) as Hv. rewrite Hx in Hv.
  destruct (valid_finite _ _ _ Hv) as [Hc _].
  assert (Hd : Z.pos (digits2_pos m) = Zdigits2 n - e).
  { change (Z.pos (digits2_pos m)) with (Zdigits2 (Z.pos m)).
    rewrite Hm, Zdigits2_shift by lia. lia. }
  pose proof (Zdigits2_pos n ltac:(lia)) as Hd1.
  assert (Hd53 : Zdigits2 n <= 53) by (apply Zdigits2_le; lia).
  assert (E : e = Zdigits2 n - 53).
  { rewrite Hd, fexp64_eq in Hc. lia. }
  rewrite <- E in *. f_equal. apply Pos2Z.inj. congruence.
Qed.

(** Sums of integers are exact below 2^53. *)
Lemma ofZ_add (a b : Z) :
  0 <= a -> 0 <= b -> a + b < 2 ^ 53 -> (ofZ a + ofZ b)%float = ofZ (a + b).
Proof.
  intros Ha Hb Hab.
  destruct (Z.eq_dec a 0) as [->|Ha0].
  { apply Prim2SF_inj. rewrite add_spec, ofZ_0. simpl Z.add.
    destruct (Z.eq_dec b 0) as [->|Hb0]; [reflexivity|].
    destruct (ofZ_canonical b ltac:(lia)) as (m & -> & _). reflexivity. }
  destruct (Z.eq_dec b 0) as [->|Hb0].
  { apply Prim2SF_inj. rewrite add_spec, ofZ_0, Z.add_0_r.
    destruct (ofZ_canonical a ltac:(lia)) as (m & -> & _). reflexivity. }
  destruct (ofZ_canonical a ltac:(lia)) as (ma & Hfa & Hma & _ & Hea).
  destruct (ofZ_canonical b ltac:(lia)) as (mb & Hfb & Hmb & _ & Heb).
  destruct (ofZ_canonical (a + b) ltac:(lia)) as (c & Hfc & Hmc & Hcc & Hec).
  set (ea := Zdigits2 a - 53) in *. set (eb := Zdigits2 b - 53) in *.
  set (E := Zdigits2 (a + b) - 53) in *.
  apply Prim2SF_inj. rewrite add_spec, Hfa, Hfb, Hfc.
  unfold SF64add, SFadd. cbv zeta.
  set (e0 := Z.min ea eb).
  destruct (shl_align_spec ma ea e0) as (xa & -> & Hxa & _).
  destruct (shl_align_spec mb eb e0) as (xb & -> & Hxb & _).
  rewrite !Z.min_r in * by (unfold e0; lia).
  simpl fst. simpl cond_Zopp.
  change (Z.pos xa + Z.pos xb) with (Z.pos (xa + xb)). simpl binary_normalize.
  assert (He0 : e0 <= E).
  { pose proof (Zdigits2_mono a (a + b) ltac:(lia)).
    pose proof (Zdigits2_mono b (a + b) ltac:(lia)). unfold e0, ea, eb, E. lia. }
  assert (Hsum : Z.pos (xa + xb) = Z.pos c * 2 ^ (E - e0)).
  { rewrite Pos2Z.inj_add, Hxa, Hxb, Hma, Hmb, Hmc.
    rewrite <- !Z.mul_assoc, <- !Z.pow_add_r by (unfold e0; lia).
    replace (- ea + (ea - e0)) with (- e0) by lia.
    replace (- eb + (eb - e0)) with (- e0) by lia.
    replace (- E + (E - e0)) with (- e0) by lia. ring. }
  unfold binary_round.
  assert (Hdig : Z.pos (digits2_pos (xa + xb)) + e0 = Z.pos (digits2_pos c) + E).
  { change (Z.pos (digits2_pos (xa + xb))) with (Zdigits2 (Z.pos (xa + xb))).
    rewrite Hsum, Zdigits2_shift by lia. simpl Zdigits2. lia. }
  rewrite Hdig, <- Hcc.
  destruct (shl_align_spec (xa + xb) e0 E) as (mz & Hal & Hmz & _).
  rewrite Z.min_l in * by lia. rewrite Z.sub_diag, Z.mul_1_r in Hmz.
  rewrite Hal. apply Pos2Z.inj in Hmz. subst mz.
  rewrite Hsum. apply binary_round_aux_exact; [exact Hcc | exact He0 | lia].
Qed.

Lemma Zdigits2_mul_lower (a b : Z) :
  0 < a -> 0 < b -> Zdigits2 a + Zdigits2 b - 1 <= Zdigits2 (a * b).
Proof.
  intros Ha Hb.
  destruct (Zdigits2_bounds a Ha) as [La _]. destruct (Zdigits2_bounds b Hb) as [Lb _].
  pose proof (Zdigits2_pos a Ha). pose proof (Zdigits2_pos b Hb).
  destruct (Zdigits2_bounds (a * b) ltac:(nia)) as [_ Hab].
  destruct (Z_le_gt_dec (Zdigits2 a + Zdigits2 b - 1) (Zdigits2 (a * b))) as [|Hgt];
    [assumption | exfalso].
  pose proof (Zdigits2_nonneg (a * b)).
  assert (2 ^ Zdigits2 (a * b) <= 2 ^ ((Zdigits2 a - 1) + (Zdigits2 b - 1)))
    by (apply Z.pow_le_mono_r; lia).
  rewrite Z.pow_add_r in * by lia. nia.
Qed.

(** Products of integers are exact below 2^53. *)
Lemma ofZ_mul (a b : Z) :
  0 <= a < 2 ^ 53 -> 0 <= b < 2 ^ 53 -> a * b < 2 ^ 53 ->
  (ofZ a * ofZ b)%float = ofZ (a * b).
Proof.
  intros Ha Hb Hab.
  destruct (Z.eq_dec a 0) as [->|Ha0].
  { apply Prim2SF_inj. rewrite mul_spec, ofZ_0. simpl Z.mul.
    destruct (Z.eq_dec b 0) as [->|Hb0]; [reflexivity|].
    destruct (ofZ_canonical b ltac:(lia)) as (m & -> & _). reflexivity. }
  destruct (Z.eq_dec b 0) as [->|Hb0].
  { apply Prim2SF_inj. rewrite mul_spec, ofZ_0, Z.mul_0_r.
    destruct (ofZ_canonical a ltac:(lia)) as (m & -> & _). reflexivity. }
  destruct (ofZ_canonical a ltac:(lia)) as (ma & Hfa & Hma & _ & Hea).
  destruct (ofZ_canonical b ltac:(lia)) as (mb & Hfb & Hmb & _ & Heb).
  destruct (ofZ_canonical (a * b) ltac:(nia)) as (c & Hfc & Hmc & Hcc & Hec).
  set (ea := Zdigits2 a - 53) in *. set (eb := Zdigits2 b - 53) in *.
  set (E := Zdigits2 (a * b) - 53) in *.
  apply Prim2SF_inj. rewrite mul_spec, Hfa, Hfb, Hfc.
  unfold SF64mul, SFmul. simpl xorb.
  pose proof (Zdigits2_mul_lower a b ltac:(lia) ltac:(lia)) as Hdig.
  assert (He0 : ea + eb <= E) by (unfold ea, eb, E; lia).
  assert (Hprod : Z.pos (ma * mb) = Z.pos c * 2 ^ (E - (ea + eb))).
  { rewrite Pos2Z.inj_mul, Hma, Hmb, Hmc.
    assert (P1 : 2 ^ (- ea) * 2 ^ (- eb) = 2 ^ (- (ea + eb)))
      by (rewrite <- Z.pow_add_r by lia; f_equal; lia).
    assert (P2 : 2 ^ (- E) * 2 ^ (E - (ea + eb)) = 2 ^ (- (ea + eb)))
      by (rewrite <- Z.pow_add_r by lia; f_equal; lia).
    replace (a * 2 ^ (- ea) * (b * 2 ^ (- eb))) with (a * b * (2 ^ (- ea) * 2 ^ (- eb))) by ring.
    rewrite P1, <- P2. ring. }
  rewrite Hprod. apply binary_round_aux_exact; [exact Hcc | exact He0 | lia].
Qed.

(** The order of two integers below 2^53 is the order of their floats. *)
Lemma ofZ_compare (a b : Z) :
  0 <= a < 2 ^ 53 -> 0 <= b < 2 ^ 53 ->
  SFcompare (Prim2SF (ofZ a)) (Prim2SF (ofZ b)) = Some (a ?= b).
Proof.
  intros Ha Hb.
  destruct (Z.eq_dec a 0) as [->|Ha0]; destruct (Z.eq_dec b 0) as [->|Hb0].
  - reflexivity.
  - destruct (ofZ_canonical b ltac:(lia)) as (m & -> & _). rewrite ofZ_0.
    replace (0 ?= b) with Lt by (symmetry; apply Z.compare_lt_iff; lia). reflexivity.
  - destruct (ofZ_canonical a ltac:(lia)) as (m & -> & _). rewrite ofZ_0.
    replace (a ?= 0) with Gt by (symmetry; apply Z.compare_gt_iff; lia). reflexivity.
  - destruct (ofZ_canonical a ltac:(lia)) as (ma & -> & Hma & _ & Hea).
    destruct (ofZ_canonical b ltac:(lia)) as (mb & -> & Hmb & _ & Heb).
    set (ea := Zdigits2 a - 53) in *. set (eb := Zdigits2 b - 53) in *.
    unfold SFcompare. f_equal.
    change (Pos.compare_cont Eq ma mb) with (Z.pos ma ?= Z.pos mb).
    destruct (Zdigits2_bounds a ltac:(lia)) as [La Ua].
    destruct (Zdigits2_bounds b ltac:(lia)) as [Lb Ub].
    pose proof (Zdigits2_pos a ltac:(lia)). pose proof (Zdigits2_pos b ltac:(lia)).
    destruct (Z.compare_spec ea eb) as [He|He|He].
    + rewrite He in Hma.
      pose proof (pow2_pos (- eb) ltac:(lia)) as Hp.
      destruct (Z.compare_spec a b) as [Hab|Hab|Hab].
      * apply Z.compare_eq_iff. subst b. lia.
      * apply Z.compare_lt_iff. nia.
      * apply Z.compare_gt_iff. nia.
    + symmetry. apply Z.compare_lt_iff.
      assert (2 ^ Zdigits2 a <= 2 ^ (Zdigits2 b - 1)) by (apply Z.pow_le_mono_r; unfold ea, eb in He; lia).
      lia.
    + symmetry. apply Z.compare_gt_iff.
      assert (2 ^ Zdigits2 b <= 2 ^ (Zdigits2 a - 1)) by (apply Z.pow_le_mono_r; unfold ea, eb in He; lia).
      lia.
Qed.

Lemma ofZ_ltb (a b : Z) :
  0 <= a < 2 ^ 53 -> 0 <= b < 2 ^ 53 -> (ofZ a <? ofZ b)%float = (a <? b).
Proof.
  intros Ha Hb. rewrite ltb_spec. unfold SFltb, Z.ltb.
  rewrite (ofZ_compare a b Ha Hb). reflexivity.
Qed.

Lemma ofZ_leb (a b : Z) :
  0 <= a < 2 ^ 53 -> 0 <= b < 2 ^ 53 -> (ofZ a <=? ofZ b)%float = (a <=? b).
Proof.
  intros Ha Hb. rewrite leb_spec. unfold SFleb, Z.leb.
  rewrite (ofZ_compare a b Ha Hb). destruct (a ?= b); reflexivity.
Qed.

Lemma ofZ_eqb (a b : Z) :
  0 <= a < 2 ^ 53 -> 0 <= b < 2 ^ 53 -> (ofZ a =? ofZ b)%float = (a =? b).
Proof.
  intros Ha Hb. rewrite eqb_spec. unfold SFeqb.
  rewrite (ofZ_compare a b Ha Hb).
  destruct (Z.compare_spec a b), (Z.eqb_spec a b); try reflexivity; lia.
Qed.

Lemma ofZ_not_nan (a : Z) : 0 <= a < 2 ^ 53 -> is_nan (ofZ a) = false.
Proof.
  intros Ha. unfold is_nan. rewrite (ofZ_eqb a a Ha Ha), Z.eqb_refl. reflexivity.
Qed.

(** [Math.min] and [Math.max] on integers. *)
Lemma Math_min_ofZ (a b : Z) :
  0 <= a < 2 ^ 53 -> 0 <= b < 2 ^ 53 -> Math_min (ofZ a) (ofZ b) = ofZ (Z.min a b).
Proof.
  intros Ha Hb. unfold Math_min.
  rewrite !ofZ_not_nan, !ofZ_ltb by assumption. simpl orb.
  destruct (Z.ltb_spec a b); [now rewrite Z.min_l by lia|].
  destruct (Z.ltb_spec b a); [now rewrite Z.min_r by lia|].
  assert (a = b) by lia. subst b. rewrite Z.min_id. destruct (get_sign _); reflexivity.
Qed.

Lemma Math_max_ofZ (a b : Z) :
  0 <= a < 2 ^ 53 -> 0 <= b < 2 ^ 53 -> Math_max (ofZ a) (ofZ b) = ofZ (Z.max a b).
Proof.
  intros Ha Hb. unfold Math_max.
  rewrite !ofZ_not_nan, !ofZ_ltb by assumption. simpl orb.
  destruct (Z.ltb_spec a b); [now rewrite Z.max_r by lia|].
  destruct (Z.ltb_spec b a); [now rewrite Z.max_l by lia|].
  assert (a = b) by lia. subst b. rewrite Z.max_id. destruct (get_sign _); reflexivity.
Qed.

(** The rounding of a positive integer below 2^53, given by a mantissa and an
    exponent that is not positive. *)
Lemma binary_round_ofZ (p : positive) (e0 n : Z) :
  0 < n < 2 ^ 53 -> e0 <= 0 -> -1074 <= e0 -> Z.pos p = n * 2 ^ (- e0) ->
  binary_round prec emax false p e0 = Prim2SF (ofZ n).
Proof.
  intros Hn He0 Hlow Hp.
  destruct (ofZ_canonical n Hn) as (c & -> & Hc & Hcc & HE).
  set (E := Zdigits2 n - 53) in *.
  assert (Hdig : Z.pos (digits2_pos p) + e0 = Zdigits2 n).
  { change (Z.pos (digits2_pos p)) with (Zdigits2 (Z.pos p)).
    rewrite Hp, Zdigits2_shift by lia. lia. }
  pose proof (Zdigits2_pos n ltac:(lia)) as Hd1.
  destruct (Z_le_gt_dec e0 E) as [Hle|Hgt].
  - unfold binary_round. rewrite Hdig.
    replace (fexp64 (Zdigits2 n)) with E by (rewrite fexp64_eq; unfold E; lia).
    destruct (shl_align_spec p e0 E) as (mz & Hal & Hmz & _).
    rewrite Z.min_l in * by lia. rewrite Z.sub_diag, Z.mul_1_r in Hmz.
    rewrite Hal. apply Pos2Z.inj in Hmz. subst mz.
    replace (Z.pos p) with (Z.pos c * 2 ^ (E - e0)).
    + apply binary_round_aux_exact; [exact Hcc | exact Hle | lia].
    + rewrite Hc, Hp, <- Z.mul_assoc, <- Z.pow_add_r by lia. do 2 f_equal. lia.
  - destruct (binary_round_exact false p e0) as (mz & Hround & Hmz & _).
    + rewrite Hdig, fexp64_eq. unfold E in Hgt. lia.
    + rewrite Hdig, fexp64_eq. lia.
    + rewrite Hround. rewrite Hdig in *.
      replace (fexp64 (Zdigits2 n)) with E in * by (rewrite fexp64_eq; unfold E; lia).
      f_equal. apply Pos2Z.inj. rewrite Hmz, Hc, Hp, <- Z.mul_assoc, <- Z.pow_add_r by lia.
      do 2 f_equal. lia.
Qed.

(** Differences of integers are exact. *)
Lemma ofZ_sub (a b : Z) :
  0 <= b <= a -> a < 2 ^ 53 -> (ofZ a - ofZ b)%float = ofZ (a - b).
Proof.
  intros Hb Ha. apply Prim2SF_inj. rewrite sub_spec.
  destruct (Z.eq_dec b 0) as [->|Hb0].
  { rewrite ofZ_0, Z.sub_0_r.
    destruct (Z.eq_dec a 0) as [->|Ha0]; [reflexivity|].
    destruct (ofZ_canonical a ltac:(lia)) as (m & -> & _). reflexivity. }
  destruct (ofZ_canonical a ltac:(lia)) as (ma & Hfa & Hma & _ & Hea).
  destruct (ofZ_canonical b ltac:(lia)) as (mb & Hfb & Hmb & _ & Heb).
  set (ea := Zdigits2 a - 53) in *. set (eb := Zdigits2 b - 53) in *.
  rewrite Hfa, Hfb. unfold SF64sub, SFsub. cbv zeta.
  set (e0 := Z.min ea eb).
  destruct (shl_align_spec ma ea e0) as (xa & -> & Hxa & _).
  destruct (shl_align_spec mb eb e0) as (xb & -> & Hxb & _).
  rewrite !Z.min_r in * by (unfold e0; lia).
  simpl fst. simpl cond_Zopp.
  assert (Hva : Z.pos xa = a * 2 ^ (- e0)).
  { rewrite Hxa, Hma, <- Z.mul_assoc, <- Z.pow_add_r by (unfold e0; lia).
    do 2 f_equal. lia. }
  assert (Hvb : Z.pos xb = b * 2 ^ (- e0)).
  { rewrite Hxb, Hmb, <- Z.mul_assoc, <- Z.pow_add_r by (unfold e0; lia).
    do 2 f_equal. lia. }
  pose proof (pow2_pos (- e0) ltac:(unfold e0; lia)) as Hp.
  remember (Z.pos xa - Z.pos xb) as z eqn:Hz.
  destruct z as [|p|p].
  - assert (a = b) by nia. subst b. rewrite Z.sub_diag. reflexivity.
  - simpl binary_normalize. apply binary_round_ofZ.
    + nia.
    + unfold e0; lia.
    + unfold e0; lia.
    + rewrite Hz, Hva, Hvb. ring.
  - nia.
Qed.

(** ** Quotients of integers *)

(** The result of a rounding lies between the mantissa cut at the exponent
    [E] it is rounded at and the next mantissa. *)
Lemma binary_round_aux_between (sx : bool) (mx ex : Z) (lx : location) :
  0 <= mx ->
  let E := Z.max ex (fexp64 (Zdigits2 mx + ex)) in
  let m1 := mx / 2 ^ (E - ex) in
  exists m3 e3,
    binary_round_aux prec emax sx mx ex lx = finish sx m3 e3
    /\ 0 <= m3
    /\ E <= e3 <= E + 1
    /\ m1 <= m3 * 2 ^ (e3 - E) <= m1 + 1.
Proof.
  intros Hm E m1. unfold binary_round_aux.
  destruct (shr_fexp_spec mx ex lx Hm) as (mrs1 & -> & Hm1 & _).
  fold E in Hm1 |- *. fold m1 in Hm1.
  set (m2 := round_nearest_even (shr_m mrs1) (loc_of_shr_record mrs1)).
  pose proof (round_nearest_even_bounds (shr_m mrs1) (loc_of_shr_record mrs1)) as Hm2.
  fold m2 in Hm2. rewrite Hm1 in Hm2.
  assert (HE : ex <= E) by (unfold E; lia).
  assert (Hm1' : 0 <= m1) by (unfold m1; apply Z.div_pos; [lia | apply pow2_pos; lia]).
  assert (Hm2' : 0 <= m2) by lia.
  destruct (shr_fexp_spec m2 E loc_Exact Hm2') as (mrs2 & -> & Hm3 & _).
  set (e3 := Z.max E (fexp64 (Zdigits2 m2 + E))) in *.
  exists (shr_m mrs2), e3.
  assert (He3 : E <= e3) by (unfold e3; lia).
  assert (Hm3' : 0 <= shr_m mrs2) by (rewrite Hm3; apply Z.div_pos; [lia | apply pow2_pos; lia]).
  (* the mantissa cut at [E] has at most 53 digits *)
  assert (B1 : m1 < 2 ^ 53).
  { pose proof (Zdigits2_nonneg mx) as Hd.
    assert (Hmx : mx < 2 ^ Zdigits2 mx) by (apply Zdigits2_lt_pow; lia).
    pose proof (div_pow2_digits mx (Zdigits2 mx) (E - ex) Hm ltac:(lia) Hmx Hd) as Hdiv.
    fold m1 in Hdiv.
    assert (2 ^ Z.max (Zdigits2 mx - (E - ex)) 0 <= 2 ^ 53).
    { apply Z.pow_le_mono_r; [lia|]. unfold E. rewrite fexp64_eq. lia. }
    lia. }
  assert (D2 : Zdigits2 m2 <= 54).
  { apply Zdigits2_le; [lia | lia |]. change (2 ^ 54) with (2 * 2 ^ 53). lia. }
  split; [reflexivity|]. split; [exact Hm3'|].
  assert (HElow : -1074 <= E) by (unfold E; rewrite fexp64_eq; lia).
  assert (He3def : e3 = Z.max E (Z.max (Zdigits2 m2 + E - 53) (-1074))) by reflexivity.
  clearbody e3.
  destruct (Z.eq_dec e3 E) as [Heq|Hne].
  - replace (e3 - E) with 0 in * by lia.
    rewrite Z.pow_0_r, Z.div_1_r in Hm3. rewrite Z.pow_0_r, Z.mul_1_r. lia.
  - assert (He31 : e3 = E + 1) by lia.
    assert (D54 : Zdigits2 m2 = 54) by lia.
    assert (Hm2eq : m2 = 2 ^ 53).
    { destruct (Zdigits2_bounds m2) as [Lo _].
      - destruct (Z.eq_dec m2 0) as [Z0|]; [rewrite Z0 in D54; discriminate D54 | lia].
      - rewrite D54 in Lo. simpl Z.sub in Lo. lia. }
    split; [lia|].
    replace (e3 - E) with 1 in * by lia.
    rewrite Hm3, Hm2eq. change (2 ^ 53 / 2 ^ 1 * 2 ^ 1) with (2 ^ 53). lia.
Qed.

(** The quotient of two positive integers, rounded: +0 when the integer
    quotient is 0, or a number with a fraction whose integer part is the
    integer quotient. *)
Lemma div_ofZ (a b : Z) :
  0 < a < 2 ^ 52 -> 0 < b < 2 ^ 53 ->
  (Prim2SF (ofZ a / ofZ b) = S754_zero false /\ a / b = 0)
  \/ exists m e,
       Prim2SF (ofZ a / ofZ b) = S754_finite false m e
       /\ -105 <= e < 0 /\ Z.pos m / 2 ^ (- e) = a / b.
Proof.
  intros Ha Hb.
  destruct (ofZ_canonical b ltac:(lia)) as (mb & Hfb & Hmb & Hcb & Heb).
  set (eb := Zdigits2 b - 53) in *.
  destruct (ofZ_canonical a ltac:(lia)) as (ma & Hfa & Hma & Hca & Hea).
  set (ea := Zdigits2 a - 53) in *.
  set (k := a / b).
  assert (Hk : k * b <= a < (k + 1) * b).
  { unfold k. pose proof (Z.mul_div_le a b ltac:(lia)).
    pose proof (Z.mul_succ_div_gt a b ltac:(lia)). lia. }
  assert (Hk0 : 0 <= k) by (unfold k; apply Z.div_pos; lia).
  assert (Hda : Z.pos (digits2_pos ma) = 53).
  { rewrite fexp64_eq in Hca. lia. }
  assert (Hdb : Z.pos (digits2_pos mb) = 53).
  { rewrite fexp64_eq in Hcb. lia. }
  assert (Hea1 : ea <= -1).
  { assert (Zdigits2 a <= 52) by (apply Zdigits2_le; lia). unfold ea. lia. }
  pose proof (Prim2SF_valid (ofZ a / ofZ b)) as Hv.
  revert Hv. rewrite div_spec, Hfa, Hfb.
  unfold SF64div, SFdiv, SFdiv_core_binary. simpl xorb. simpl Zdigits2.
  rewrite Hda, Hdb.
  replace (53 + ea - (53 + eb)) with (ea - eb) by lia.
  set (e' := Z.min (fexp64 (ea - eb)) (ea - eb)).
  assert (He' : e' = ea - eb - 53) by (unfold e'; rewrite fexp64_eq; lia).
  replace (ea - eb - e') with 53 by lia. cbv iota.
  rewrite Z.shiftl_mul_pow2 by lia.
  destruct (Z.div_eucl (Z.pos ma * 2 ^ 53) (Z.pos mb)) as [q r] eqn:Hdiv.
  assert (Hq : q = (Z.pos ma * 2 ^ 53) / Z.pos mb).
  { unfold Z.div. rewrite Hdiv. reflexivity. }
  clear Hdiv.
  assert (Hq0 : 0 <= q) by (rewrite Hq; apply Z.div_pos; lia).
  destruct (binary_round_aux_between false q e' (new_location (Z.pos mb) r) Hq0)
    as (m3 & e3 & -> & Hm3 & He3 & Hbetween).
  cbv zeta in He3, Hbetween.
  set (E := Z.max e' (fexp64 (Zdigits2 q + e'))) in *.
  pose proof (pow2_pos (- ea) ltac:(lia)) as Pa.
  pose proof (pow2_pos (- eb) ltac:(lia)) as Pb.
  (* the quotient has 53 or 54 digits *)
  assert (Bma : 2 ^ 52 <= Z.pos ma < 2 ^ 53).
  { pose proof (digits2_pos_bounds ma) as B. rewrite Hda in B. exact B. }
  assert (Bmb : 2 ^ 52 <= Z.pos mb < 2 ^ 53).
  { pose proof (digits2_pos_bounds mb) as B. rewrite Hdb in B. exact B. }
  assert (Hqm : q * Z.pos mb <= Z.pos ma * 2 ^ 53 < (q + 1) * Z.pos mb).
  { rewrite Hq. pose proof (Z.mul_div_le (Z.pos ma * 2 ^ 53) (Z.pos mb) ltac:(lia)).
    pose proof (Z.mul_succ_div_gt (Z.pos ma * 2 ^ 53) (Z.pos mb) ltac:(lia)). lia. }
  assert (Bq : 2 ^ 52 <= q < 2 ^ 54).
  { split.
    - destruct (Z_le_gt_dec (2 ^ 52) q) as [|Hlt]; [assumption | exfalso].
      assert ((q + 1) * Z.pos mb <= 2 ^ 52 * Z.pos mb)
        by (apply Z.mul_le_mono_nonneg_r; lia).
      assert (2 ^ 52 * Z.pos mb < 2 ^ 52 * 2 ^ 53)
        by (apply Z.mul_lt_mono_pos_l; lia).
      assert (2 ^ 52 * 2 ^ 53 <= Z.pos ma * 2 ^ 53)
        by (apply Z.mul_le_mono_nonneg_r; lia).
      lia.
    - destruct (Z_le_gt_dec (2 ^ 54) q) as [Hge|]; [exfalso | lia].
      assert (2 ^ 54 * 2 ^ 52 <= q * 2 ^ 52)
        by (apply Z.mul_le_mono_nonneg_r; lia).
      assert (q * 2 ^ 52 <= q * Z.pos mb)
        by (apply Z.mul_le_mono_nonneg_l; lia).
      assert (Z.pos ma * 2 ^ 53 < 2 ^ 53 * 2 ^ 53)
        by (apply Z.mul_lt_mono_pos_r; lia).
      change (2 ^ 54 * 2 ^ 52) with (2 ^ 53 * 2 ^ 53) in *. lia. }
  assert (Dq : 53 <= Zdigits2 q <= 54).
  { split.
    - destruct (Zdigits2_bounds q ltac:(lia)) as [_ U].
      destruct (Z_le_gt_dec 53 (Zdigits2 q)); [assumption | exfalso].
      pose proof (Zdigits2_nonneg q).
      assert (2 ^ Zdigits2 q <= 2 ^ 52) by (apply Z.pow_le_mono_r; lia). lia.
    - apply Zdigits2_le; lia. }
  assert (HE : e' <= E <= e' + 1 /\ E <= 0).
  { unfold E. rewrite fexp64_eq. lia. }
  set (T := 2 ^ (- E)).
  assert (HT : 0 < T) by (apply pow2_pos; lia).
  set (m1 := q / 2 ^ (E - e')) in *.
  pose proof (pow2_pos (E - e') ltac:(lia)) as PE.
  assert (Hm1 : m1 * 2 ^ (E - e') <= q).
  { unfold m1. rewrite Z.mul_comm. apply Z.mul_div_le. lia. }
  (* the quotient, scaled: [k * 2 ^ -e' <= q] *)
  assert (Pe : 2 ^ (- e') * 2 ^ (- eb) = 2 ^ (- ea) * 2 ^ 53).
  { rewrite <- !Z.pow_add_r by lia. f_equal. lia. }
  assert (Lq : k * 2 ^ (- e') <= q).
  { rewrite Hq. apply Z.div_le_lower_bound; [lia|].
    rewrite Hma, Hmb.
    replace (b * 2 ^ (- eb) * (k * 2 ^ (- e'))) with (k * b * (2 ^ (- e') * 2 ^ (- eb))) by ring.
    rewrite Pe. replace (a * 2 ^ (- ea) * 2 ^ 53) with (a * (2 ^ (- ea) * 2 ^ 53)) by ring.
    apply Z.mul_le_mono_nonneg_r; [|lia].
    apply Z.mul_nonneg_nonneg; [lia | apply Z.pow_nonneg; lia]. }
  assert (PT : T * 2 ^ (E - e') = 2 ^ (- e')).
  { unfold T. rewrite <- Z.pow_add_r by lia. f_equal. lia. }
  assert (Lm1 : k * T <= m1).
  { unfold m1. apply Z.div_le_lower_bound; [lia|].
    replace (2 ^ (E - e') * (k * T)) with (k * (T * 2 ^ (E - e'))) by ring.
    rewrite PT. exact Lq. }
  (* the divisor is below one unit of the result *)
  assert (BT : b < T).
  { assert (b < 2 ^ (eb + 53)).
    { destruct (Zdigits2_bounds b ltac:(lia)) as [_ U]. unfold eb.
      replace (Zdigits2 b - 53 + 53) with (Zdigits2 b) by lia. exact U. }
    assert (2 ^ (eb + 53) <= T) by (unfold T; apply Z.pow_le_mono_r; lia).
    lia. }
  assert (Um1 : m1 * b <= a * T).
  { assert (m1 * b * (2 ^ (E - e') * 2 ^ (- eb)) <= a * T * (2 ^ (E - e') * 2 ^ (- eb))).
    { replace (a * T * (2 ^ (E - e') * 2 ^ (- eb))) with (a * (T * 2 ^ (E - e')) * 2 ^ (- eb)) by ring.
      rewrite PT.
      replace (a * 2 ^ (- e') * 2 ^ (- eb)) with (a * (2 ^ (- e') * 2 ^ (- eb))) by ring.
      rewrite Pe.
      replace (a * (2 ^ (- ea) * 2 ^ 53)) with (Z.pos ma * 2 ^ 53) by (rewrite Hma; ring).
      replace (m1 * b * (2 ^ (E - e') * 2 ^ (- eb)))
        with (m1 * 2 ^ (E - e') * Z.pos mb) by (rewrite Hmb; ring).
      apply Z.le_trans with (q * Z.pos mb); [|lia].
      apply Z.mul_le_mono_nonneg_r; [lia | exact Hm1]. }
    assert (0 < 2 ^ (E - e') * 2 ^ (- eb)) by (apply Z.mul_pos_pos; lia).
    apply Z.mul_le_mono_pos_r with (2 ^ (E - e') * 2 ^ (- eb)); assumption. }
  assert (Um : m3 * 2 ^ (e3 - E) < (k + 1) * T).
  { assert (H1 : a * T <= ((k + 1) * b - 1) * T)
      by (apply Z.mul_le_mono_nonneg_r; lia).
    assert (H2 : (m1 + 1) * b < (k + 1) * T * b).
    { replace ((m1 + 1) * b) with (m1 * b + b) by ring.
      replace ((k + 1) * T * b) with (((k + 1) * b - 1) * T + T) by ring. lia. }
    assert (m1 + 1 < (k + 1) * T)
      by (apply Z.mul_lt_mono_pos_r with b; [lia | exact H2]).
    lia. }
  assert (Lm : k * T <= m3 * 2 ^ (e3 - E)) by lia.
  clear Hbetween Um1 Lm1 Hm1 Lq Hqm.
  pose proof (pow2_pos (e3 - E) ltac:(lia)) as P3.
  unfold finish. destruct m3 as [|p|p]; [| |lia].
  - intros _. left. split; [reflexivity|]. fold k.
    destruct (Z.eq_dec k 0) as [|Hk1]; [assumption | exfalso].
    assert (1 * T <= k * T) by (apply Z.mul_le_mono_nonneg_r; lia).
    lia.
  - replace (e3 <=? emax - prec) with true
      by (symmetry; apply Z.leb_le; change (emax - prec) with 971; lia).
    intros Hv. right. exists p, e3.
    destruct (valid_finite _ _ _ Hv) as [Hc3 _]. rewrite fexp64_eq in Hc3.
    assert (Hneg : e3 < 0).
    { destruct (Z_lt_ge_dec e3 0) as [|Hge]; [assumption | exfalso].
      assert (D3 : Z.pos (digits2_pos p) = 53) by lia.
      pose proof (digits2_pos_bounds p) as B. rewrite D3 in B.
      assert (T <= 2 ^ (e3 - E)) by (unfold T; apply Z.pow_le_mono_r; lia).
      assert (2 ^ 52 * T <= Z.pos p * 2 ^ (e3 - E)).
      { apply Z.le_trans with (2 ^ 52 * 2 ^ (e3 - E)).
        - apply Z.mul_le_mono_nonneg_l; lia.
        - apply Z.mul_le_mono_nonneg_r; lia. }
      assert (2 ^ 52 * T < (k + 1) * T) by lia.
      assert (2 ^ 52 < k + 1) by (apply Z.mul_lt_mono_pos_r with T; lia).
      assert (k <= a).
      { unfold k. apply Z.div_le_upper_bound; [lia|].
        replace a with (1 * a) at 1 by lia. apply Z.mul_le_mono_nonneg_r; lia. }
      lia. }
    split; [reflexivity|]. split; [split; [lia | exact Hneg]|]. fold k.
    pose proof (pow2_pos (- e3) ltac:(lia)) as Pe3.
    assert (PT3 : T = 2 ^ (- e3) * 2 ^ (e3 - E)).
    { unfold T. rewrite <- Z.pow_add_r by lia. f_equal. lia. }
    rewrite PT3 in Um, Lm.
    assert (L3 : k * 2 ^ (- e3) <= Z.pos p).
    { apply Z.mul_le_mono_pos_r with (2 ^ (e3 - E)); [exact P3|].
      replace (k * 2 ^ (- e3) * 2 ^ (e3 - E)) with (k * (2 ^ (- e3) * 2 ^ (e3 - E))) by ring.
      exact Lm. }
    assert (U3 : Z.pos p < (k + 1) * 2 ^ (- e3)).
    { apply Z.mul_lt_mono_pos_r with (2 ^ (e3 - E)); [exact P3|].
      replace ((k + 1) * 2 ^ (- e3) * 2 ^ (e3 - E))
        with ((k + 1) * (2 ^ (- e3) * 2 ^ (e3 - E))) by ring.
      exact Um. }
    apply Z.le_antisymm.
    + assert (Z.pos p / 2 ^ (- e3) < k + 1); [|lia].
      apply Z.div_lt_upper_bound; [exact Pe3|]. lia.
    + apply Z.div_le_lower_bound; [exact Pe3|]. lia.
Qed.

(** The floor of the quotient of two integers is their integer quotient. *)
Lemma floor_div_ofZ (a b : Z) :
  0 <= a < 2 ^ 52 -> 0 < b < 2 ^ 53 ->
  Math_floor (ofZ a / ofZ b) = ofZ (a / b).
Proof.
  intros Ha Hb. unfold Math_floor.
  destruct (Z.eq_dec a 0) as [->|Ha0].
  { destruct (ofZ_canonical b ltac:(lia)) as (mb & Hfb & _).
    rewrite Z.div_0_l by lia.
    rewrite div_spec, ofZ_0, Hfb. simpl. apply Prim2SF_inj.
    rewrite div_spec, ofZ_0, Hfb. reflexivity. }
  destruct (div_ofZ a b ltac:(lia) Hb) as [[Hz Hk]|(m & e & Hf & He & Hk)].
  - rewrite Hz, Hk. apply Prim2SF_inj. rewrite Hz. reflexivity.
  - rewrite Hf. destruct (Z.leb_spec 0 e); [lia|].
    simpl cond_Zopp. rewrite Z.shiftr_div_pow2 by lia. now rewrite Hk.
Qed.

(** ** The luminance of three bytes *)

Lemma atMostb_spec (N : Z) (x : spec_float) : atMostb N x = true -> atMost N x.
Proof.
  unfold atMostb, atMost. destruct x as [[|]|[|]| |[|] m e]; try discriminate.
  - intros H. apply Z.leb_le in H. now left.
  - intros H. apply andb_prop in H. destruct H as [H1 H2].
    apply Z.leb_le in H1, H2. right. now exists m, e.
Qed.

(** The sum of two such numbers, below [2 ^ B]: one rounding adds at most
    one unit of the last place of the numbers below [2 ^ B]. *)
Lemma SF64add_atMost (B Nx Ny : Z) (x y : spec_float) :
  atMost Nx x -> atMost Ny y ->
  -1021 <= B <= 1000 -> Nx + Ny < 2 ^ (B + 1074) ->
  atMost (Nx + Ny + 2 ^ (B + 1021)) (SF64add x y).
Proof.
  intros Hx Hy HB Hsum.
  pose proof (pow2_pos (B + 1021) ltac:(lia)) as PB.
  destruct Hx as [[-> Hx0]|(mx & ex & -> & Hex & Hvx)];
    destruct Hy as [[-> Hy0]|(my & ey & -> & Hey & Hvy)].
  - left. split; [reflexivity | lia].
  - right. exists my, ey. split; [reflexivity|]. split; lia.
  - right. exists mx, ex. split; [reflexivity|]. split; lia.
  - unfold SF64add, SFadd. cbv zeta.
    set (e0 := Z.min ex ey).
    destruct (shl_align_spec mx ex e0) as (ax & -> & Hax & _).
    destruct (shl_align_spec my ey e0) as (ay & -> & Hay & _).
    rewrite !Z.min_r in * by (unfold e0; lia).
    simpl fst. simpl cond_Zopp.
    change (Z.pos ax + Z.pos ay) with (Z.pos (ax + ay)). simpl binary_normalize.
    assert (He0 : -1074 <= e0) by (unfold e0; lia).
    assert (Hs : Z.pos (ax + ay) * 2 ^ (e0 + 1074) <= Nx + Ny).
    { rewrite Pos2Z.inj_add, Hax, Hay.
      replace ((Z.pos mx * 2 ^ (ex - e0) + Z.pos my * 2 ^ (ey - e0)) * 2 ^ (e0 + 1074))
        with (Z.pos mx * (2 ^ (ex - e0) * 2 ^ (e0 + 1074))
              + Z.pos my * (2 ^ (ey - e0) * 2 ^ (e0 + 1074))) by ring.
      rewrite <- !Z.pow_add_r by (unfold e0; lia).
      replace (ex - e0 + (e0 + 1074)) with (ex + 1074) by lia.
      replace (ey - e0 + (e0 + 1074)) with (ey + 1074) by lia. lia. }
    set (s := (ax + ay)%positive) in *.
    unfold binary_round.
    set (F := fexp64 (Z.pos (digits2_pos s) + e0)).
    destruct (shl_align_spec s e0 F) as (mz & -> & Hmz & Hdz).
    set (ez := Z.min e0 F) in *.
    destruct (binary_round_aux_between false (Z.pos mz) ez loc_Exact ltac:(lia))
      as (m3 & e3 & -> & Hm3 & He3 & Hb).
    cbv zeta in He3, Hb. simpl Zdigits2 in He3, Hb. rewrite Hdz in He3, Hb. fold F in He3, Hb.
    assert (HF : -1074 <= F) by (unfold F; rewrite fexp64_eq; lia).
    replace (Z.max ez F) with F in * by (unfold ez; lia).
    (* the magnitude of the sum *)
    assert (HFB : F <= B - 53).
    { assert (Z.pos (digits2_pos s) + e0 <= B); [|unfold F; rewrite fexp64_eq; lia].
      change (Z.pos (digits2_pos s)) with (Zdigits2 (Z.pos s)).
      assert (Zdigits2 (Z.pos s) <= B - e0); [|lia].
      pose proof (pow2_pos (e0 + 1074) ltac:(lia)) as P0.
      destruct (Z_le_gt_dec 0 (B - e0)) as [Hpos|Hneg].
      - apply Zdigits2_le; [lia | lia |].
        apply Z.mul_lt_mono_pos_r with (2 ^ (e0 + 1074)); [exact P0|].
        rewrite <- Z.pow_add_r by lia. replace (B - e0 + (e0 + 1074)) with (B + 1074) by lia.
        lia.
      - exfalso.
        assert (2 ^ (B + 1074) <= 2 ^ (e0 + 1074)) by (apply Z.pow_le_mono_r; lia).
        assert (1 * 2 ^ (e0 + 1074) <= Z.pos s * 2 ^ (e0 + 1074))
          by (apply Z.mul_le_mono_nonneg_r; lia).
        lia. }
    unfold finish. destruct m3 as [|p|p]; [left; split; [reflexivity | lia] | | lia].
    replace (e3 <=? emax - prec) with true
      by (symmetry; apply Z.leb_le; change (emax - prec) with 971; lia).
    right. exists p, e3. split; [reflexivity|]. split; [lia|].
    pose proof (pow2_pos (e3 - F) ltac:(lia)) as P3.
    pose proof (pow2_pos (F - ez) ltac:(unfold ez; lia)) as PF.
    pose proof (pow2_pos (F + 1074) ltac:(lia)) as PF2.
    assert (Hcut : Z.pos mz / 2 ^ (F - ez) * 2 ^ (F - ez) <= Z.pos mz).
    { rewrite Z.mul_comm. apply Z.mul_div_le. exact PF. }
    (* [p * 2 ^ (e3 - F) <= mz / 2 ^ (F - ez) + 1], scaled by [2 ^ (F + 1074)] *)
    replace (e3 + 1074) with ((e3 - F) + (F + 1074)) by lia.
    rewrite Z.pow_add_r by lia. rewrite Z.mul_assoc.
    apply Z.le_trans with ((Z.pos mz / 2 ^ (F - ez) + 1) * 2 ^ (F + 1074)).
    { apply Z.mul_le_mono_nonneg_r; lia. }
    rewrite Z.mul_add_distr_r, Z.mul_1_l.
    assert (Hmain : Z.pos mz / 2 ^ (F - ez) * 2 ^ (F + 1074) <= Nx + Ny).
    { replace (F + 1074) with ((F - ez) + (ez + 1074)) by lia.
      rewrite Z.pow_add_r by (unfold ez; lia). rewrite Z.mul_assoc.
      apply Z.le_trans with (Z.pos mz * 2 ^ (ez + 1074)).
      - apply Z.mul_le_mono_nonneg_r; [apply Z.pow_nonneg; lia | exact Hcut].
      - rewrite Hmz, <- Z.mul_assoc, <- Z.pow_add_r by (unfold ez; lia).
        replace (e0 - ez + (ez + 1074)) with (e0 + 1074) by lia. exact Hs. }
    assert (2 ^ (F + 1074) <= 2 ^ (B + 1021)) by (apply Z.pow_le_mono_r; lia).
    lia.
Qed.

(** [Math.round] of a number that is not negative and below 255.5. *)
Lemma Math_round_atMost (N : Z) (x : float) :
  atMost N (Prim2SF x) -> N < 511 * 2 ^ 1073 ->
  exists n, 0 <= n <= 255 /\ Math_round x = ofZ n.
Proof.
  intros Hx HN. pose proof (Prim2SF_valid x) as Hv. unfold Math_round.
  destruct Hx as [[Hz _]|(m & e & Hf & He & Hval)].
  - exists 0. split; [lia|]. rewrite Hz. apply Prim2SF_inj. rewrite Hz. reflexivity.
  - rewrite Hf in Hv |- *.
    destruct (valid_finite _ _ _ Hv) as [Hc _]. rewrite fexp64_eq in Hc.
    destruct (Z.leb_spec 0 e) as [Hpos|Hneg].
    + exfalso.
      assert (D : Z.pos (digits2_pos m) = 53) by lia.
      pose proof (digits2_pos_bounds m) as B. rewrite D in B.
      assert (2 ^ 52 * 2 ^ 1074 <= Z.pos m * 2 ^ (e + 1074)).
      { apply Z.le_trans with (2 ^ 52 * 2 ^ (e + 1074)).
        - apply Z.mul_le_mono_nonneg_l; [lia|]. apply Z.pow_le_mono_r; lia.
        - apply Z.mul_le_mono_nonneg_r; [apply Z.pow_nonneg|]; lia. }
      assert (511 * 2 ^ 1073 < 2 ^ 52 * 2 ^ 1074) by (vm_compute; reflexivity).
      lia.
    + simpl cond_Zopp. rewrite andb_false_r.
      rewrite Z.shiftr_div_pow2 by lia.
      pose proof (pow2_pos (- e) ltac:(lia)) as Pe.
      assert (P1 : 2 ^ (- e + 1) = 2 * 2 ^ (- e)).
      { rewrite Z.pow_add_r by lia. change (2 ^ 1) with 2. ring. }
      rewrite P1.
      exists ((2 * Z.pos m + 2 ^ (- e)) / (2 * 2 ^ (- e))). split; [|reflexivity].
      split; [apply Z.div_pos; lia|].
      assert ((2 * Z.pos m + 2 ^ (- e)) / (2 * 2 ^ (- e)) < 256); [|lia].
      apply Z.div_lt_upper_bound; [lia|].
      assert (Hs : 2 * Z.pos m < 511 * 2 ^ (- e)).
      { apply Z.mul_lt_mono_pos_r with (2 ^ (e + 1074)); [apply pow2_pos; lia|].
        replace (511 * 2 ^ (- e) * 2 ^ (e + 1074)) with (511 * (2 ^ (- e) * 2 ^ (e + 1074))) by ring.
        rewrite <- Z.pow_add_r by lia. replace (- e + (e + 1074)) with 1074 by lia.
        replace (511 * 2 ^ 1074) with (2 * (511 * 2 ^ 1073)) by (vm_compute; reflexivity).
        lia. }
      lia.
Qed.

(** The three products of the luminance formula on a byte. *)
Lemma weights_atMost (v : Z) :
  0 <= v <= 255 ->
  atMost (305 * 2 ^ 1072) (Prim2SF (0.299 * ofZ v)%float)
  /\ atMost (599 * 2 ^ 1072) (Prim2SF (0.587 * ofZ v)%float)
  /\ atMost (233 * 2 ^ 1071) (Prim2SF (0.114 * ofZ v)%float).
Proof.
  intros Hv.
  assert (H : forallb
                (fun v => atMostb (305 * 2 ^ 1072) (Prim2SF (0.299 * ofZ v)%float)
                          && atMostb (599 * 2 ^ 1072) (Prim2SF (0.587 * ofZ v)%float)
                          && atMostb (233 * 2 ^ 1071) (Prim2SF (0.114 * ofZ v)%float))
                (range 256) = true) by (vm_compute; reflexivity).
  rewrite forallb_forall in H. specialize (H v ltac:(apply range_In; lia)).
  apply andb_prop in H. destruct H as [H H3]. apply andb_prop in H. destruct H as [H1 H2].
  repeat split; apply atMostb_spec; assumption.
Qed.

(** The luminance of three bytes is an integer between 0 and 255. *)
Lemma luminance_range (r g b : Z) :
  0 <= r <= 255 -> 0 <= g <= 255 -> 0 <= b <= 255 ->
  exists n, 0 <= n <= 255 /\ luminance (ofZ r) (ofZ g) (ofZ b) = ofZ n.
Proof.
  intros Hr Hg Hb. unfold luminance.
  destruct (weights_atMost r Hr) as (Wr & _ & _).
  destruct (weights_atMost g Hg) as (_ & Wg & _).
  destruct (weights_atMost b Hb) as (_ & _ & Wb).
  apply (Math_round_atMost
           (305 * 2 ^ 1072 + 599 * 2 ^ 1072 + 2 ^ (9 + 1021) + 233 * 2 ^ 1071 + 2 ^ (9 + 1021))).
  - rewrite add_spec. apply (SF64add_atMost 9); [| exact Wb | lia | vm_compute; reflexivity].
    rewrite add_spec. apply (SF64add_atMost 9); [exact Wr | exact Wg | lia | vm_compute; reflexivity].
  - vm_compute. reflexivity.
Qed.

(** ** The ramp glyph of an integer brightness *)

(** An integer used as an array index names the element of that rank. *)
Lemma arrayIndex_ofZ (n : Z) : 0 <= n < 2 ^ 53 -> arrayIndex (ofZ n) = Some n.
Proof.
  intros Hn. unfold arrayIndex.
  destruct (Z.eq_dec n 0) as [->|Hn0]; [reflexivity|].
  destruct (ofZ_canonical n ltac:(lia)) as (m & -> & Hm & _ & He).
  set (e := Zdigits2 n - 53) in *.
  pose proof (pow2_pos (- e) ltac:(lia)) as Pe.
  destruct (Z.leb_spec 0 e) as [Hpos|Hneg].
  - assert (e = 0) by lia. rewrite H in *. simpl in Hm. rewrite Z.shiftl_0_r. f_equal. lia.
  - rewrite Z.shiftr_div_pow2, Z.shiftl_mul_pow2 by lia.
    rewrite Hm, Z.div_mul by lia. rewrite Z.eqb_refl. reflexivity.
Qed.

Lemma ofZ_255 : ofZ 255 = 255%float.
Proof. vm_compute. reflexivity. Qed.

Lemma ofZ_256 : ofZ 256 = 256%float.
Proof. vm_compute. reflexivity. Qed.

Lemma ofZ_1 : ofZ 1 = 1%float.
Proof. vm_compute. reflexivity. Qed.

Lemma ofZ_zero : ofZ 0 = 0%float.
Proof. vm_compute. reflexivity. Qed.

(** The glyph of the ramp for an integer brightness [c] between 1 and 255
    and a ramp of [N] glyphs: the glyph of rank [floor (c * N / 256)], which
    is inside the ramp. *)
Lemma rampChar_ofZ (settings : Settings) (c : Z) :
  let ramp := asciiChars settings in
  let N := Z.of_nat (String.length ramp) in
  1 <= c <= 255 -> 1 <= N < 2 ^ 44 ->
  exists ch,
    String.get (Z.to_nat (c * N / 256)) ramp = Some ch
    /\ rampChar settings (ofZ c) = JString (String ch EmptyString).
Proof.
  intros ramp N Hc HN.
  assert (Hidx : 0 <= c * N / 256 < N).
  { split; [apply Z.div_pos; nia|]. apply Z.div_lt_upper_bound; nia. }
  destruct (String.get (Z.to_nat (c * N / 256)) ramp) as [ch|] eqn:Hget.
  2:{ exfalso. clear -Hget Hidx.
      assert (H : forall (s : string) (k : nat), (k < String.length s)%nat -> String.get k s <> None).
      { induction s as [|a s IH]; intros k Hk; simpl in *; [lia|].
        destruct k; [discriminate|]. apply IH. lia. }
      apply (H ramp (Z.to_nat (c * N / 256))); [|exact Hget]. unfold N in *. lia. }
  exists ch. split; [reflexivity|].
  unfold rampChar. fold ramp. rewrite <- ofZ_zero, ofZ_eqb by lia.
  destruct (Z.eqb_spec c 0); [lia|].
  cbv zeta. fold N.
  rewrite ofZ_mul by nia.
  rewrite <- ofZ_256, floor_div_ofZ by nia.
  rewrite <- ofZ_1, ofZ_sub by lia.
  rewrite Math_min_ofZ by lia.
  rewrite Z.min_l by lia.
  unfold charAt. rewrite arrayIndex_ofZ by lia. rewrite Hget. reflexivity.
Qed.

(** What [Math.floor] returns: a zero, an infinity or NaN; a negative
    number; a number of exponent 0 or more, at least 2^52; or an integer
    that is not negative, below 2^53. *)
Lemma Math_floor_cases (u : float) :
  let y := Math_floor u in
  (exists s, Prim2SF y = S754_zero s)
  \/ (exists s, Prim2SF y = S754_infinity s)
  \/ (Prim2SF u = S754_nan /\ Prim2SF y = S754_nan)
  \/ (exists m e, Prim2SF y = S754_finite true m e)
  \/ (exists m e, Prim2SF y = S754_finite false m e /\ 0 <= e)
  \/ (exists n, 0 <= n < 2 ^ 53 /\ y = ofZ n).
Proof.
  cbv zeta. unfold Math_floor. pose proof (Prim2SF_valid u) as Hv.
  destruct (Prim2SF u) as [s|s| |s m e] eqn:Hu.
  - left. exists s. exact Hu.
  - right. left. exists s. exact Hu.
  - right. right. left. split; [reflexivity | exact Hu].
  - destruct (Z.leb_spec 0 e) as [Hpos|Hneg].
    + destruct s.
      * right. right. right. left. exists m, e. exact Hu.
      * right. right. right. right. left. exists m, e. split; [exact Hu | exact Hpos].
    + destruct (valid_finite _ _ _ Hv) as [Hc _]. rewrite fexp64_eq in Hc.
      pose proof (Pos2Z.is_pos (digits2_pos m)) as Hd.
      assert (Bm : Z.pos m < 2 ^ 53) by (apply (Zdigits2_lt_pow (Z.pos m)); simpl; lia).
      pose proof (pow2_pos (- e) ltac:(lia)) as Pe.
      rewrite Z.shiftr_div_pow2 by lia.
      destruct s; simpl cond_Zopp.
      * right. right. right. left.
        set (c := - (Z.neg m / 2 ^ (- e))).
        assert (Hc1 : 1 <= c < 2 ^ 53).
        { unfold c.
          assert (Z.neg m / 2 ^ (- e) < 0) by (apply Z.div_lt_upper_bound; lia).
          assert (- 2 ^ 53 < Z.neg m / 2 ^ (- e)); [|lia].
          assert (- 2 ^ 53 + 1 <= Z.neg m / 2 ^ (- e)); [|lia].
          apply Z.div_le_lower_bound; [lia|].
          assert (1 * (2 ^ 53 - 1) <= 2 ^ (- e) * (2 ^ 53 - 1))
            by (apply Z.mul_le_mono_nonneg_r; lia).
          lia. }
        replace (Z.neg m / 2 ^ (- e)) with (cond_Zopp true (Z.pos (Z.to_pos c))).
        2:{ unfold cond_Zopp. rewrite Z2Pos.id by lia. unfold c. lia. }
        destruct (Prim2SF_ofZ true (Z.to_pos c)) as (mz & ez & Hof & _).
        { rewrite Z2Pos.id by lia. lia. }
        exists mz, ez. exact Hof.
      * right. right. right. right. right.
        exists (Z.pos m / 2 ^ (- e)). split; [|reflexivity].
        split; [apply Z.div_pos; lia|].
        apply Z.div_lt_upper_bound; [lia|].
        assert (1 * 2 ^ 53 <= 2 ^ (- e) * 2 ^ 53) by (apply Z.mul_le_mono_nonneg_r; lia).
        lia.
Qed.

Lemma Prim2SF_zero : Prim2SF 0 = S754_zero false.
Proof. reflexivity. Qed.

(** The clamp of [selectAsciiChar]: NaN for NaN, and otherwise an integer
    between 0 and 255. *)
Lemma clamp_cases (u : float) :
  let z := Math_max 0 (Math_min 255 (Math_floor u)) in
  (Prim2SF u = S754_nan /\ z = nan) \/ exists c, 0 <= c <= 255 /\ z = ofZ c.
Proof.
  cbv zeta. set (y := Math_floor u).
  assert (G255 : get_sign 255 = false) by (vm_compute; reflexivity).
  assert (G0 : get_sign 0 = false) by (vm_compute; reflexivity).
  assert (N255 : is_nan 255 = false) by (vm_compute; reflexivity).
  assert (N0 : is_nan 0 = false) by (vm_compute; reflexivity).
  assert (Hlow : forall sy, Prim2SF y = sy ->
             SFeqb sy sy = true -> SFltb (Prim2SF 255) sy = false ->
             SFltb sy (Prim2SF 255) = true ->
             SFltb (Prim2SF 0) sy = false ->
             Math_max 0 (Math_min 255 y) = 0%float).
  { intros sy Hy Heq H1 H2 H3. unfold Math_min.
    rewrite N255. unfold is_nan at 1. rewrite eqb_spec, !ltb_spec, Hy, Heq, H1, H2.
    simpl. unfold Math_max. rewrite N0. unfold is_nan. rewrite eqb_spec, !ltb_spec, Hy, Heq, H3.
    simpl. destruct (SFltb sy (Prim2SF 0)); [reflexivity|]. try rewrite G0. reflexivity. }
  assert (Hhigh : forall sy, Prim2SF y = sy ->
             SFeqb sy sy = true -> SFltb (Prim2SF 255) sy = true ->
             Math_max 0 (Math_min 255 y) = 255%float).
  { intros sy Hy Heq H1. unfold Math_min.
    rewrite N255. unfold is_nan at 1. rewrite eqb_spec, !ltb_spec, Hy, Heq, H1.
    simpl. vm_compute. reflexivity. }
  destruct (Math_floor_cases u) as [[s Hy]|[[s Hy]|[[Hu Hy]|[(m & e & Hy)|[(m & e & Hy & He)|(n & Hn & Hy)]]]]];
    fold y in Hy.
  - right. exists 0. split; [lia|]. rewrite ofZ_zero.
    apply (Hlow _ Hy); destruct s; reflexivity.
  - destruct s.
    + right. exists 0. split; [lia|]. rewrite ofZ_zero. apply (Hlow _ Hy); reflexivity.
    + right. exists 255. split; [lia|]. rewrite ofZ_255. apply (Hhigh _ Hy); reflexivity.
  - left. split; [exact Hu|].
    unfold Math_min. rewrite N255. unfold is_nan at 1. rewrite eqb_spec, Hy. simpl.
    vm_compute. reflexivity.
  - right. exists 0. split; [lia|]. rewrite ofZ_zero.
    apply (Hlow _ Hy); try reflexivity.
    unfold SFeqb, SFcompare. rewrite Z.compare_refl, Pos.compare_cont_refl. reflexivity.
  - right. exists 255. split; [lia|]. rewrite ofZ_255.
    apply (Hhigh _ Hy).
    + unfold SFeqb, SFcompare. rewrite Z.compare_refl, Pos.compare_cont_refl. reflexivity.
    + rewrite Prim2SF_255. unfold SFltb, SFcompare.
      replace (-45 ?= e) with Lt; [reflexivity|]. symmetry. apply Z.compare_lt_iff. lia.
  - right. exists (Z.max 0 (Z.min 255 n)). split; [lia|].
    rewrite Hy, <- ofZ_255, <- ofZ_zero.
    rewrite Math_min_ofZ by lia. rewrite Math_max_ofZ by lia. reflexivity.
Qed.

(** A finite number is a zero or has a mantissa and an exponent. *)
Lemma is_finite_SF (x : float) :
  is_finite x = true ->
  (exists s, Prim2SF x = S754_zero s) \/ (exists s m e, Prim2SF x = S754_finite s m e).
Proof.
  unfold is_finite, is_nan, is_infinity. rewrite !eqb_spec, abs_spec.
  destruct (Prim2SF x) as [s|s| |s m e].
  - intros _. left. now exists s.
  - intros H. destruct s; vm_compute in H; discriminate H.
  - intros H. vm_compute in H. discriminate H.
  - intros _. right. now exists s, m, e.
Qed.

(** The product of an integer and a finite number is not NaN. *)
Lemma mul_ofZ_not_nan (k : Z) (b : float) :
  0 <= k < 2 ^ 53 -> is_finite b = true -> Prim2SF (ofZ k * b) <> S754_nan.
Proof.
  intros Hk Hb. rewrite mul_spec.
  assert (Hk' : Prim2SF (ofZ k) = S754_zero false
                \/ exists m e, Prim2SF (ofZ k) = S754_finite false m e).
  { destruct (Z.eq_dec k 0) as [->|]; [left; reflexivity|].
    destruct (ofZ_canonical k ltac:(lia)) as (m & H & _). right. eauto. }
  destruct (is_finite_SF b Hb) as [[s ->]|(s & m & e & ->)];
    destruct Hk' as [->|(mk & ek & ->)]; try discriminate.
  unfold SF64mul, SFmul.
  destruct (binary_round_aux_spec (xorb false s) (Z.pos (mk * m)) (ek + e) loc_Exact ltac:(lia))
    as (m3 & e3 & -> & Hm3 & _).
  unfold finish. destruct m3 as [|p|p]; [discriminate | | lia].
  destruct (e3 <=? emax - prec); discriminate.
Qed.

(** ** The sums of a block *)

Lemma sumOver_app (f : Z -> Z) (a b : list Z) :
  sumOver f (a ++ b) = sumOver f a + sumOver f b.
Proof. unfold sumOver. induction a as [|x a IH]; simpl; lia. Qed.

Lemma sumOver_bounds (f : Z -> Z) (lo hi : Z) (l : list Z) :
  (forall p, In p l -> lo <= f p <= hi) ->
  lo * Z.of_nat (List.length l) <= sumOver f l <= hi * Z.of_nat (List.length l).
Proof.
  unfold sumOver. induction l as [|p l IH]; intros H; simpl fold_right; simpl List.length.
  - lia.
  - specialize (IH ltac:(intros; apply H; now right)).
    specialize (H p ltac:(now left)). lia.
Qed.

Lemma ToUint8_ofZ (n : Z) : 0 <= n <= 255 -> ToUint8 (ofZ n) = n.
Proof.
  intros Hn.
  assert (H : forallb (fun n => ToUint8 (ofZ n) =? n) (range 256) = true)
    by (vm_compute; reflexivity).
  rewrite forallb_forall in H. apply Z.eqb_eq, H, range_In. lia.
Qed.

Section BlockSums.

Variable settings : Settings.
Variable imageData : ImageData.
Variable edgeData : option EdgeData.
Hypothesis imageData_wf : wellFormed imageData = true.

Lemma wellFormed_bytes (i : Z) :
  0 <= i < width imageData * height imageData * 4 ->
  0 <= nth (Z.to_nat i) (data imageData) 0 <= 255
  /\ readZ (data imageData) i = ofZ (nth (Z.to_nat i) (data imageData) 0).
Proof.
  intros Hi. destruct (wellFormed_length imageData imageData_wf) as (Hw & Hh & Hlen).
  assert (Hb : forallb (fun v => (0 <=? v) && (v <=? 255)) (data imageData) = true).
  { unfold wellFormed in imageData_wf.
    apply andb_prop in imageData_wf. destruct imageData_wf as [_ H]. exact H. }
  rewrite forallb_forall in Hb.
  destruct (nth_error (data imageData) (Z.to_nat i)) as [v|] eqn:E.
  2:{ apply nth_error_None in E. lia. }
  rewrite (nth_error_nth _ _ 0 E).
  specialize (Hb v (nth_error_In _ _ E)).
  apply andb_prop in Hb. destruct Hb as [B1 B2]. apply Z.leb_le in B1, B2.
  split; [lia|]. unfold readZ. destruct (Z.ltb_spec i 0); [lia|]. now rewrite E.
Qed.

(** The gray level [rgbToGrayscale] stores for a pixel is the luminance
    [calculateBlockInfo] computes for it. *)
Lemma rgbToGrayscale_luminance (p : Z) :
  0 <= p < width imageData * height imageData ->
  let gray := nth (Z.to_nat p) (rgbToGrayscale imageData) 0 in
  0 <= gray <= 255
  /\ luminance (readZ (data imageData) (4 * p))
               (readZ (data imageData) (4 * p + 1))
               (readZ (data imageData) (4 * p + 2)) = ofZ gray.
Proof.
  intros Hp gray.
  destruct (wellFormed_length imageData imageData_wf) as (Hw & Hh & Hlen).
  destruct (wellFormed_bytes (4 * p) ltac:(lia)) as [Br Hr].
  destruct (wellFormed_bytes (4 * p + 1) ltac:(lia)) as [Bg Hg].
  destruct (wellFormed_bytes (4 * p + 2) ltac:(lia)) as [Bb Hb].
  destruct (luminance_range _ _ _ Br Bg Bb) as (n & Hn & Hlum).
  assert (Hgray : gray = n).
  { unfold gray, rgbToGrayscale. cbv zeta.
    erewrite nth_error_nth.
    2:{ rewrite nth_error_map, range_nth_error by lia. cbn [option_map]. reflexivity. }
    rewrite Z2Nat.id by lia.
    destruct (Z.ltb_spec (4 * p) (Z.of_nat (List.length (data imageData)))); [|lia].
    rewrite Hr, Hg, Hb, Hlum. apply ToUint8_ofZ. exact Hn. }
  rewrite Hgray, Hr, Hg, Hb. split; [exact Hn | exact Hlum].
Qed.

(** One pixel more: every sum grows by a byte, exactly. *)
Lemma blockStep_sums (x y dy dx sb sr sg sl : Z) (info : BlockInfo) :
  0 <= x + dx < width imageData -> 0 <= y + dy < height imageData ->
  0 <= sb < 2 ^ 52 -> 0 <= sr < 2 ^ 52 -> 0 <= sg < 2 ^ 52 -> 0 <= sl < 2 ^ 52 ->
  blockSums settings sb sr sg sl info ->
  let p := (y + dy) * width imageData + (x + dx) in
  blockSums settings (sb + grayLevel imageData p) (sr + channel imageData 0 p) (sg + channel imageData 1 p)
            (sl + channel imageData 2 p)
            (blockStep settings imageData x y edgeData dy dx info).
Proof.
  intros Hx Hy Hsb Hsr Hsg Hsl [Hb Hc] p.
  destruct (wellFormed_length imageData imageData_wf) as (Hw & Hh & Hlen).
  assert (Hp : 0 <= p < width imageData * height imageData) by (unfold p; nia).
  destruct (rgbToGrayscale_luminance p Hp) as [Bgray Hlum]. fold (grayLevel imageData p) in Bgray, Hlum.
  destruct (wellFormed_bytes (4 * p) ltac:(lia)) as [Br Hr].
  destruct (wellFormed_bytes (4 * p + 1) ltac:(lia)) as [Bg Hg].
  destruct (wellFormed_bytes (4 * p + 2) ltac:(lia)) as [Bl Hl].
  unfold blockStep. cbv zeta. fold p.
  replace (_ || _ || _) with false.
  2:{ symmetry. rewrite !orb_false_iff. repeat split.
      - lia.
      - lia.
      - apply Z.leb_gt. rewrite Hlen. lia. }
  replace (p * 4) with (4 * p) by lia.
  rewrite Hc. unfold blockSums. cbn [sumBrightness sumColor].
  destruct (color settings).
  - cbn [sumBrightness sumColor]. rewrite Hb, Hlum, Hr, Hg, Hl.
    unfold channel. replace (4 * p + 0) with (4 * p) by lia.
    rewrite !ofZ_add by lia. split; reflexivity.
  - cbn [sumBrightness sumColor]. rewrite Hb, Hlum, ofZ_add by lia. split; reflexivity.
Qed.

Lemma gray_range (p : Z) : 0 <= grayLevel imageData p <= 255.
Proof.
  unfold grayLevel. destruct (rgbToGrayscale_bytes imageData) as [_ Hb].
  rewrite Forall_forall in Hb.
  destruct (nth_in_or_default (Z.to_nat p) (rgbToGrayscale imageData) 0) as [Hin | ->];
    [apply Hb, Hin | lia].
Qed.

Lemma channel_range (c p : Z) : 0 <= channel imageData c p <= 255.
Proof.
  unfold channel.
  assert (Hb : forallb (fun v => (0 <=? v) && (v <=? 255)) (data imageData) = true).
  { unfold wellFormed in imageData_wf.
    apply andb_prop in imageData_wf. destruct imageData_wf as [_ H]. exact H. }
  rewrite forallb_forall in Hb.
  destruct (nth_in_or_default (Z.to_nat (4 * p + c)) (data imageData) 0) as [Hin | ->]; [|lia].
  specialize (Hb _ Hin). apply andb_prop in Hb. destruct Hb as [B1 B2].
  apply Z.leb_le in B1, B2. lia.
Qed.

(** The loop over the pixels of one row of the block. *)
Lemma blockRow_sums (x y dy : Z) (dxs : list Z) :
  0 <= y + dy < height imageData ->
  (forall dx, In dx dxs -> 0 <= x + dx < width imageData) ->
  forall (sb sr sg sl : Z) (info : BlockInfo),
    let pixels := map (fun dx => (y + dy) * width imageData + (x + dx)) dxs in
    let n := 255 * Z.of_nat (List.length dxs) in
    0 <= sb -> sb + n < 2 ^ 52 -> 0 <= sr -> sr + n < 2 ^ 52 ->
    0 <= sg -> sg + n < 2 ^ 52 -> 0 <= sl -> sl + n < 2 ^ 52 ->
    blockSums settings sb sr sg sl info ->
    blockSums settings (sb + sumOver (grayLevel imageData) pixels) (sr + sumOver (channel imageData 0) pixels)
              (sg + sumOver (channel imageData 1) pixels)
              (sl + sumOver (channel imageData 2) pixels)
              (fold_left (fun info dx => blockStep settings imageData x y edgeData dy dx info)
                         dxs info).
Proof.
  intros Hy. induction dxs as [|dx dxs IH]; intros Hx sb sr sg sl info pixels n.
  - intros. unfold pixels, sumOver. simpl. now rewrite !Z.add_0_r.
  - intros Hb0 Hb Hr0 Hr Hg0 Hg Hl0 Hl Hinv.
    unfold n in *. cbn [List.length] in *. cbn [fold_left].
    set (p := (y + dy) * width imageData + (x + dx)).
    pose proof (gray_range p). pose proof (channel_range 0 p).
    pose proof (channel_range 1 p). pose proof (channel_range 2 p).
    pose proof (blockStep_sums x y dy dx sb sr sg sl info
                  (Hx dx (or_introl eq_refl)) Hy
                  ltac:(lia) ltac:(lia) ltac:(lia) ltac:(lia) Hinv) as Hstep.
    cbv zeta in Hstep. fold p in Hstep.
    specialize (IH (fun d Hd => Hx d (or_intror Hd))
                   (sb + grayLevel imageData p) (sr + channel imageData 0 p)
                   (sg + channel imageData 1 p) (sl + channel imageData 2 p)
                   (blockStep settings imageData x y edgeData dy dx info)).
    cbv zeta in IH.
    specialize (IH ltac:(lia) ltac:(lia) ltac:(lia) ltac:(lia)
                   ltac:(lia) ltac:(lia) ltac:(lia) ltac:(lia) Hstep).
    unfold pixels. simpl map. fold p.
    unfold sumOver in *. simpl map. simpl fold_right.
    rewrite !Z.add_assoc. exact IH.
Qed.

(** The two loops over the pixels of the block. *)
Lemma blockRows_sums (x y : Z) (dxs dys : list Z) :
  (forall dx, In dx dxs -> 0 <= x + dx < width imageData) ->
  (forall dy, In dy dys -> 0 <= y + dy < height imageData) ->
  forall (sb sr sg sl : Z) (info : BlockInfo),
    let pixels :=
      flat_map (fun dy => map (fun dx => (y + dy) * width imageData + (x + dx)) dxs) dys in
    let n := 255 * (Z.of_nat (List.length dys) * Z.of_nat (List.length dxs)) in
    0 <= sb -> sb + n < 2 ^ 52 -> 0 <= sr -> sr + n < 2 ^ 52 ->
    0 <= sg -> sg + n < 2 ^ 52 -> 0 <= sl -> sl + n < 2 ^ 52 ->
    blockSums settings sb sr sg sl info ->
    blockSums settings (sb + sumOver (grayLevel imageData) pixels) (sr + sumOver (channel imageData 0) pixels)
              (sg + sumOver (channel imageData 1) pixels)
              (sl + sumOver (channel imageData 2) pixels)
              (fold_left
                 (fun info dy =>
                    fold_left (fun info dx => blockStep settings imageData x y edgeData dy dx info)
                              dxs info)
                 dys info).
Proof.
  intros Hx. induction dys as [|dy dys IH]; intros Hy sb sr sg sl info pixels n.
  - intros. unfold pixels, sumOver. simpl. now rewrite !Z.add_0_r.
  - intros Hb0 Hb Hr0 Hr Hg0 Hg Hl0 Hl Hinv.
    unfold n in *. cbn [List.length] in *. cbn [fold_left].
    set (row := map (fun dx => (y + dy) * width imageData + (x + dx)) dxs).
    assert (Hrow : forall f, (forall p, 0 <= f p <= 255) ->
                             0 <= sumOver f row <= 255 * Z.of_nat (List.length dxs)).
    { intros f Hf.
      pose proof (sumOver_bounds f 0 255 row (fun p _ => Hf p)) as B.
      unfold row in B |- *. rewrite length_map in B. lia. }
    pose proof (Hrow (grayLevel imageData) gray_range). pose proof (Hrow _ (channel_range 0)).
    pose proof (Hrow _ (channel_range 1)). pose proof (Hrow _ (channel_range 2)).
    assert (Hnn : 0 <= Z.of_nat (List.length dys) * Z.of_nat (List.length dxs)) by nia.
    pose proof (blockRow_sums x y dy dxs (Hy dy (or_introl eq_refl)) Hx sb sr sg sl info)
      as Hstep.
    cbv zeta in Hstep. fold row in Hstep.
    specialize (Hstep ltac:(lia) ltac:(nia) ltac:(lia) ltac:(nia)
                      ltac:(lia) ltac:(nia) ltac:(lia) ltac:(nia) Hinv).
    specialize (IH (fun d Hd => Hy d (or_intror Hd))
                   (sb + sumOver (grayLevel imageData) row) (sr + sumOver (channel imageData 0) row)
                   (sg + sumOver (channel imageData 1) row)
                   (sl + sumOver (channel imageData 2) row)
                   (fold_left (fun info dx => blockStep settings imageData x y edgeData dy dx info)
                              dxs info)).
    cbv zeta in IH.
    specialize (IH ltac:(lia) ltac:(nia) ltac:(lia) ltac:(nia)
                   ltac:(lia) ltac:(nia) ltac:(lia) ltac:(nia) Hstep).
    unfold pixels. simpl flat_map. fold row.
    rewrite !sumOver_app, !Z.add_assoc. exact IH.
Qed.

End BlockSums.

(** X6: the gray level [rgbToGrayscale] stores for a pixel of an image is the
    luminance of its three colour bytes, an integer between 0 and 255 that the
    store into the byte array does not change: the luminance
    [calculateBlockInfo] computes for the pixel.  A pixel whose three colour
    bytes are equal keeps that level. *)
Theorem rgbToGrayscale_levels (imageData : ImageData) (p : Z) :
  wellFormed imageData = true ->
  0 <= p < width imageData * height imageData ->
  let r := channel imageData 0 p in
  let g := channel imageData 1 p in
  let b := channel imageData 2 p in
  let level := grayLevel imageData p in
  nth_error (rgbToGrayscale imageData) (Z.to_nat p) = Some level
  /\ 0 <= level <= 255
  /\ luminance (ofZ r) (ofZ g) (ofZ b) = ofZ level
  /\ (r = g -> g = b -> level = r).
Proof.
  intros Hwf Hp. cbv zeta.
  destruct (wellFormed_length imageData Hwf) as (Hw & Hh & Hlen).
  destruct (rgbToGrayscale_bytes imageData) as [Hl _].
  destruct (rgbToGrayscale_luminance imageData Hwf p Hp) as [B Hlum].
  fold (grayLevel imageData p) in B, Hlum.
  destruct (wellFormed_bytes imageData Hwf (4 * p) ltac:(lia)) as [Br Hr].
  destruct (wellFormed_bytes imageData Hwf (4 * p + 1) ltac:(lia)) as [Bg Hg].
  destruct (wellFormed_bytes imageData Hwf (4 * p + 2) ltac:(lia)) as [Bb Hb].
  rewrite Hr, Hg, Hb in Hlum.
  unfold channel. replace (4 * p + 0) with (4 * p) by lia.
  split; [|split; [exact B|split; [exact Hlum|]]].
  - unfold grayLevel. apply nth_error_nth'. rewrite Hl. lia.
  - intros Erg Egb. rewrite <- Egb, <- Erg in Hlum.
    rewrite <- (ToUint8_ofZ (grayLevel imageData p) B), <- Hlum.
    apply luminance_gray. exact Br.
Qed.

Lemma rgbToGrayscale_levels_witness :
  luminance (ofZ 200) (ofZ 100) (ofZ 50)
  = ofZ (grayLevel (uniformImage 4 3 200 100 50 255) 5).
Proof.
  destruct (rgbToGrayscale_levels (uniformImage 4 3 200 100 50 255) 5)
    as (_ & _ & H & _).
  - vm_compute. reflexivity.
  - simpl. lia.
  - exact H.
Defined.

(** ** The means of a block *)

Lemma blockPixels_length (settings : Settings) (imageData : ImageData) (x y : Z) :
  0 < blockSize settings ->
  0 <= x < width imageData -> 0 <= y < height imageData ->
  Z.of_nat (List.length (blockPixels settings imageData x y))
  = Z.min (blockSize settings) (width imageData - x)
    * Z.min (blockSize settings) (height imageData - y).
Proof.
  intros Hb Hx Hy. unfold blockPixels. cbv zeta.
  rewrite flat_map_rows_length, !range_length. lia.
Qed.

(** The sums of a block are exact: the brightness sum is the sum of the gray
    levels [rgbToGrayscale] gives to the pixels of the block, and with the
    colour on each colour sum is the sum of the bytes of its channel. *)
Lemma blockInfo_sums (settings : Settings) (imageData : ImageData)
    (edgeData : option EdgeData) (x y : Z) :
  wellFormed imageData = true ->
  0 < blockSize settings ->
  0 <= x < width imageData -> 0 <= y < height imageData ->
  width imageData * height imageData < 2 ^ 44 ->
  let info := calculateBlockInfo settings imageData x y edgeData in
  let pixels := blockPixels settings imageData x y in
  sumBrightness info = ofZ (sumOver (grayLevel imageData) pixels)
  /\ sumColor info
     = (if color settings
        then (ofZ (sumOver (channel imageData 0) pixels),
              ofZ (sumOver (channel imageData 1) pixels),
              ofZ (sumOver (channel imageData 2) pixels))
        else (0, 0, 0)%float)
  /\ pixelCount info = Z.of_nat (List.length pixels)
  /\ 0 <= sumOver (grayLevel imageData) pixels <= 255 * pixelCount info.
Proof.
  intros Hwf Hb Hx Hy Hsize. cbv zeta.
  pose proof (blockPixels_length settings imageData x y Hb Hx Hy) as Hlen.
  pose proof (calculateBlockInfo_count settings imageData edgeData Hwf x y Hb Hx Hy) as Hcount.
  set (bw := Z.min (blockSize settings) (width imageData - x)) in *.
  set (bh := Z.min (blockSize settings) (height imageData - y)) in *.
  assert (Hn : 0 <= bh * bw <= width imageData * height imageData) by (unfold bw, bh; nia).
  pose proof (blockRows_sums settings imageData edgeData Hwf x y (range bw) (range bh)) as H.
  specialize (H ltac:(intros dx Hdx; apply range_In in Hdx; unfold bw in Hdx; lia)
                ltac:(intros dy Hdy; apply range_In in Hdy; unfold bh in Hdy; lia)
                0 0 0 0
                {| sumBrightness := 0; sumColor := (0, 0, 0)%float; pixelCount := 0;
                   sumMag := 0; sumDir := 0 |}).
  cbv zeta in H. rewrite !range_length in H.
  replace (Z.of_nat (Z.to_nat bh)) with bh in H by (unfold bh; lia).
  replace (Z.of_nat (Z.to_nat bw)) with bw in H by (unfold bw; lia).
  specialize (H ltac:(lia) ltac:(lia) ltac:(lia) ltac:(lia)
                ltac:(lia) ltac:(lia) ltac:(lia) ltac:(lia)).
  destruct H as [H1 H2].
  { unfold blockSums. cbn [sumBrightness sumColor]. split; [reflexivity|].
    destruct (color settings); reflexivity. }
  rewrite !Z.add_0_l in H1, H2.
  split; [exact H1|]. split; [exact H2|]. split; [lia|].
  pose proof (sumOver_bounds (grayLevel imageData) 0 255 (blockPixels settings imageData x y)
                (fun p _ => gray_range imageData p)) as B.
  rewrite Hcount. fold bw bh. lia.
Qed.

(** X12: the sums of a block are exact: the brightness sum is the sum of the
    gray levels [rgbToGrayscale] gives to the pixels of the block, and with
    the colour on each colour sum is the sum of the bytes of its channel;
    with the colour off the three colour sums stay 0. *)
Theorem calculateBlockInfo_sums (settings : Settings) (imageData : ImageData)
    (edgeData : option EdgeData) (x y : Z) :
  wellFormed imageData = true ->
  0 < blockSize settings ->
  0 <= x < width imageData -> 0 <= y < height imageData ->
  width imageData * height imageData < 2 ^ 44 ->
  let info := calculateBlockInfo settings imageData x y edgeData in
  let pixels := blockPixels settings imageData x y in
  sumBrightness info = ofZ (sumOver (grayLevel imageData) pixels)
  /\ sumColor info
     = (if color settings
        then (ofZ (sumOver (channel imageData 0) pixels),
              ofZ (sumOver (channel imageData 1) pixels),
              ofZ (sumOver (channel imageData 2) pixels))
        else (0, 0, 0)%float)
  /\ pixelCount info = Z.of_nat (List.length pixels)
  /\ 0 <= sumOver (grayLevel imageData) pixels <= 255 * pixelCount info.
Proof. exact (blockInfo_sums settings imageData edgeData x y). Qed.

Lemma calculateBlockInfo_sums_witness :
  sumBrightness (calculateBlockInfo scenarioSettings (uniformImage 20 12 9 9 9 255) 16 8 None)
  = ofZ (sumOver (grayLevel (uniformImage 20 12 9 9 9 255))
                 (blockPixels scenarioSettings (uniformImage 20 12 9 9 9 255) 16 8)).
Proof.
  destruct (calculateBlockInfo_sums scenarioSettings (uniformImage 20 12 9 9 9 255)
              None 16 8) as [H _].
  - vm_compute. reflexivity.
  - reflexivity.
  - simpl. lia.
  - simpl. lia.
  - simpl. lia.
  - exact H.
Defined.

Section BlockMeans.

Variable settings : Settings.
Variable imageData : ImageData.
Variable edgeData : option EdgeData.
Variables x y : Z.
Hypothesis imageData_wf : wellFormed imageData = true.
Hypothesis blockSize_pos : 0 < blockSize settings.
Hypothesis x_inside : 0 <= x < width imageData.
Hypothesis y_inside : 0 <= y < height imageData.
Hypothesis size_bound : width imageData * height imageData < 2 ^ 44.

Let info := calculateBlockInfo settings imageData x y edgeData.
Let pixels := blockPixels settings imageData x y.
Let n := Z.of_nat (List.length pixels).

Lemma block_size : 1 <= n <= width imageData * height imageData.
Proof.
  unfold n, pixels. rewrite blockPixels_length by assumption. nia.
Qed.

Lemma mean_range (f : Z -> Z) :
  (forall p, 0 <= f p <= 255) ->
  0 <= sumOver f pixels <= 255 * n /\ 0 <= blockMean settings imageData x y f <= 255.
Proof.
  intros Hf. pose proof block_size as Hn.
  pose proof (sumOver_bounds f 0 255 pixels (fun p _ => Hf p)) as B. fold n in B.
  split; [lia|]. unfold blockMean. cbv zeta. fold pixels n. split.
  - apply Z.div_pos; lia.
  - apply Z.div_le_upper_bound; lia.
Qed.

Lemma mean_ofZ (f : Z -> Z) :
  (forall p, 0 <= f p <= 255) ->
  Math_floor (ofZ (sumOver f pixels) / ofZ n) = ofZ (blockMean settings imageData x y f).
Proof.
  intros Hf. pose proof block_size as Hn. destruct (mean_range f Hf) as [B _].
  apply floor_div_ofZ; lia.
Qed.

(** The average brightness of a block is the integer mean of the gray
    levels of its pixels. *)
Lemma avgBrightness_mean :
  avgBrightness info = ofZ (blockMean settings imageData x y (grayLevel imageData)).
Proof.
  destruct (blockInfo_sums settings imageData edgeData x y
              imageData_wf blockSize_pos x_inside y_inside size_bound)
    as (Hb & _ & Hc & _).
  unfold avgBrightness. fold info pixels in Hb, Hc. rewrite Hb, Hc.
  apply mean_ofZ, gray_range.
Qed.

End BlockMeans.

(** The average brightness of a block is the integer mean of the gray levels
    of its pixels, a number between 0 and 255. *)
Lemma avgBrightness_blockMean (settings : Settings) (imageData : ImageData)
    (edgeData : option EdgeData) (x y : Z) :
  wellFormed imageData = true ->
  0 < blockSize settings ->
  0 <= x < width imageData -> 0 <= y < height imageData ->
  width imageData * height imageData < 2 ^ 44 ->
  let mean := blockMean settings imageData x y (grayLevel imageData) in
  avgBrightness (calculateBlockInfo settings imageData x y edgeData) = ofZ mean
  /\ 0 <= mean <= 255.
Proof.
  intros Hwf Hb Hx Hy Hs. cbv zeta. split.
  - apply avgBrightness_mean; assumption.
  - apply (mean_range settings imageData x y Hb Hx Hy Hs); apply gray_range.
Qed.

(** X13: the average brightness of a block is the integer mean of the gray
    levels of its pixels, a number between 0 and 255. *)
Theorem avgBrightness_integer_mean (settings : Settings) (imageData : ImageData)
    (edgeData : option EdgeData) (x y : Z) :
  wellFormed imageData = true ->
  0 < blockSize settings ->
  0 <= x < width imageData -> 0 <= y < height imageData ->
  width imageData * height imageData < 2 ^ 44 ->
  let mean := blockMean settings imageData x y (grayLevel imageData) in
  avgBrightness (calculateBlockInfo settings imageData x y edgeData) = ofZ mean
  /\ 0 <= mean <= 255.
Proof. exact (avgBrightness_blockMean settings imageData edgeData x y). Qed.

Lemma avgBrightness_integer_mean_witness :
  avgBrightness (calculateBlockInfo scenarioSettings (uniformImage 20 12 9 9 9 255) 16 8 None)
  = ofZ (blockMean scenarioSettings (uniformImage 20 12 9 9 9 255) 16 8
                   (grayLevel (uniformImage 20 12 9 9 9 255))).
Proof.
  destruct (avgBrightness_integer_mean scenarioSettings (uniformImage 20 12 9 9 9 255)
              None 16 8) as [H _].
  - vm_compute. reflexivity.
  - reflexivity.
  - simpl. lia.
  - simpl. lia.
  - simpl. lia.
  - exact H.
Defined.

(** X14: the colour of a block: white with the colour off; otherwise the integer
    means of the three colour channels, each between 0 and 255, or their
    complements to 255 with the inversion on. *)
Theorem calculateAverageColor_bytes (settings : Settings) (imageData : ImageData)
    (edgeData : option EdgeData) (x y : Z) :
  wellFormed imageData = true ->
  0 < blockSize settings ->
  0 <= x < width imageData -> 0 <= y < height imageData ->
  width imageData * height imageData < 2 ^ 44 ->
  let mean c := blockMean settings imageData x y (channel imageData c) in
  let shown v := if invertColor settings then 255 - v else v in
  calculateAverageColor settings (calculateBlockInfo settings imageData x y edgeData)
  = (if color settings
     then (ofZ (shown (mean 0)), ofZ (shown (mean 1)), ofZ (shown (mean 2)))
     else (255, 255, 255)%float)
  /\ (forall c, 0 <= shown (mean c) <= 255).
Proof.
  intros Hwf Hb Hx Hy Hs. cbv zeta.
  assert (Hrange : forall c, 0 <= blockMean settings imageData x y (channel imageData c) <= 255).
  { intros c. apply (mean_range settings imageData x y Hb Hx Hy Hs).
    intros p. apply channel_range. exact Hwf. }
  split.
  2:{ intros c. specialize (Hrange c). destruct (invertColor settings); lia. }
  destruct (blockInfo_sums settings imageData edgeData x y Hwf Hb Hx Hy Hs)
    as (_ & Hcol & Hcount & _).
  unfold calculateAverageColor. destruct (color settings) eqn:Ecol; [|reflexivity].
  simpl negb. cbv iota. rewrite Hcol, Hcount.
  rewrite !(mean_ofZ settings imageData x y Hb Hx Hy Hs)
    by (intros p; apply channel_range; exact Hwf).
  destruct (invertColor settings); [|reflexivity].
  rewrite <- ofZ_255.
  rewrite !ofZ_sub by (pose proof (Hrange 0); pose proof (Hrange 1); pose proof (Hrange 2); lia).
  reflexivity.
Qed.

Lemma calculateAverageColor_bytes_witness :
  calculateAverageColor defaultSettings
    (calculateBlockInfo defaultSettings (uniformImage 20 12 200 100 50 255) 16 8 None)
  = (ofZ 200, ofZ 100, ofZ 50).
Proof.
  destruct (calculateAverageColor_bytes defaultSettings (uniformImage 20 12 200 100 50 255)
              None 16 8) as [H _].
  - vm_compute. reflexivity.
  - reflexivity.
  - simpl. lia.
  - simpl. lia.
  - simpl. lia.
  - rewrite H. vm_compute. reflexivity.
Defined.

(** ** The glyph of a block *)

(** X15: the clamped brightness of a block is NaN or an integer between 0 and
    255, whatever the sums of the block and the brightness setting. *)
Theorem clampedBrightness_range (settings : Settings) (blockInfo : BlockInfo) :
  clampedBrightness settings blockInfo = nan
  \/ exists c, 0 <= c <= 255 /\ clampedBrightness settings blockInfo = ofZ c.
Proof.
  unfold clampedBrightness. cbv zeta.
  destruct (clamp_cases (avgBrightness blockInfo * brightness settings)) as [[_ H]|H];
    [left | right]; exact H.
Qed.

(** The glyph of a block without edge glyph, for a clamped brightness that is
    an integer [c]: the space for 0, and otherwise the glyph of rank
    [floor (c * N / 256)] of the ramp of [N] glyphs, which is inside the
    ramp. *)
Lemma selectAsciiChar_ramp (settings : Settings) (blockInfo : BlockInfo) (c : Z) :
  let ramp := asciiChars settings in
  let N := Z.of_nat (String.length ramp) in
  edgeOverride settings blockInfo = false ->
  clampedBrightness settings blockInfo = ofZ c ->
  0 <= c <= 255 -> 1 <= N < 2 ^ 44 ->
  (c = 0 -> selectAsciiChar settings blockInfo = JString " ")
  /\ (1 <= c ->
      0 <= c * N / 256 < N
      /\ exists ch,
           String.get (Z.to_nat (c * N / 256)) ramp = Some ch
           /\ selectAsciiChar settings blockInfo = JString (String ch EmptyString)).
Proof.
  intros ramp N Hno Hclamp Hc HN.
  rewrite (selectAsciiChar_no_override _ _ Hno), Hclamp. split.
  - intros ->. reflexivity.
  - intros Hc1. split.
    + split; [apply Z.div_pos; nia | apply Z.div_lt_upper_bound; nia].
    + apply rampChar_ofZ; [lia | exact HN].
Qed.

(** X16: the glyph of a block without edge glyph, for a clamped brightness
    that is an integer [c]: the space for 0, and otherwise the glyph of rank
    [floor (c * N / 256)] of the ramp of [N] glyphs, which is inside the
    ramp. *)
Theorem selectAsciiChar_ramp_glyph (settings : Settings) (blockInfo : BlockInfo) (c : Z) :
  let ramp := asciiChars settings in
  let N := Z.of_nat (String.length ramp) in
  edgeOverride settings blockInfo = false ->
  clampedBrightness settings blockInfo = ofZ c ->
  0 <= c <= 255 -> 1 <= N < 2 ^ 44 ->
  (c = 0 -> selectAsciiChar settings blockInfo = JString " ")
  /\ (1 <= c ->
      0 <= c * N / 256 < N
      /\ exists ch,
           String.get (Z.to_nat (c * N / 256)) ramp = Some ch
           /\ selectAsciiChar settings blockInfo = JString (String ch EmptyString)).
Proof. exact (selectAsciiChar_ramp settings blockInfo c). Qed.

Lemma selectAsciiChar_ramp_glyph_witness :
  exists ch,
    String.get 9 (asciiChars scenarioSettings) = Some ch
    /\ selectAsciiChar scenarioSettings whiteBlock = JString (String ch EmptyString).
Proof.
  pose proof (selectAsciiChar_ramp_glyph scenarioSettings whiteBlock 255) as H.
  cbv zeta in H. destruct H as [_ H].
  - reflexivity.
  - vm_compute. reflexivity.
  - lia.
  - simpl. lia.
  - destruct (H ltac:(lia)) as (_ & ch & Hget & Hsel).
    exists ch. split; [exact Hget | exact Hsel].
Defined.

Lemma get_In (s : string) (k : nat) (ch : ascii) :
  String.get k s = Some ch -> In ch (list_ascii_of_string s).
Proof.
  revert k. induction s as [|a s IH]; intros k H; simpl in *; [discriminate|].
  destruct k; [injection H as ->; now left | right; eapply IH, H].
Qed.

(** The glyph of a block of the pipeline is one character: the space, a
    glyph of the ramp or one of the four edge glyphs. *)
Lemma selectAsciiChar_character (settings : Settings) (imageData : ImageData)
    (edgeData : option EdgeData) (x y : Z) :
  wellFormed imageData = true ->
  0 < blockSize settings ->
  0 <= x < width imageData -> 0 <= y < height imageData ->
  width imageData * height imageData < 2 ^ 44 ->
  is_finite (brightness settings) = true ->
  1 <= Z.of_nat (String.length (asciiChars settings)) < 2 ^ 44 ->
  exists ch,
    selectAsciiChar settings (calculateBlockInfo settings imageData x y edgeData)
    = JString (String ch EmptyString)
    /\ (ch = " "%char
        \/ In ch (list_ascii_of_string (asciiChars settings))
        \/ In ch ["-"; "\"; "|"; "/"]%char).
Proof.
  intros Hwf Hb Hx Hy Hs Hfin HN.
  set (info := calculateBlockInfo settings imageData x y edgeData).
  assert (Hramp : exists ch, rampChar settings (clampedBrightness settings info)
                             = JString (String ch EmptyString)
                             /\ (ch = " "%char
                                 \/ In ch (list_ascii_of_string (asciiChars settings)))).
  { destruct (avgBrightness_blockMean settings imageData edgeData x y Hwf Hb Hx Hy Hs)
      as [Havg Hmean].
    cbv zeta in Havg, Hmean. fold info in Havg.
    unfold clampedBrightness. cbv zeta. rewrite Havg.
    destruct (clamp_cases (ofZ (blockMean settings imageData x y (grayLevel imageData))
                           * brightness settings)) as [[Hnan _]|(c & Hc & ->)].
    { exfalso. revert Hnan. apply mul_ofZ_not_nan; [lia | exact Hfin]. }
    destruct (Z.eq_dec c 0) as [->|Hc0].
    - exists " "%char. split; [reflexivity | now left].
    - destruct (rampChar_ofZ settings c ltac:(lia) HN) as (ch & Hget & Hr).
      exists ch. split; [exact Hr | right; eapply get_In, Hget]. }
  destruct Hramp as (ch & Hr & Hch).
  unfold selectAsciiChar. cbv zeta. fold info.
  destruct (detectEdges settings).
  2:{ exists ch. split; [exact Hr | tauto]. }
  destruct (getEdgeChar (avgMag info) (avgDir info)) as [| |s] eqn:Eg.
  - exists ch. split; [exact Hr | tauto].
  - exists ch. split; [exact Hr | tauto].
  - assert (Hin : In s edgeTable).
    { unfold getEdgeChar in Eg. cbv zeta in Eg.
      destruct (avgMag info <? 50)%float; [discriminate|].
      eapply elementAt_In, Eg. }
    unfold edgeTable in Hin. simpl in Hin.
    repeat (destruct Hin as [<-|Hin];
            [eexists; split; [reflexivity | right; right; simpl; tauto]|]).
    contradiction.
Qed.

(** X18: the glyph of a block of the pipeline is one character: the space, a
    glyph of the ramp or one of the four edge glyphs. *)
Theorem selectAsciiChar_one_character (settings : Settings) (imageData : ImageData)
    (edgeData : option EdgeData) (x y : Z) :
  wellFormed imageData = true ->
  0 < blockSize settings ->
  0 <= x < width imageData -> 0 <= y < height imageData ->
  width imageData * height imageData < 2 ^ 44 ->
  is_finite (brightness settings) = true ->
  1 <= Z.of_nat (String.length (asciiChars settings)) < 2 ^ 44 ->
  exists ch,
    selectAsciiChar settings (calculateBlockInfo settings imageData x y edgeData)
    = JString (String ch EmptyString)
    /\ (ch = " "%char
        \/ In ch (list_ascii_of_string (asciiChars settings))
        \/ In ch ["-"; "\"; "|"; "/"]%char).
Proof. exact (selectAsciiChar_character settings imageData edgeData x y). Qed.

Lemma selectAsciiChar_one_character_witness :
  exists ch,
    selectAsciiChar scenarioSettings (calculateBlockInfo scenarioSettings black16 8 8 None)
    = JString (String ch EmptyString).
Proof.
  destruct (selectAsciiChar_one_character scenarioSettings black16 None 8 8)
    as (ch & H & _).
  - vm_compute. reflexivity.
  - reflexivity.
  - simpl. lia.
  - simpl. lia.
  - simpl. lia.
  - reflexivity.
  - simpl. lia.
  - exists ch. exact H.
Defined.

(** ** The text of a pass *)

(** [autoBrightnessContrast] returns an [ImageData] as the DOM builds them. *)
Lemma autoBrightnessContrast_wellFormed (imageData : ImageData) :
  wellFormed imageData = true -> wellFormed (autoBrightnessContrast imageData) = true.
Proof.
  intros Hwf. destruct (wellFormed_length imageData Hwf) as (Hw & Hh & Hlen).
  destruct (autoBrightnessContrast_size imageData) as [Ew Eh].
  unfold wellFormed. rewrite Ew, Eh, autoBrightnessContrast_data, length_map.
  apply andb_true_intro. split.
  - apply andb_true_intro. split; [apply andb_true_intro; split; apply Z.leb_le; lia|].
    apply Z.eqb_eq. exact Hlen.
  - apply forallb_forall. intros v Hv. apply in_map_iff in Hv. destruct Hv as (u & <- & _).
    pose proof (ToUint8Clamp_range (ofZ u * fst (stretch imageData) + snd (stretch imageData))).
    apply andb_true_intro. split; apply Z.leb_le; lia.
Qed.

Lemma append_length (a b : string) :
  String.length (String.append a b) = (String.length a + String.length b)%nat.
Proof. induction a as [|x a IH]; simpl; [reflexivity | now rewrite IH]. Qed.

Lemma concat_length {A : Type} (f : A -> string) (k : nat) (l : list A) :
  (forall x, In x l -> String.length (f x) = k) ->
  String.length (String.concat "" (map f l)) = (k * List.length l)%nat.
Proof.
  intros H. rewrite concat_empty. induction l as [|x l IH]; simpl; [lia|].
  rewrite append_length, IH by (intros; apply H; now right).
  rewrite (H x) by now left. lia.
Qed.

(** The last block of a side starts inside the image. *)
Lemma blockCount_inside (limit step k : Z) :
  0 < step -> 0 <= k < blockCount limit step -> 0 <= k * step < limit.
Proof.
  intros Hs Hk. unfold blockCount in Hk.
  assert (blockCount limit step * step <= limit + step - 1).
  { unfold blockCount. rewrite Z.mul_comm. apply Z.mul_div_le. lia. }
  unfold blockCount in *. nia.
Qed.

(** X3: a run of the pass that ends draws one character per block, and its text
    has [rows] lines of [cols] characters, each followed by a newline. *)
Theorem generatePass_text_shape (host : Host) (settings : Settings)
    (imageData : ImageData) (out : Output) :
  wellFormed imageData = true ->
  0 < blockSize settings ->
  width imageData * height imageData < 2 ^ 44 ->
  is_finite (brightness settings) = true ->
  1 <= Z.of_nat (String.length (asciiChars settings)) < 2 ^ 44 ->
  generatePass host settings imageData = Done out ->
  let cols := blockCount (width imageData) (blockSize settings) in
  let rows := blockCount (height imageData) (blockSize settings) in
  List.length (outGlyphs out) = Z.to_nat (rows * cols)
  /\ Forall (fun g => exists ch, glyphText g = JString (String ch EmptyString))
            (outGlyphs out)
  /\ String.length (outText out) = Z.to_nat (rows * (cols + 1)).
Proof.
  intros Hwf Hb Hs Hfin HN Hdone cols rows.
  destruct (wellFormed_length imageData Hwf) as (Hw & Hh & _).
  pose proof (generatePass_cells host settings imageData Hb Hw Hh) as G.
  cbv zeta in G. fold cols rows in G.
  set (adjusted := if autoAdjust settings then autoBrightnessContrast imageData else imageData) in *.
  assert (Hadj : wellFormed adjusted = true
                 /\ width adjusted = width imageData /\ height adjusted = height imageData).
  { unfold adjusted. destruct (autoAdjust settings).
    - split; [apply autoBrightnessContrast_wellFormed, Hwf | apply autoBrightnessContrast_size].
    - auto. }
  destruct Hadj as (Hwf' & Ew & Eh).
  set (edgeData := if detectEdges settings then _ else None) in *.
  destruct (detectEdges settings && _) in G; [rewrite G in Hdone; discriminate Hdone|].
  rewrite G in Hdone. injection Hdone as <-. cbn [outGlyphs outText].
  assert (Hcols : 0 <= cols) by (unfold cols, blockCount; apply Z.div_pos; lia).
  assert (Hrows : 0 <= rows) by (unfold rows, blockCount; apply Z.div_pos; lia).
  assert (Hone : forall r c, In r (range rows) -> In c (range cols) ->
             exists ch, glyphText (glyphAt settings adjusted edgeData r c)
                        = JString (String ch EmptyString)).
  { intros r c Hr Hc. apply range_In in Hr, Hc.
    pose proof (blockCount_inside _ _ _ Hb Hr) as Hy.
    pose proof (blockCount_inside _ _ _ Hb Hc) as Hx.
    unfold glyphAt. cbv zeta. cbn [glyphText].
    destruct (selectAsciiChar_character settings adjusted edgeData
                (c * blockSize settings) (r * blockSize settings) Hwf' Hb
                ltac:(rewrite Ew; exact Hx) ltac:(rewrite Eh; exact Hy)
                ltac:(rewrite Ew, Eh; exact Hs) Hfin HN)
      as (ch & Hch & _).
    exists ch. exact Hch. }
  split; [|split].
  - rewrite flat_map_rows_length, !range_length. nia.
  - apply Forall_forall. intros g Hg. apply in_flat_map in Hg.
    destruct Hg as (r & Hr & Hg). apply in_map_iff in Hg. destruct Hg as (c & <- & Hc).
    apply Hone; assumption.
  - rewrite (concat_length _ (Z.to_nat (cols + 1))).
    + rewrite range_length. nia.
    + intros r Hr. rewrite append_length.
      rewrite (concat_length _ 1%nat).
      * rewrite range_length. simpl String.length. lia.
      * intros c Hc. destruct (Hone r c Hr Hc) as (ch & Hch).
        change (String.length (toString (glyphText (glyphAt settings adjusted edgeData r c)))
                = 1%nat).
        rewrite Hch. reflexivity.
Qed.

Lemma generatePass_text_shape_witness :
  match generatePass Reference.host scenarioSettings black16 with
  | Done out =>
      List.length (outGlyphs out) = 4%nat /\ String.length (outText out) = 6%nat
  | _ => False
  end.
Proof.
  destruct (generatePass Reference.host scenarioSettings black16) as [out|] eqn:E.
  - destruct (generatePass_text_shape Reference.host scenarioSettings black16 out)
      as (Hglyphs & _ & Htext).
    + vm_compute. reflexivity.
    + reflexivity.
    + simpl. lia.
    + reflexivity.
    + simpl. lia.
    + exact E.
    + split; [exact Hglyphs | exact Htext].
  - vm_compute in E. discriminate E.
Defined.

(** ** A block size that is not positive *)





(** ** Equal sigmas *)

Lemma map_const {A B : Type} (f : A -> B) (d : B) (l : list A) :
  (forall x, In x l -> f x = d) -> map f l = repeat d (List.length l).
Proof.
  induction l as [|x l IH]; intros H; [reflexivity|].
  simpl. rewrite H by (now left). f_equal. apply IH. intros; apply H. now right.
Qed.

(** Blurred twice with the same sigma, the image has a difference of
    Gaussians that is 128 everywhere. *)
Lemma differenceOfGaussians_equal (host : Host) (settings : Settings)
    (imageData : ImageData) (dog : list Z) :
  0 <= width imageData -> 0 <= height imageData ->
  sigma1 settings = sigma2 settings ->
  differenceOfGaussians host settings imageData = Some dog ->
  dog = repeat 128 (Z.to_nat (width imageData * height imageData)).
Proof.
  intros Hw Hh Hs. unfold differenceOfGaussians. rewrite <- Hs.
  destruct (applyGaussianBlur host imageData (sigma1 settings)) as [blur|] eqn:Hb;
    [|discriminate].
  intros [= <-].
  pose proof (applyGaussianBlur_length _ _ _ _ Hb) as L.
  rewrite <- (range_length (width imageData * height imageData)).
  apply map_const. intros i Hi. apply range_In in Hi.
  destruct (nth_error blur (Z.to_nat i)) as [b|] eqn:E.
  2:{ apply nth_error_None in E. nia. }
  rewrite (dogSample_clamped blur blur i b b E E). lia.
Qed.

Lemma fold_left_rel {A B : Type} (R : A -> A -> Prop) (f g : A -> B -> A) (l : list B) :
  (forall a b x, In x l -> R a b -> R (f a x) (g b x)) ->
  forall a b, R a b -> R (fold_left f l a) (fold_left g l b).
Proof.
  induction l as [|x l IH]; intros H a b Hab; [exact Hab|].
  simpl. apply IH.
  - intros; apply H; [now right | assumption].
  - apply H; [now left | assumption].
Qed.

(** A pixel of a block adds no gradient magnitude where the magnitude is
    zero everywhere, and the other sums do not depend on the edge data. *)
Lemma blockStep_sameSums (settings : Settings) (imageData : ImageData) (e : EdgeData)
    (x y dy dx : Z) (a b : BlockInfo) :
  magnitude e = repeat 0%float (Z.to_nat (width imageData * height imageData)) ->
  0 <= x + dx -> 0 <= y + dy ->
  sameSums a b ->
  sameSums (blockStep settings imageData x y (Some e) dy dx a)
           (blockStep (setDetectEdges false settings) imageData x y None dy dx b).
Proof.
  intros Hm Hx Hy (Hb & Hc & Hn & Hz). unfold blockStep. cbv zeta.
  destruct (_ || _ || _) eqn:Hskip; [repeat split; assumption|].
  apply orb_false_iff in Hskip. destruct Hskip as [Hskip _].
  apply orb_false_iff in Hskip. destruct Hskip as [Hix Hiy].
  apply Z.leb_gt in Hix, Hiy.
  rewrite Hb, Hc, Hn.
  destruct (sumColor b) as [[sr sg] sb].
  change (color (setDetectEdges false settings)) with (color settings).
  unfold sameSums. cbn [sumBrightness sumColor pixelCount sumMag].
  repeat split.
  destruct (detectEdges settings); [|exact Hz].
  rewrite Hz, Hm. unfold readF.
  set (p := (y + dy) * width imageData + (x + dx)).
  assert (Hp : 0 <= p < width imageData * height imageData) by (unfold p; nia).
  destruct (Z.ltb_spec p 0); [lia|].
  rewrite (nth_error_repeat 0%float). 2: lia. reflexivity.
Qed.

Lemma calculateBlockInfo_sameSums (settings : Settings) (imageData : ImageData)
    (e : EdgeData) (x y : Z) :
  magnitude e = repeat 0%float (Z.to_nat (width imageData * height imageData)) ->
  0 <= x -> 0 <= y ->
  sameSums (calculateBlockInfo settings imageData x y (Some e))
           (calculateBlockInfo (setDetectEdges false settings) imageData x y None).
Proof.
  intros Hm Hx Hy. unfold calculateBlockInfo. cbv zeta.
  change (blockSize (setDetectEdges false settings)) with (blockSize settings).
  apply fold_left_rel.
  - intros a b dy Hdy Hab. apply range_In in Hdy.
    apply fold_left_rel; [|exact Hab].
    intros a' b' dx Hdx Hab'. apply range_In in Hdx.
    apply blockStep_sameSums; [exact Hm | lia | lia | exact Hab'].
  - repeat split.
Qed.

Lemma div_0_ofZ (n : Z) : 1 <= n < 2 ^ 53 -> (0 / ofZ n)%float = 0%float.
Proof.
  intros Hn. destruct (ofZ_canonical n ltac:(lia)) as (m & Hm & _).
  apply Prim2SF_inj. rewrite div_spec, Hm. reflexivity.
Qed.

(** The glyph and the colour of a block whose gradient magnitudes are all
    zero are those the block gets with the edge detection off. *)
Lemma glyphAt_no_edges (settings : Settings) (imageData : ImageData)
    (e : EdgeData) (r c : Z) :
  wellFormed imageData = true ->
  0 < blockSize settings ->
  width imageData * height imageData < 2 ^ 53 ->
  magnitude e = repeat 0%float (Z.to_nat (width imageData * height imageData)) ->
  0 <= c * blockSize settings < width imageData ->
  0 <= r * blockSize settings < height imageData ->
  glyphAt settings imageData (Some e) r c
  = glyphAt (setDetectEdges false settings) imageData None r c.
Proof.
  intros Hwf Hb Hs Hm Hx Hy. unfold glyphAt. cbv zeta.
  change (blockSize (setDetectEdges false settings)) with (blockSize settings).
  set (x := c * blockSize settings) in *. set (y := r * blockSize settings) in *.
  destruct (calculateBlockInfo_sameSums settings imageData e x y Hm ltac:(lia) ltac:(lia))
    as (Eb & Ec & En & Ez).
  pose proof (calculateBlockInfo_count settings imageData (Some e) Hwf x y Hb Hx Hy) as Hn.
  set (a := calculateBlockInfo settings imageData x y (Some e)) in *.
  set (b := calculateBlockInfo (setDetectEdges false settings) imageData x y None) in *.
  assert (Hcl : clampedBrightness settings a = clampedBrightness (setDetectEdges false settings) b).
  { unfold clampedBrightness, avgBrightness. now rewrite Eb, En. }
  assert (Hsel : selectAsciiChar settings a = selectAsciiChar (setDetectEdges false settings) b).
  { unfold selectAsciiChar. cbv zeta.
    change (detectEdges (setDetectEdges false settings)) with false. cbv iota.
    change (rampChar (setDetectEdges false settings)) with (rampChar settings).
    rewrite <- Hcl.
    destruct (detectEdges settings); [|reflexivity].
    unfold avgMag. rewrite Ez, div_0_ofZ.
    - reflexivity.
    - destruct (wellFormed_length imageData Hwf) as (Hw & Hh & _).
      rewrite Hn. nia. }
  assert (Hcol : calculateAverageColor settings a
                 = calculateAverageColor (setDetectEdges false settings) b).
  { unfold calculateAverageColor.
    change (color (setDetectEdges false settings)) with (color settings).
    change (invertColor (setDetectEdges false settings)) with (invertColor settings).
    now rewrite Ec, En. }
  now rewrite Hsel, Hcol.
Qed.

(** X5: with [sigma1] equal to [sigma2] the edge detection finds no edge: a pass
    that does not throw gives the text and the glyphs of the pass with the
    edge detection off. *)
Theorem generatePass_equal_sigmas (host : Host) (settings : Settings)
    (imageData : ImageData) :
  wellFormed imageData = true ->
  0 < blockSize settings ->
  width imageData * height imageData < 2 ^ 53 ->
  sigma1 settings = sigma2 settings ->
  generatePass host settings imageData = RangeError
  \/ generatePass host settings imageData
     = generatePass host (setDetectEdges false settings) imageData.
Proof.
  intros Hwf Hb Hs Hsig.
  destruct (detectEdges settings) eqn:Hde.
  2:{ right. f_equal. destruct settings. cbn in Hde. subst. reflexivity. }
  destruct (wellFormed_length imageData Hwf) as (Hw & Hh & _).
  pose proof (generatePass_cells host settings imageData Hb Hw Hh) as G.
  pose proof (generatePass_cells host (setDetectEdges false settings) imageData Hb Hw Hh) as G'.
  cbv zeta in G, G'.
  change (detectEdges (setDetectEdges false settings)) with false in G'.
  change (autoAdjust (setDetectEdges false settings)) with (autoAdjust settings) in G'.
  change (blockSize (setDetectEdges false settings)) with (blockSize settings) in G'.
  cbv iota in G'. cbn [andb] in G'.
  set (adjusted := if autoAdjust settings then autoBrightnessContrast imageData else imageData) in *.
  assert (Hadj : wellFormed adjusted = true
                 /\ width adjusted = width imageData /\ height adjusted = height imageData).
  { unfold adjusted. destruct (autoAdjust settings).
    - split; [apply autoBrightnessContrast_wellFormed, Hwf | apply autoBrightnessContrast_size].
    - auto. }
  destruct Hadj as (Hwf' & Ew & Eh).
  rewrite Hde in G.
  destruct (differenceOfGaussians host settings adjusted) as [dog|] eqn:Hdog.
  2:{ left. exact G. }
  right. cbn [andb option_map] in G. rewrite G, G'. clear G G'.
  pose proof (differenceOfGaussians_equal host settings adjusted dog
                ltac:(lia) ltac:(lia) Hsig Hdog) as Edog.
  rewrite Ew, Eh in Edog.
  set (e := applySobelFilter host dog (width imageData) (height imageData)).
  assert (Hm : magnitude e = repeat 0%float (Z.to_nat (width adjusted * height adjusted))).
  { rewrite Ew, Eh. unfold e.
    apply (sobel_flat host dog _ _ 128 Hw Hh ltac:(lia)).
    intros k Hk. rewrite Edog. apply nth_error_repeat. lia. }
  assert (Hg : forall r c, In r (range (blockCount (height imageData) (blockSize settings))) ->
                 In c (range (blockCount (width imageData) (blockSize settings))) ->
                 glyphAt settings adjusted (Some e) r c
                 = glyphAt (setDetectEdges false settings) adjusted None r c).
  { intros r c Hr Hc. apply range_In in Hr, Hc.
    pose proof (blockCount_inside _ _ _ Hb Hr) as Hy.
    pose proof (blockCount_inside _ _ _ Hb Hc) as Hx.
    apply glyphAt_no_edges; try assumption.
    - rewrite Ew, Eh. exact Hs.
    - rewrite Ew. exact Hx.
    - rewrite Eh. exact Hy. }
  f_equal. f_equal.
  - f_equal. apply map_ext_in. intros r Hr. f_equal. f_equal.
    apply map_ext_in. intros c Hc. now rewrite Hg.
  - rewrite !flat_map_concat_map. f_equal. apply map_ext_in. intros r Hr.
    apply map_ext_in. intros c Hc. now apply Hg.
Qed.

Lemma generatePass_equal_sigmas_witness :
  generatePass Reference.host equalSigmaSettings (uniformImage 4 3 200 100 50 255)
  = RangeError
  \/ generatePass Reference.host equalSigmaSettings (uniformImage 4 3 200 100 50 255)
     = generatePass Reference.host (setDetectEdges false equalSigmaSettings)
                    (uniformImage 4 3 200 100 50 255).
Proof.
  apply (generatePass_equal_sigmas Reference.host equalSigmaSettings
           (uniformImage 4 3 200 100 50 255)).
  - vm_compute. reflexivity.
  - reflexivity.
  - simpl. lia.
  - reflexivity.
Defined.

(** ** The clipping bounds of the histogram *)

Lemma Prim2SF_2 : Prim2SF 2 = S754_finite false 4503599627370496 (-51).
Proof. reflexivity. Qed.

(** Halving a normal number lowers its exponent by one. *)
Lemma half_finite (x : float) (m : positive) (e : Z) :
  Prim2SF x = S754_finite false m e -> -1000 <= e ->
  Prim2SF (x / 2) = S754_finite false m (e - 1).
Proof.
  intros Hx He.
  pose proof (Prim2SF_valid x) as Hv. rewrite Hx in Hv.
  destruct (valid_finite _ _ _ Hv) as [Hc Hmax]. rewrite fexp64_eq in Hc.
  assert (Hd : Z.pos (digits2_pos m) = 53) by lia.
  rewrite div_spec, Hx, Prim2SF_2.
  unfold SF64div, SFdiv, SFdiv_core_binary. simpl xorb. simpl Zdigits2.
  rewrite Hd. change (Z.pos (digits2_pos 4503599627370496)) with 53.
  replace (53 + e - (53 + -51)) with (e + 51) by lia.
  replace (e - -51) with (e + 51) by lia.
  set (e' := Z.min (fexp64 (e + 51)) (e + 51)).
  assert (He' : e' = e - 2) by (unfold e'; rewrite fexp64_eq; lia).
  replace (e + 51 - e') with 53 by lia. cbv iota.
  rewrite Z.shiftl_mul_pow2 by lia.
  replace (Z.div_eucl (Z.pos m * 2 ^ 53) 4503599627370496) with (Z.pos m * 2, 0).
  2:{ pose proof (Z.div_eucl_eq (Z.pos m * 2 ^ 53) 4503599627370496 ltac:(lia)) as E.
      pose proof (Z.mod_pos_bound (Z.pos m * 2 ^ 53) 4503599627370496 ltac:(lia)) as B.
      unfold Z.modulo in B.
      destruct (Z.div_eucl (Z.pos m * 2 ^ 53) 4503599627370496) as [q r].
      change (2 ^ 53) with (4503599627370496 * 2) in E.
      assert (q = Z.pos m * 2) by nia. assert (r = 0) by nia. now subst. }
  change (new_location 4503599627370496 0) with loc_Exact.
  rewrite He'.
  replace (Z.pos m * 2) with (Z.pos m * 2 ^ (e - 1 - (e - 2)))
    by (replace (e - 1 - (e - 2)) with 1 by lia; reflexivity).
  apply binary_round_aux_exact; [rewrite fexp64_eq; lia | lia | lia].
Qed.

Lemma ofZ_100 : ofZ 100 = 100%float.
Proof. vm_compute. reflexivity. Qed.

(** [clipHistCount]: the floor of a two-hundredth of the number of pixels. *)
Lemma clipHistCount_ofZ (n : Z) :
  0 <= n < 2 ^ 52 ->
  Math_floor (ofZ n * 1 / 100 / 2)%float = ofZ (n / 200).
Proof.
  intros Hn.
  rewrite <- ofZ_1, ofZ_mul, Z.mul_1_r by lia.
  destruct (Z.eq_dec n 0) as [->|Hn0]; [vm_compute; reflexivity|].
  rewrite <- ofZ_100.
  replace (n / 200) with (n / 100 / 2) by (rewrite Z.div_div by lia; reflexivity).
  destruct (div_ofZ n 100 ltac:(lia) ltac:(lia)) as [[Hz Hk]|(m & e & Hf & He & Hk)].
  - rewrite Hk. replace (ofZ n / ofZ 100)%float with 0%float.
    + vm_compute. reflexivity.
    + apply Prim2SF_inj. rewrite Hz. reflexivity.
  - pose proof (half_finite _ m e Hf ltac:(lia)) as Hh.
    unfold Math_floor. rewrite Hh.
    destruct (Z.leb_spec 0 (e - 1)); [lia|].
    simpl cond_Zopp. rewrite Z.shiftr_div_pow2 by lia.
    replace (- (e - 1)) with (- e + 1) by lia.
    rewrite Z.pow_add_r by lia. change (2 ^ 1) with 2.
    rewrite <- Z.div_div, Hk.
    + reflexivity.
    + pose proof (pow2_pos (- e) ltac:(lia)). lia.
    + lia.
Qed.

Lemma increment_nth (h : list Z) (v : Z) (j : nat) :
  0 <= v -> (Z.to_nat v < List.length h)%nat ->
  nth j (increment h v) 0 = nth j h 0 + (if Z.of_nat j =? v then 1 else 0).
Proof.
  intros Hv Hlt. unfold increment.
  destruct (nth_error h (Z.to_nat v)) as [c|] eqn:E.
  2:{ apply nth_error_None in E. lia. }
  pose proof (nth_error_nth h (Z.to_nat v) 0 E) as Hc.
  destruct (Z.eqb_spec (Z.of_nat j) v) as [Heq|Hne].
  - assert (j = Z.to_nat v) by lia. subst j.
    rewrite app_nth2; rewrite length_firstn, Nat.min_l by lia; [|lia].
    rewrite Nat.sub_diag. simpl. lia.
  - destruct (Nat.lt_ge_cases j (Z.to_nat v)) as [Hlt'|Hge].
    + rewrite app_nth1 by (rewrite length_firstn; lia).
      rewrite nth_firstn.
      destruct (Nat.ltb_spec j (Z.to_nat v)); [lia | lia].
    + assert (Hgt : (Z.to_nat v < j)%nat) by lia.
      rewrite app_nth2; rewrite length_firstn, Nat.min_l by lia; [|lia].
      destruct (j - Z.to_nat v)%nat as [|k] eqn:Ek; [lia|].
      cbn [nth]. rewrite nth_skipn.
      replace (S (Z.to_nat v) + k)%nat with j by lia. lia.
Qed.

Lemma increment_length (h : list Z) (v : Z) :
  List.length (increment h v) = List.length h.
Proof.
  unfold increment. destruct (nth_error h (Z.to_nat v)) as [c|] eqn:E; [|reflexivity].
  assert (Hlt : (Z.to_nat v < List.length h)%nat) by (apply nth_error_Some; congruence).
  rewrite length_app, length_firstn. cbn [List.length]. rewrite length_skipn. lia.
Qed.

(** [histogram[v]] is the number of pixels of gray level [v]. *)
Lemma histogramOf_counts (gray : list Z) (j : nat) :
  Forall (fun x => 0 <= x <= 255) gray ->
  nth j (histogramOf gray) 0 = occurrences (Z.of_nat j) gray.
Proof.
  intros Hg. unfold histogramOf.
  assert (H : forall h, List.length h = 256%nat ->
             nth j (fold_left increment gray h) 0
             = nth j h 0 + occurrences (Z.of_nat j) gray).
  { induction Hg as [|x gray Hx Hg IH]; intros h Hl; cbn [fold_left].
    - unfold occurrences. simpl. lia.
    - rewrite IH by (rewrite increment_length; exact Hl).
      rewrite increment_nth by lia.
      unfold occurrences. cbn [filter].
      destruct (Z.eqb_spec (Z.of_nat j) x); cbn [List.length]; lia. }
  rewrite H by reflexivity.
  assert (Hz : nth j (repeat 0 256) 0 = 0).
  { destruct (nth_in_or_default j (repeat 0 256) 0) as [Hin|E];
      [apply repeat_spec in Hin; exact Hin | exact E]. }
  lia.
Qed.

Lemma countUpTo_succ (g : Z) (l : list Z) :
  countUpTo (g + 1) l = countUpTo g l + occurrences (g + 1) l.
Proof.
  unfold countUpTo, occurrences. induction l as [|x l IH]; [reflexivity|].
  cbn [filter].
  destruct (Z.leb_spec x (g + 1)), (Z.leb_spec x g), (Z.eqb_spec (g + 1) x);
    cbn [List.length]; lia.
Qed.

Lemma countUpTo_0 (l : list Z) :
  Forall (fun x => 0 <= x <= 255) l -> countUpTo 0 l = occurrences 0 l.
Proof.
  unfold countUpTo, occurrences. induction 1 as [|x l Hx Hl IH]; [reflexivity|].
  cbn [filter].
  destruct (Z.leb_spec x 0), (Z.eqb_spec 0 x); cbn [List.length]; lia.
Qed.

Lemma total_firstn_S (h : list Z) (i : nat) :
  (i < List.length h)%nat ->
  total (firstn (S i) h) = total (firstn i h) + nth i h 0.
Proof.
  revert i. induction h as [|c h IH]; intros i Hi; [simpl in Hi; lia|].
  destruct i as [|i].
  - unfold total. simpl. lia.
  - cbn [List.length] in Hi. specialize (IH i ltac:(lia)).
    change (firstn (S (S i)) (c :: h)) with (c :: firstn (S i) h).
    change (firstn (S i) (c :: h)) with (c :: firstn i h).
    change (nth (S i) (c :: h) 0) with (nth i h 0).
    unfold total in *. cbn [fold_right]. lia.
Qed.

Lemma runningSums_nth (h : list Z) (before : Z) (i : nat) :
  (i < List.length h)%nat ->
  nth i (runningSums before h) 0 = before + total (firstn (S i) h).
Proof.
  revert before i. induction h as [|c h IH]; intros before i Hi; [simpl in Hi; lia|].
  cbn [runningSums]. destruct i as [|i].
  - unfold total. simpl. lia.
  - cbn [List.length] in Hi. cbn [nth]. rewrite IH by lia.
    change (firstn (S (S i)) (c :: h)) with (c :: firstn (S i) h).
    unfold total. cbn [fold_right]. lia.
Qed.

(** [accumulator[g]] is the number of pixels of gray level at most [g]. *)
Lemma accumulator_nth (imageData : ImageData) (g : Z) :
  0 <= g <= 255 ->
  nth (Z.to_nat g) (runningSums 0 (histogramOf (rgbToGrayscale imageData))) 0
  = countUpTo g (rgbToGrayscale imageData).
Proof.
  intros Hg.
  destruct (rgbToGrayscale_bytes imageData) as [_ Hbytes].
  destruct (histogramOf_total _ Hbytes) as (_ & Hl & _).
  set (gray := rgbToGrayscale imageData) in *.
  assert (H : forall k : nat, (k <= 255)%nat ->
             total (firstn (S k) (histogramOf gray)) = countUpTo (Z.of_nat k) gray).
  { induction k as [|k IH]; intros Hk.
    - rewrite total_firstn_S by lia. cbn [firstn].
      rewrite (histogramOf_counts gray 0 Hbytes), countUpTo_0 by exact Hbytes.
      unfold total. simpl. lia.
    - rewrite total_firstn_S by lia. rewrite IH by lia.
      rewrite (histogramOf_counts gray (S k) Hbytes).
      replace (Z.of_nat (S k)) with (Z.of_nat k + 1) by lia.
      now rewrite countUpTo_succ. }
  rewrite runningSums_nth by lia. rewrite H by lia.
  rewrite Z2Nat.id by lia. lia.
Qed.

Lemma scanUp_spec (clip : Z) (rest : list Z) :
  0 <= clip < 2 ^ 53 -> Forall (fun a => 0 <= a < 2 ^ 53) rest ->
  forall g0,
    let g := scanUp (ofZ clip) rest g0 in
    g0 <= g <= g0 + Z.of_nat (List.length rest)
    /\ (forall j, 0 <= j < g - g0 -> nth (Z.to_nat j) rest 0 < clip)
    /\ (g < g0 + Z.of_nat (List.length rest) -> clip <= nth (Z.to_nat (g - g0)) rest 0).
Proof.
  intros Hc. induction 1 as [|a rest Ha Hrest IH]; intros g0; cbn [scanUp List.length].
  - cbv zeta. split; [lia|]. split; intros; lia.
  - cbv zeta. rewrite ofZ_ltb by lia.
    destruct (Z.ltb_spec a clip) as [Hlt|Hge].
    + specialize (IH (g0 + 1)). cbv zeta in IH.
      set (g := scanUp (ofZ clip) rest (g0 + 1)) in *.
      destruct IH as (B & Hbelow & Hat).
      split; [lia|]. split.
      * intros j Hj. destruct (Z.eq_dec j 0) as [->|Hj0]; [exact Hlt|].
        replace (Z.to_nat j) with (S (Z.to_nat (j - 1))) by lia. cbn [nth].
        apply Hbelow. lia.
      * intros Hg. replace (Z.to_nat (g - g0)) with (S (Z.to_nat (g - (g0 + 1)))) by lia.
        cbn [nth]. apply Hat. lia.
    + split; [lia|]. split.
      * intros j Hj. lia.
      * intros _. rewrite Z.sub_diag. exact Hge.
Qed.

Lemma scanDown_spec (bound : Z) (rest : list Z) :
  0 <= bound < 2 ^ 53 -> Forall (fun a => 0 <= a < 2 ^ 53) rest ->
  forall g0,
    let g := scanDown (ofZ bound) rest g0 in
    g0 - Z.of_nat (List.length rest) <= g <= g0
    /\ (forall j, 0 <= j < g0 - g -> bound <= nth (Z.to_nat j) rest 0)
    /\ (g0 - Z.of_nat (List.length rest) < g -> nth (Z.to_nat (g0 - g)) rest 0 < bound).
Proof.
  intros Hc. induction 1 as [|a rest Ha Hrest IH]; intros g0; cbn [scanDown List.length].
  - cbv zeta. split; [lia|]. split; intros; lia.
  - cbv zeta. rewrite ofZ_leb by lia.
    destruct (Z.leb_spec bound a) as [Hle|Hgt].
    + specialize (IH (g0 - 1)). cbv zeta in IH.
      set (g := scanDown (ofZ bound) rest (g0 - 1)) in *.
      destruct IH as (B & Habove & Hat).
      split; [lia|]. split.
      * intros j Hj. destruct (Z.eq_dec j 0) as [->|Hj0]; [exact Hle|].
        replace (Z.to_nat j) with (S (Z.to_nat (j - 1))) by lia. cbn [nth].
        apply Habove. lia.
      * intros Hg. replace (Z.to_nat (g0 - g)) with (S (Z.to_nat (g0 - 1 - g))) by lia.
        cbn [nth]. apply Hat. lia.
    + split; [lia|]. split.
      * intros j Hj. lia.
      * intros _. rewrite Z.sub_diag. exact Hgt.
Qed.

Lemma countUpTo_range (g : Z) (l : list Z) : 0 <= countUpTo g l <= Z.of_nat (List.length l).
Proof.
  unfold countUpTo. pose proof (filter_length_le (fun v => v <=? g) l). lia.
Qed.

Lemma countUpTo_all (l : list Z) :
  Forall (fun x => 0 <= x <= 255) l -> countUpTo 255 l = Z.of_nat (List.length l).
Proof.
  unfold countUpTo. induction 1 as [|x l Hx Hl IH]; [reflexivity|].
  cbn [filter]. destruct (Z.leb_spec x 255); [|lia]. cbn [List.length]. lia.
Qed.

(** The clipping bounds of [autoBrightnessContrast], in terms of the number
    of pixels of each gray level: with [clip] the floor of a two-hundredth of
    the number [n] of pixels, [minGray] is the least level that at least
    [clip] pixels do not exceed, and [maxGray] the greatest level that fewer
    than [n - clip] pixels do not exceed, or -1.  [maxGray] is at most 254 and
    at least [minGray - 1]. *)
Lemma grayBounds_spec (imageData : ImageData) :
  wellFormed imageData = true ->
  width imageData * height imageData < 2 ^ 52 ->
  let gray := rgbToGrayscale imageData in
  let n := width imageData * height imageData in
  let clip := n / 200 in
  let minGray := fst (grayBounds imageData) in
  let maxGray := snd (grayBounds imageData) in
  (0 <= minGray <= 255
   /\ clip <= countUpTo minGray gray
   /\ forall g, 0 <= g < minGray -> countUpTo g gray < clip)
  /\ (-1 <= maxGray <= 254
      /\ (forall g, maxGray < g <= 255 -> n - clip <= countUpTo g gray)
      /\ (0 <= maxGray -> countUpTo maxGray gray < n - clip))
  /\ minGray - 1 <= maxGray.
Proof.
  intros Hwf Hsize. cbv zeta.
  destruct (wellFormed_length imageData Hwf) as (Hw & Hh & _).
  destruct (rgbToGrayscale_bytes imageData) as [Hlen Hbytes].
  destruct (histogramOf_total _ Hbytes) as (Htot & Hl & Hpos).
  destruct (runningSums_spec _ Hpos 0) as (H1 & H2 & _ & _).
  set (gray := rgbToGrayscale imageData) in *.
  set (n := width imageData * height imageData) in *.
  assert (Hn : 0 <= n) by (unfold n; nia).
  pose proof (accumulator_nth imageData) as Hacc. fold gray in Hacc.
  set (acc := runningSums 0 (histogramOf gray)) in *.
  assert (Hall : countUpTo 255 gray = n).
  { rewrite (countUpTo_all gray Hbytes), Hlen. lia. }
  assert (Hmax : nth 255 acc 0 = n).
  { rewrite <- Hall. apply (Hacc 255). lia. }
  assert (Hbound : Forall (fun a => 0 <= a < 2 ^ 53) acc).
  { apply Forall_forall. intros a Ha. apply In_nth_error in Ha. destruct Ha as [i Hi].
    specialize (H2 i a Hi). rewrite Htot, Hlen in H2. lia. }
  assert (Hclip : 0 <= n / 200 /\ 200 * (n / 200) <= n).
  { split; [apply Z.div_pos; lia | apply Z.mul_div_le; lia]. }
  unfold grayBounds. cbv zeta. fold gray acc. rewrite Hmax.
  rewrite clipHistCount_ofZ by lia.
  rewrite ofZ_sub by lia.
  cbn [fst snd].
  pose proof (scanUp_spec (n / 200) acc ltac:(lia) Hbound 0) as Up.
  pose proof (scanDown_spec (n - n / 200) (rev acc) ltac:(lia)
                ltac:(apply Forall_rev; exact Hbound) 255) as Down.
  cbv zeta in Up, Down.
  set (minGray := scanUp (ofZ (n / 200)) acc 0) in *.
  set (maxGray := scanDown (ofZ (n - n / 200)) (rev acc) 255) in *.
  rewrite length_rev in Down. rewrite H1, Hl in Up, Down.
  destruct Up as (Bmin & Hbelow & Hat). destruct Down as (Bmax & Habove & Hstop).
  assert (Hrev : forall j, 0 <= j <= 255 ->
                   nth (Z.to_nat j) (rev acc) 0 = countUpTo (255 - j) gray).
  { intros j Hj. rewrite rev_nth by (rewrite H1, Hl; lia).
    rewrite H1, Hl. rewrite <- Hacc by lia. f_equal. lia. }
  assert (Emin : minGray <= 255).
  { destruct (Z_le_gt_dec minGray 255) as [|Hgt]; [assumption | exfalso].
    specialize (Hbelow 255 ltac:(lia)). rewrite (Hacc 255) in Hbelow by lia. lia. }
  assert (Emax : maxGray <= 254).
  { destruct (Z_le_gt_dec maxGray 254) as [|Hgt]; [assumption | exfalso].
    specialize (Hstop ltac:(lia)). replace (255 - maxGray) with 0 in Hstop by lia.
    rewrite (Hrev 0) in Hstop by lia. simpl Z.sub in Hstop. lia. }
  assert (Pmin : forall g, 0 <= g < minGray -> countUpTo g gray < n / 200).
  { intros g Hg. rewrite <- Hacc by lia. apply Hbelow. lia. }
  assert (Pmax : forall g, maxGray < g <= 255 -> n - n / 200 <= countUpTo g gray).
  { intros g Hg. specialize (Habove (255 - g) ltac:(lia)).
    rewrite Hrev in Habove by lia. replace (255 - (255 - g)) with g in Habove by lia.
    exact Habove. }
  split; [|split].
  - split; [lia|]. split; [|exact Pmin].
    specialize (Hat ltac:(simpl; lia)). rewrite Z.sub_0_r, Hacc in Hat by lia. exact Hat.
  - split; [simpl in Bmax; lia|]. split; [exact Pmax|].
    intros H0. specialize (Hstop ltac:(simpl; lia)).
    rewrite Hrev in Hstop by lia. replace (255 - (255 - maxGray)) with maxGray in Hstop by lia.
    exact Hstop.
  - destruct (Z_le_gt_dec (minGray - 1) maxGray) as [|Hgt]; [assumption | exfalso].
    specialize (Pmin (maxGray + 1) ltac:(simpl in Bmax; lia)).
    specialize (Pmax (maxGray + 1) ltac:(lia)). lia.
Qed.

(** X11: the clipping bounds of [autoBrightnessContrast], in terms of the
    number of pixels of each gray level: with [clip] the floor of a
    two-hundredth of the number [n] of pixels, [minGray] is the least level
    that at least [clip] pixels do not exceed, and [maxGray] the greatest
    level that fewer than [n - clip] pixels do not exceed, or -1.  [maxGray]
    is at most 254 and at least [minGray - 1]. *)
Theorem grayBounds_levels (imageData : ImageData) :
  wellFormed imageData = true ->
  width imageData * height imageData < 2 ^ 52 ->
  let gray := rgbToGrayscale imageData in
  let n := width imageData * height imageData in
  let clip := n / 200 in
  let minGray := fst (grayBounds imageData) in
  let maxGray := snd (grayBounds imageData) in
  (0 <= minGray <= 255
   /\ clip <= countUpTo minGray gray
   /\ forall g, 0 <= g < minGray -> countUpTo g gray < clip)
  /\ (-1 <= maxGray <= 254
      /\ (forall g, maxGray < g <= 255 -> n - clip <= countUpTo g gray)
      /\ (0 <= maxGray -> countUpTo maxGray gray < n - clip))
  /\ minGray - 1 <= maxGray.
Proof. exact (grayBounds_spec imageData). Qed.

(** ** The stretch at the clipping bounds *)

Lemma endpoints_table :
  forallb (fun lo => forallb (fun hi => if lo <? hi then endpointsOk lo hi else true)
                             (range 255)) (range 255) = true.
Proof. vm_compute. reflexivity. Qed.

(** X19: after [autoBrightnessContrast], when [minGray] is below [maxGray],
    every byte of the buffer that equals [minGray] is 0 and every byte that
    equals [maxGray] is 255. *)
Theorem autoBrightnessContrast_endpoints (imageData : ImageData) (i : nat) (v : Z) :
  wellFormed imageData = true ->
  width imageData * height imageData < 2 ^ 52 ->
  let minGray := fst (grayBounds imageData) in
  let maxGray := snd (grayBounds imageData) in
  minGray < maxGray ->
  nth_error (data imageData) i = Some v ->
  (v = minGray -> nth_error (data (autoBrightnessContrast imageData)) i = Some 0)
  /\ (v = maxGray -> nth_error (data (autoBrightnessContrast imageData)) i = Some 255).
Proof.
  intros Hwf Hs minGray maxGray Hlt Hv.
  destruct (grayBounds_spec imageData Hwf Hs) as ((Bmin & _) & (Bmax & _) & _).
  cbv zeta in Bmin, Bmax. fold minGray in Bmin. fold maxGray in Bmax.
  pose proof endpoints_table as T. rewrite forallb_forall in T.
  specialize (T minGray ltac:(apply range_In; lia)). rewrite forallb_forall in T.
  specialize (T maxGray ltac:(apply range_In; lia)).
  destruct (Z.ltb_spec minGray maxGray); [|lia].
  apply andb_prop in T. destruct T as [T0 T255]. apply Z.eqb_eq in T0, T255.
  rewrite autoBrightnessContrast_data, nth_error_map, Hv. cbn [option_map].
  unfold stretch. destruct (grayBounds imageData) as [lo hi].
  cbn [fst snd] in *. subst minGray maxGray. cbn [fst snd].
  split; intros ->; f_equal; assumption.
Qed.

Lemma autoBrightnessContrast_endpoints_witness :
  nth_error (data (autoBrightnessContrast translucentPair)) 0 = Some 0.
Proof.
  destruct (autoBrightnessContrast_endpoints translucentPair 0 0) as [H _].
  - vm_compute. reflexivity.
  - simpl. lia.
  - vm_compute. reflexivity.
  - reflexivity.
  - apply H. vm_compute. reflexivity.
Defined.

Lemma grayBounds_levels_witness :
  fst (grayBounds nearBlackPair) - 1 <= snd (grayBounds nearBlackPair).
Proof.
  destruct (grayBounds_levels nearBlackPair) as (_ & _ & H).
  - vm_compute. reflexivity.
  - simpl. lia.
  - exact H.
Defined.

(** X10: the histogram and the accumulator of [autoBrightnessContrast] have
    256 entries; [histogram[v]] is the number of pixels of gray level [v],
    [accumulator[v]] the number of pixels of gray level at most [v], and the
    last entry of the accumulator, the [max] of the source, is the number of
    pixels. *)
Theorem accumulator_counts (imageData : ImageData) :
  let gray := rgbToGrayscale imageData in
  let histogram := histogramOf gray in
  let accumulator := runningSums 0 histogram in
  List.length histogram = 256%nat
  /\ List.length accumulator = 256%nat
  /\ (forall v, 0 <= v <= 255 ->
        nth (Z.to_nat v) histogram 0 = occurrences v gray
        /\ nth (Z.to_nat v) accumulator 0 = countUpTo v gray)
  /\ nth 255 accumulator 0 = Z.max 0 (width imageData * height imageData).
Proof.
  cbv zeta.
  destruct (rgbToGrayscale_bytes imageData) as [_ Hbytes].
  destruct (histogramOf_total _ Hbytes) as (_ & Hl & _).
  destruct (accumulator_total imageData) as (Hlen & _ & Hlast).
  split; [exact Hl|]. split; [exact Hlen|]. split; [|exact Hlast].
  intros v Hv. split.
  - rewrite (histogramOf_counts _ (Z.to_nat v) Hbytes). f_equal. lia.
  - apply accumulator_nth, Hv.
Qed.

(** ** Images of one gray level *)

Lemma Math_floor_ofZ (n : Z) : 0 <= n < 2 ^ 53 -> Math_floor (ofZ n) = ofZ n.
Proof.
  intros Hn. destruct (Z.eq_dec n 0) as [->|Hn0]; [vm_compute; reflexivity|].
  destruct (ofZ_canonical n ltac:(lia)) as (m & Hf & Hm & _ & He).
  unfold Math_floor. rewrite Hf.
  destruct (Z.leb_spec 0 (Zdigits2 n - 53)); [reflexivity|].
  simpl cond_Zopp. rewrite Z.shiftr_div_pow2 by lia. rewrite Hm, Z.div_mul; [reflexivity|].
  pose proof (pow2_pos (- (Zdigits2 n - 53)) ltac:(lia)). lia.
Qed.

Lemma sumOver_const (f : Z -> Z) (L : Z) (l : list Z) :
  (forall p, In p l -> f p = L) -> sumOver f l = L * Z.of_nat (List.length l).
Proof.
  unfold sumOver. induction l as [|p l IH]; intros H; [simpl; lia|].
  cbn [map fold_right List.length]. rewrite IH by (intros; apply H; now right).
  rewrite (H p) by now left. lia.
Qed.

(** The pixels of a block that starts inside the image are pixels of the
    image. *)
Lemma blockPixels_inside (settings : Settings) (imageData : ImageData) (x y p : Z) :
  0 <= x -> 0 <= y ->
  In p (blockPixels settings imageData x y) ->
  0 <= p < width imageData * height imageData.
Proof.
  intros Hx Hy Hp. unfold blockPixels in Hp. cbv zeta in Hp.
  apply in_flat_map in Hp. destruct Hp as (dy & Hdy & Hp).
  apply in_map_iff in Hp. destruct Hp as (dx & <- & Hdx).
  apply range_In in Hdy, Hdx. nia.
Qed.

Lemma substring_get (s : string) (k : nat) (ch : ascii) :
  String.get k s = Some ch -> substring k 1 s = String ch EmptyString.
Proof.
  revert k. induction s as [|a s IH]; intros k H; [destruct k; discriminate H|].
  destruct k as [|k].
  - simpl in H. injection H as ->. simpl. now destruct s.
  - simpl in H. simpl. apply IH, H.
Qed.

Lemma concat_repeat {A : Type} (f : A -> string) (s : string) (l : list A) :
  (forall x, In x l -> f x = s) ->
  String.concat "" (map f l) = String.concat "" (repeat s (List.length l)).
Proof.
  intros H. f_equal. apply map_const, H.
Qed.

(** A block of an image whose pixels all have the gray level [L]: with the
    brightness 1 and no edge glyph its glyph is the space for level 0 and the
    glyph of rank [floor (L * N / 256)] of the ramp otherwise. *)
Lemma glyphAt_flat (settings : Settings) (imageData : ImageData) (L r c : Z) :
  wellFormed imageData = true ->
  0 < blockSize settings ->
  width imageData * height imageData < 2 ^ 44 ->
  detectEdges settings = false ->
  brightness settings = 1%float ->
  1 <= Z.of_nat (String.length (asciiChars settings)) < 2 ^ 44 ->
  0 <= L <= 255 ->
  rgbToGrayscale imageData = repeat L (Z.to_nat (width imageData * height imageData)) ->
  0 <= c * blockSize settings < width imageData ->
  0 <= r * blockSize settings < height imageData ->
  let N := Z.of_nat (String.length (asciiChars settings)) in
  let glyph :=
    if L =? 0 then " "%string
    else substring (Z.to_nat (L * N / 256)) 1 (asciiChars settings) in
  glyphText (glyphAt settings imageData None r c) = JString glyph
  /\ String.length glyph = 1%nat.
Proof.
  intros Hwf Hb Hs Hde Hbr HN HL Hgray Hx Hy N glyph.
  unfold glyphAt. cbv zeta. cbn [glyphText].
  set (x := c * blockSize settings) in *. set (y := r * blockSize settings) in *.
  set (info := calculateBlockInfo settings imageData x y None).
  destruct (avgBrightness_blockMean settings imageData None x y Hwf Hb Hx Hy Hs)
    as [Havg _].
  cbv zeta in Havg. fold info in Havg.
  assert (Hmean : blockMean settings imageData x y (grayLevel imageData) = L).
  { unfold blockMean. cbv zeta.
    pose proof (block_size settings imageData x y Hb Hx Hy Hs) as Hn.
    rewrite (sumOver_const _ L).
    - apply Z.div_mul. lia.
    - intros p Hp. apply blockPixels_inside in Hp; [|lia|lia].
      unfold grayLevel. rewrite Hgray. apply nth_repeat_lt. lia. }
  rewrite Hmean in Havg.
  assert (Hcl : clampedBrightness settings info = ofZ L).
  { unfold clampedBrightness. cbv zeta. rewrite Havg, Hbr, <- ofZ_1.
    rewrite ofZ_mul, Z.mul_1_r by lia.
    rewrite Math_floor_ofZ by lia.
    rewrite <- ofZ_255, Math_min_ofZ by lia.
    rewrite <- ofZ_zero, Math_max_ofZ by lia.
    f_equal. lia. }
  assert (Hno : edgeOverride settings info = false).
  { unfold edgeOverride. now rewrite Hde. }
  destruct (selectAsciiChar_ramp settings info L Hno Hcl HL HN) as [H0 H1].
  unfold glyph. destruct (Z.eqb_spec L 0) as [->|HL0].
  - split; [apply H0; reflexivity | reflexivity].
  - destruct (H1 ltac:(lia)) as (_ & ch & Hget & Hsel).
    fold N in Hget. rewrite (substring_get _ _ _ Hget). split; [exact Hsel | reflexivity].
Qed.

(** X4: an image whose pixels all have the same gray level [L], with the default
    brightness and neither auto adjustment nor edge detection: every block
    gets the same glyph, the space for level 0 and the glyph of rank
    [floor (L * N / 256)] of the ramp of [N] glyphs otherwise, and the text is
    [rows] lines of [cols] times that glyph. *)
Theorem generatePass_flat_image (host : Host) (settings : Settings)
    (imageData : ImageData) (L : Z) :
  wellFormed imageData = true ->
  0 < blockSize settings ->
  width imageData * height imageData < 2 ^ 44 ->
  autoAdjust settings = false ->
  detectEdges settings = false ->
  brightness settings = 1%float ->
  1 <= Z.of_nat (String.length (asciiChars settings)) < 2 ^ 44 ->
  0 <= L <= 255 ->
  rgbToGrayscale imageData = repeat L (Z.to_nat (width imageData * height imageData)) ->
  let N := Z.of_nat (String.length (asciiChars settings)) in
  let glyph :=
    if L =? 0 then " "%string
    else substring (Z.to_nat (L * N / 256)) 1 (asciiChars settings) in
  let cols := Z.to_nat (blockCount (width imageData) (blockSize settings)) in
  let rows := Z.to_nat (blockCount (height imageData) (blockSize settings)) in
  String.length glyph = 1%nat
  /\ textOf (generatePass host settings imageData)
     = Some (String.concat ""
               (repeat (String.append (String.concat "" (repeat glyph cols)) newline) rows)).
Proof.
  intros Hwf Hb Hs Haa Hde Hbr HN HL Hgray N glyph cols rows.
  destruct (wellFormed_length imageData Hwf) as (Hw & Hh & _).
  pose proof (generatePass_cells host settings imageData Hb Hw Hh) as G.
  cbv zeta in G. rewrite Haa, Hde in G. cbn [andb] in G. rewrite G. cbn [textOf outText].
  assert (Hcell : forall r c,
             In r (range (blockCount (height imageData) (blockSize settings))) ->
             In c (range (blockCount (width imageData) (blockSize settings))) ->
             glyphText (glyphAt settings imageData None r c) = JString glyph
             /\ String.length glyph = 1%nat).
  { intros r c Hr Hc. apply range_In in Hr, Hc.
    apply glyphAt_flat; try assumption.
    - exact (blockCount_inside _ _ _ Hb Hc).
    - exact (blockCount_inside _ _ _ Hb Hr). }
  split.
  - unfold glyph. destruct (Z.eqb_spec L 0) as [|HL0]; [reflexivity|].
    assert (B : 0 <= L * N / 256 < N).
    { unfold N. split; [apply Z.div_pos; nia | apply Z.div_lt_upper_bound; nia]. }
    destruct (String.get (Z.to_nat (L * N / 256)) (asciiChars settings)) as [ch|] eqn:E.
    + now rewrite (substring_get _ _ _ E).
    + exfalso. revert E.
      assert (Hlt : (Z.to_nat (L * N / 256) < String.length (asciiChars settings))%nat)
        by (unfold N in *; lia).
      revert Hlt. generalize (Z.to_nat (L * N / 256)). generalize (asciiChars settings).
      induction s as [|a s IH]; intros k Hk; simpl in Hk; [lia|].
      destruct k; simpl; [discriminate|]. apply IH. lia.
  - f_equal.
    unfold rows, cols. rewrite <- !range_length.
    apply concat_repeat. intros r Hr. f_equal.
    apply concat_repeat. intros c Hc.
    destruct (Hcell r c Hr Hc) as [Hg _].
    change (toString (glyphText (glyphAt settings imageData None r c)) = glyph).
    now rewrite Hg.
Qed.

Lemma generatePass_flat_image_witness :
  textOf (generatePass Reference.host scenarioSettings (uniformImage 4 4 200 100 50 255))
  = Some (String.append "=" newline).
Proof.
  destruct (generatePass_flat_image Reference.host scenarioSettings
              (uniformImage 4 4 200 100 50 255) 124) as [_ H].
  - vm_compute. reflexivity.
  - reflexivity.
  - simpl. lia.
  - reflexivity.
  - reflexivity.
  - reflexivity.
  - simpl. lia.
  - lia.
  - vm_compute. reflexivity.
  - rewrite H. vm_compute. reflexivity.
Defined.

(** ** The blur at the smallest kernel sizes *)

(** A finite number that is not zero, divided by itself, is 1. *)
Lemma div_self (k : float) (s : bool) (m : positive) (e : Z) :
  Prim2SF k = S754_finite s m e -> (k / k)%float = 1%float.
Proof.
  intros Hk. apply Prim2SF_inj. rewrite div_spec, Hk.
  unfold SF64div, SFdiv, SFdiv_core_binary.
  replace (Zdigits2 (Z.pos m) + e - (Zdigits2 (Z.pos m) + e)) with 0 by lia.
  rewrite Z.sub_diag.
  change (Z.min (fexp64 0) 0) with (-53). change (0 - -53) with 53. cbv iota.
  rewrite Z.shiftl_mul_pow2 by lia.
  replace (Z.div_eucl (Z.pos m * 2 ^ 53) (Z.pos m)) with (2 ^ 53, 0).
  2:{ pose proof (Z.div_eucl_eq (Z.pos m * 2 ^ 53) (Z.pos m) ltac:(lia)) as E.
      pose proof (Z.mod_pos_bound (Z.pos m * 2 ^ 53) (Z.pos m) ltac:(lia)) as B.
      unfold Z.modulo in B.
      destruct (Z.div_eucl (Z.pos m * 2 ^ 53) (Z.pos m)) as [q r].
      assert (q = 2 ^ 53) by nia. assert (r = 0) by nia. now subst. }
  replace (new_location (Z.pos m) 0) with loc_Exact
    by (unfold new_location; destruct (Z.even (Z.pos m)); reflexivity).
  destruct s; reflexivity.
Qed.

Lemma add_0_finite (k : float) (s : bool) (m : positive) (e : Z) :
  Prim2SF k = S754_finite s m e -> (0 + k)%float = k.
Proof.
  intros Hk. apply Prim2SF_inj. rewrite add_spec, Hk. reflexivity.
Qed.

(** A positive finite number has a mantissa and an exponent. *)
Lemma positive_finite (k : float) :
  (0 <? k)%float = true -> is_finite k = true ->
  exists s m e, Prim2SF k = S754_finite s m e.
Proof.
  intros Hpos Hfin. rewrite ltb_spec in Hpos.
  destruct (is_finite_SF k Hfin) as [[s Hz]|H]; [|exact H].
  rewrite Hz in Hpos. destruct s; discriminate Hpos.
Qed.

(** The kernel of one tap, normalised, is [1]. *)
Lemma gaussianKernel_single (host : Host) (sigma : float) :
  newFloat32Array host (Math_ceil (6 * sigma)) = Some 1 ->
  let k := kernelEntry host sigma (Math_ceil (6 * sigma)) 0 in
  (0 <? k)%float = true -> is_finite k = true ->
  gaussianKernel host sigma = Some [1%float].
Proof.
  intros Hsize k Hpos Hfin. unfold gaussianKernel. cbv zeta. rewrite Hsize.
  change (range 1) with [0]. cbn [map fold_left]. fold k.
  destruct (positive_finite k Hpos Hfin) as (s & m & e & Hk).
  rewrite (add_0_finite k s m e Hk), (div_self k s m e Hk). reflexivity.
Qed.

(** A list of [rows * cols] elements read row by row. *)
Lemma rows_of_list {A : Type} (l : list A) (d : A) (rows cols : Z) :
  0 <= rows -> 0 <= cols -> Z.of_nat (List.length l) = rows * cols ->
  flat_map (fun y => map (fun x => nth (Z.to_nat (y * cols + x)) l d) (range cols))
           (range rows) = l.
Proof.
  intros Hr Hc Hl.
  apply nth_error_ext. intros i.
  destruct (Nat.lt_ge_cases i (List.length l)) as [Hi|Hi].
  - assert (Hcols : 0 < cols) by nia.
    set (r := Z.of_nat i / cols). set (c := Z.of_nat i mod cols).
    assert (Hrc : Z.of_nat i = r * cols + c)
      by (unfold r, c; rewrite Z.mul_comm; apply Z.div_mod; lia).
    assert (Bc : 0 <= c < cols) by (unfold c; apply Z.mod_pos_bound; lia).
    assert (Br : 0 <= r < rows).
    { split; [unfold r; apply Z.div_pos; lia|].
      apply Z.div_lt_upper_bound; [lia|]. rewrite Z.mul_comm. lia. }
    replace i with (Z.to_nat (r * cols + c)) by lia.
    rewrite (flat_map_rows_nth (fun y x => nth (Z.to_nat (y * cols + x)) l d)
               rows cols r c Br Bc).
    symmetry. apply nth_error_nth'. lia.
  - rewrite (proj2 (nth_error_None l i)) by lia.
    apply nth_error_None. rewrite flat_map_rows_length, !range_length. nia.
Qed.

(** One pass of the blur with the kernel [1] copies the bytes. *)
Lemma blurAt_single (sample : Z -> float) (bound c v : Z) :
  0 <= c < bound -> 0 <= v <= 255 -> sample c = ofZ v ->
  ToUint8 (blurAt [1%float] sample bound c) = v.
Proof.
  intros Hc Hv Hs. unfold blurAt. cbv zeta.
  change (Z.of_nat (List.length [1%float])) with 1. change (range 1) with [0].
  cbn [fold_left]. change (1 / 2) with 0.
  replace (c + 0 - 0) with c by lia.
  destruct (Z.leb_spec 0 c); [|lia]. destruct (Z.ltb_spec c bound); [|lia].
  cbn [andb]. change (readF [1%float] 0) with 1%float.
  rewrite Hs, <- ofZ_1, ofZ_mul, Z.mul_1_r by lia.
  rewrite <- ofZ_zero, ofZ_add by lia.
  apply ToUint8_ofZ. lia.
Qed.

Lemma readZ_nth (l : list Z) (i : Z) :
  0 <= i < Z.of_nat (List.length l) -> readZ l i = ofZ (nth (Z.to_nat i) l 0).
Proof.
  intros Hi. unfold readZ. destruct (Z.ltb_spec i 0); [lia|].
  rewrite (nth_error_nth' l 0) by lia. reflexivity.
Qed.

Lemma pass_single (src : list Z) (w h : Z) (horizontal : bool) :
  0 <= w -> 0 <= h -> Z.of_nat (List.length src) = h * w ->
  Forall (fun v => 0 <= v <= 255) src ->
  flat_map (fun y => map (fun x =>
     ToUint8 (if horizontal
              then blurAt [1%float] (fun ix => readZ src (y * w + ix)) w x
              else blurAt [1%float] (fun iy => readZ src (iy * w + x)) h y))
     (range w)) (range h) = src.
Proof.
  intros Hw Hh Hl Hb.
  etransitivity; [|exact (rows_of_list src 0 h w Hh Hw Hl)].
  rewrite !flat_map_concat_map. f_equal.
  apply map_ext_in. intros y Hy. apply map_ext_in. intros x Hx.
  apply range_In in Hy, Hx.
  assert (Hi : 0 <= y * w + x < Z.of_nat (List.length src)) by nia.
  assert (Hv : 0 <= nth (Z.to_nat (y * w + x)) src 0 <= 255).
  { rewrite Forall_forall in Hb. apply Hb, nth_In. lia. }
  destruct horizontal; apply blurAt_single; try assumption; apply readZ_nth; exact Hi.
Qed.

(** X7: the blur at the two smallest kernel sizes.  With a kernel of no tap
    (a sigma of 0) every byte of the result is 0; with a kernel of one tap
    (a sigma of at most 1/6, such as the 0.1 the sigma sliders start at) the
    result is the grayscale image itself.  In both cases the blur throws
    instead if the engine cannot allocate the kernel array. *)
Theorem applyGaussianBlur_small_sigma (host : Host) (imageData : ImageData)
    (sigma : float) :
  wellFormed imageData = true ->
  (ToIndex (Math_ceil (6 * sigma)) = Some 0 ->
   applyGaussianBlur host imageData sigma
   = if allocates host 0
     then Some (repeat 0 (Z.to_nat (width imageData * height imageData)))
     else None)
  /\ (ToIndex (Math_ceil (6 * sigma)) = Some 1 ->
      (0 <? kernelEntry host sigma (Math_ceil (6 * sigma)) 0)%float = true ->
      is_finite (kernelEntry host sigma (Math_ceil (6 * sigma)) 0) = true ->
      applyGaussianBlur host imageData sigma
      = if allocates host 1 then Some (rgbToGrayscale imageData) else None).
Proof.
  intros Hwf. destruct (wellFormed_length imageData Hwf) as (Hw & Hh & _).
  destruct (rgbToGrayscale_bytes imageData) as [Hlen Hbytes].
  split.
  - intros Hsize. unfold applyGaussianBlur, gaussianKernel, newFloat32Array.
    cbv zeta. rewrite Hsize. destruct (allocates host 0); [|reflexivity].
    change (range 0) with (@nil Z). cbn [map]. f_equal.
    replace (Z.to_nat (width imageData * height imageData))
      with (List.length (range (height imageData)) * List.length (range (width imageData)))%nat
      by (rewrite !range_length; nia).
    apply flat_map_rows_const. intros y x _ _. reflexivity.
  - intros Hsize Hpos Hfin. unfold applyGaussianBlur.
    destruct (allocates host 1) eqn:Halloc.
    2:{ unfold gaussianKernel, newFloat32Array. now rewrite Hsize, Halloc. }
    assert (Hnew : newFloat32Array host (Math_ceil (6 * sigma)) = Some 1)
      by (unfold newFloat32Array; now rewrite Hsize, Halloc).
    rewrite (gaussianKernel_single host sigma Hnew Hpos Hfin). cbv zeta. f_equal.
    assert (Hl : Z.of_nat (List.length (rgbToGrayscale imageData))
                 = height imageData * width imageData) by (rewrite Hlen; nia).
    pose proof (pass_single (rgbToGrayscale imageData) _ _ true Hw Hh Hl Hbytes) as P1.
    cbv iota in P1. rewrite P1.
    pose proof (pass_single (rgbToGrayscale imageData) _ _ false Hw Hh Hl Hbytes) as P2.
    cbv iota in P2. exact P2.
Qed.

Lemma applyGaussianBlur_small_sigma_witness :
  applyGaussianBlur Reference.host (uniformImage 4 3 200 100 50 255) 0.1
  = Some (rgbToGrayscale (uniformImage 4 3 200 100 50 255)).
Proof.
  destruct (applyGaussianBlur_small_sigma Reference.host
              (uniformImage 4 3 200 100 50 255) 0.1) as [_ H].
  - vm_compute. reflexivity.
  - apply H.
    + vm_compute. reflexivity.
    + vm_compute. reflexivity.
    + vm_compute. reflexivity.
Defined.

(** ** The Gaussian kernel *)



